(** * filecrypt/crypto: passphrase envelopes over NaCl secretbox and scrypt

    A shallow embedding of [crypto/crypto.go].  Go byte slices are views
    (base, offset, length, capacity) on arrays living in a heap; every Go
    function becomes a computation over that heap, the system random source,
    the package variable [Iterations] and a log of the calls made to the
    imported packages ([crypto/rand], [scrypt], [nacl/secretbox]).

    The imported packages are not part of the repository: their pure
    input/output behaviour is an interface of the development, and the
    documented secretbox contracts are hypotheses of the theorems that
    need them. *)

From Stdlib Require Import ZArith Lia Strings.Byte.
From stdpp Require Import base decidable option numbers list finite strings.

Local Open Scope nat_scope.

(** ** Bytes, heap cells and slices *)

Abbreviation byte := Byte.byte.
Abbreviation zero := Byte.x00.

#[global] Instance byte_eq_dec : EqDecision byte := Byte.byte_eq_dec.

(** Every allocation of the package is tagged with the statement that made
    it; [CallerOwned] buffers exist before the package is entered. *)
Inductive site :=
  | CallerOwned
  | RandBytesBuf      (* randBytes:      r := make([]byte, size)          *)
  | NonceArray        (* generateNonce:  nonce := new([nonceSize]byte)    *)
  | EncryptOut        (* encrypt:        out := make([]byte, len(nonce))  *)
  | SecretboxSealOut  (* secretbox.Seal: the grown copy of out            *)
  | DecryptNonce      (* decrypt:        var nonce [nonceSize]byte        *)
  | SecretboxOpenOut  (* secretbox.Open: the plaintext appended to nil    *)
  | NaclKey           (* deriveKey:      naclKey = new([keySize]byte)     *)
  | ScryptOut         (* scrypt.Key:     the derived bytes                *)
  | SealAppend.       (* Seal:           append(salt, out...)             *)

#[global] Instance site_eq_dec : EqDecision site.
Proof. solve_decision. Defined.

Record cell := Cell { origin : site; bytes : list byte }.

Definition loc := nat.

Record slice := Slice { base : loc; off : nat; len : nat; cap : nat }.

(** The nil slice: no backing array, length and capacity zero. *)
Definition nil_slice : slice := Slice 0 0 0 0.

(** [a[:]] for an array of [n] bytes at [l]. *)
Definition array_slice (l : loc) (n : nat) : slice := Slice l 0 n n.

(** The bytes a slice denotes. *)
Definition read (h : list cell) (sl : slice) : list byte :=
  match h !! base sl with
  | Some c => take (len sl) (drop (off sl) (bytes c))
  | None => []
  end.

(** Overwrite [old] from position [pos] on with [bs]. *)
Definition blit (pos : nat) (bs old : list byte) : list byte :=
  take pos old ++ bs ++ drop (pos + length bs) old.

(** A slice is valid in a heap when its window lies inside its array. *)
Definition valid (h : list cell) (sl : slice) : Prop :=
  len sl ≤ cap sl ∧
  (cap sl = 0 ∨ ∃ c, h !! base sl = Some c ∧ off sl + cap sl ≤ length (bytes c)).

(** A byte as its eight bits, and the two bytes "0" and "1" for a bit: used
    to count keys and passphrases. *)
Definition bits8 : Type :=
  bool * (bool * (bool * (bool * (bool * (bool * (bool * bool)))))).

Definition bit_byte (b : bool) : byte := if b then "1"%byte else "0"%byte.

(** ** Constants of the package *)

Definition keySize : nat := 32.
Definition nonceSize : nat := 24.
Definition saltSize : nat := 32.

(** [secretbox.Overhead] is [poly1305.TagSize]. *)
Definition secretbox_Overhead : nat := 16.

Definition IterationsHigh : Z := 1048576.
Definition IterationsLow : Z := 32768.

Definition overhead : nat := saltSize + secretbox_Overhead + nonceSize.

Inductive error :=
  | ErrEncrypt    (* "crypto: encryption failed" *)
  | ErrDecrypt    (* "crypto: decryption failed" *)
  | ErrExternal.  (* an error value of crypto/rand or scrypt *)

#[global] Instance error_eq_dec : EqDecision error.
Proof. solve_decision. Defined.

(** Calls into the imported packages, in program order. *)
Inductive call :=
  | CallRand (n : nat)
  | CallScrypt (password salt : list byte) (N : Z)
  | CallSecretboxSeal
  | CallSecretboxOpen.

(** ** The imported packages

    [entropy g n] is what the system random source in state [g] delivers
    when asked for [n] bytes: the bytes read, whether the read was complete,
    and the next state.  [scrypt], [box_seal] and [box_open] are the
    functions computed by [scrypt.Key], [secretbox.Seal] and
    [secretbox.Open] on the contents of their arguments. *)
Class Imports := {
  rng : Type;
  entropy : rng → nat → list byte * bool * rng;
  scrypt : list byte → list byte → Z → Z → Z → nat → option (list byte);
  box_seal : list byte → list byte → list byte → list byte;
  box_open : list byte → list byte → list byte → option (list byte)
}.

Section Crypto.
Context {I : Imports}.

(** ** Machine state and computations *)

Record state := State {
  heap : list cell;
  random : rng;
  Iterations : Z;
  calls : list call
}.

Inductive outcome (A : Type) :=
  | Returns (a : A) (s : state)
  | Panics.
Arguments Returns {A} a s.
Arguments Panics {A}.

Definition go (A : Type) : Type := state → outcome A.

#[global] Instance go_ret : MRet go := λ A a s, Returns a s.
#[global] Instance go_bind : MBind go := λ A B f m s,
  match m s with
  | Returns a s' => f a s'
  | Panics => Panics
  end.

Definition panic {A} : go A := λ _, Panics.

Definition set_heap (h : list cell) (s : state) : state :=
  State h (random s) (Iterations s) (calls s).

Definition log (c : call) : go () := λ s,
  Returns () (State (heap s) (random s) (Iterations s) (calls s ++ [c])).

(** ** The Go runtime operations the package uses *)

Definition alloc (o : site) (bs : list byte) : go loc := λ s,
  Returns (length (heap s)) (set_heap (heap s ++ [Cell o bs]) s).

Definition load (sl : slice) : go (list byte) := λ s,
  Returns (read (heap s) sl) s.

(** Store [bs] into the array at [l] from position [pos]; storing nothing
    touches nothing. *)
Definition poke (l : loc) (pos : nat) (bs : list byte) : go () := λ s,
  match bs with
  | [] => Returns () s
  | _ =>
    match heap s !! l with
    | Some c =>
      if decide (pos + length bs ≤ length (bytes c))
      then Returns () (set_heap (<[l := Cell (origin c) (blit pos bs (bytes c))]> (heap s)) s)
      else Panics
    | None => Panics
    end
  end.

(** [make([]byte, n)] *)
Definition make (o : site) (n : nat) : go slice :=
  l ← alloc o (replicate n zero); mret (Slice l 0 n n).

(** [new([n]byte)] and [var a [n]byte] *)
Definition new_array (o : site) (n : nat) : go loc :=
  alloc o (replicate n zero).

(** [sl[i] = b], with Go's index check. *)
Definition index_set (sl : slice) (i : nat) (b : byte) : go () :=
  if decide (i < len sl) then poke (base sl) (off sl + i) [b] else panic.

(** [sl[:hi]] and [sl[lo:]], with Go's bounds checks. *)
Definition slice_to (sl : slice) (hi : nat) : go slice :=
  if decide (hi ≤ cap sl) then mret (Slice (base sl) (off sl) hi (cap sl))
  else panic.

Definition slice_from (sl : slice) (lo : nat) : go slice :=
  if decide (lo ≤ len sl)
  then mret (Slice (base sl) (off sl + lo) (len sl - lo) (cap sl - lo))
  else panic.

(** [copy(dst, src)] *)
Definition copy (dst src : slice) : go nat :=
  bs ← load src;
  let n := min (len dst) (len src) in
  _ ← poke (base dst) (off dst) (take n bs);
  mret n.

(** [append(sl, bs...)]: in place when the capacity allows, otherwise into a
    new array (whose capacity is taken to be exactly what is needed). *)
Definition append (o : site) (sl : slice) (bs : list byte) : go slice :=
  if decide (len sl + length bs ≤ cap sl)
  then _ ← poke (base sl) (off sl + len sl) bs;
       mret (Slice (base sl) (off sl) (len sl + length bs) (cap sl))
  else old ← load sl;
       l ← alloc o (old ++ bs);
       mret (Slice l 0 (len sl + length bs) (len sl + length bs)).

(** ** Calls into the imported packages *)

(** [rand.Read(b)]: fills [b] with what the source delivers. *)
Definition rand_Read (b : slice) : go (option error) := λ s,
  let '(bs, ok, g) := entropy (random s) (len b) in
  (_ ← poke (base b) (off b) (take (len b) bs);
   mret (if ok then None else Some ErrExternal))
    (State (heap s) g (Iterations s) (calls s ++ [CallRand (len b)])).

(** [scrypt.Key(password, salt, N, r, p, keyLen)]: a new slice with the
    derived bytes, or nil and an error for invalid parameters. *)
Definition scrypt_Key (password salt : slice) (N r p : Z) (keyLen : nat)
  : go (slice * option error) :=
  pw ← load password;
  sa ← load salt;
  _ ← log (CallScrypt pw sa N);
  match scrypt pw sa N r p keyLen with
  | Some k => l ← alloc ScryptOut k;
              mret (Slice l 0 (length k) (length k), None)
  | None => mret (nil_slice, Some ErrExternal)
  end.

(** [secretbox.Seal(out, message, nonce, key)]: appends the box to [out]. *)
Definition secretbox_Seal (out message : slice) (nonce key : loc) : go slice :=
  m ← load message;
  n ← load (array_slice nonce nonceSize);
  k ← load (array_slice key keySize);
  _ ← log CallSecretboxSeal;
  append SecretboxSealOut out (box_seal m n k).

(** [secretbox.Open(out, box, nonce, key)]: appends the message to [out] when
    the box authenticates. *)
Definition secretbox_Open (out box : slice) (nonce key : loc)
  : go (slice * bool) :=
  b ← load box;
  n ← load (array_slice nonce nonceSize);
  k ← load (array_slice key keySize);
  _ ← log CallSecretboxOpen;
  match box_open b n k with
  | Some m => r ← append SecretboxOpenOut out m; mret (r, true)
  | None => mret (nil_slice, false)
  end.

(** ** crypto.go *)

Definition randBytes (size : nat) : go (slice * option error) :=
  r ← make RandBytesBuf size;
  err ← rand_Read r;
  mret (r, err).

Definition generateNonce : go (option loc * option error) :=
  nonce ← new_array NonceArray nonceSize;
  err ← rand_Read (array_slice nonce nonceSize);
  match err with
  | Some e => mret (None, Some e)
  | None => mret (Some nonce, None)
  end.

(** The loop of [Zero], from index [i], for at most [fuel] iterations. *)
Fixpoint Zero_loop (in_ : slice) (i fuel : nat) : go () :=
  match fuel with
  | O => mret ()
  | S fuel =>
    if decide (i < len in_)
    then _ ← index_set in_ i zero; Zero_loop in_ (S i) fuel
    else mret ()
  end.

Definition Zero (in_ : slice) : go () := Zero_loop in_ 0 (len in_).

Definition encrypt (key : loc) (message : slice) : go (slice * option error) :=
  '(nonce, err) ← generateNonce;
  match err, nonce with
  | Some _, _ => mret (nil_slice, Some ErrEncrypt)
  | None, Some nonce =>
    out ← make EncryptOut nonceSize;
    _ ← copy out (array_slice nonce nonceSize);
    out ← secretbox_Seal out message nonce key;
    mret (out, None)
  | None, None => panic
  end.

Definition decrypt (key : loc) (message : slice) : go (slice * option error) :=
  if decide (len message < nonceSize + secretbox_Overhead)
  then mret (nil_slice, Some ErrDecrypt)
  else
    nonce ← new_array DecryptNonce nonceSize;
    hd ← slice_to message nonceSize;
    _ ← copy (array_slice nonce nonceSize) hd;
    tl ← slice_from message nonceSize;
    '(out, ok) ← secretbox_Open nil_slice tl nonce key;
    if ok : bool then mret (out, None) else mret (nil_slice, Some ErrDecrypt).

Definition deriveKey (pass salt : slice) : go loc :=
  naclKey ← new_array NaclKey keySize;
  N ← (λ s, Returns (Iterations s) s);
  '(key, _) ← scrypt_Key pass salt N 8 1 keySize;
  _ ← copy (array_slice naclKey keySize) key;
  _ ← Zero key;
  mret naclKey.

Definition Seal (pass message : slice) : go (slice * option error) :=
  '(salt, err) ← randBytes saltSize;
  match err with
  | Some _ => mret (nil_slice, Some ErrEncrypt)
  | None =>
    key ← deriveKey pass salt;
    '(out, err) ← encrypt key message;
    _ ← Zero (array_slice key keySize);
    match err with
    | Some _ => mret (nil_slice, Some ErrEncrypt)
    | None =>
      box ← load out;
      out ← append SealAppend salt box;
      mret (out, None)
    end
  end.

Definition Open (pass message : slice) : go (slice * option error) :=
  if decide (len message < overhead)
  then mret (nil_slice, Some ErrDecrypt)
  else
    salt ← slice_to message saltSize;
    key ← deriveKey pass salt;
    tl ← slice_from message saltSize;
    '(out, err) ← decrypt key tl;
    _ ← Zero (array_slice key keySize);
    match err with
    | Some _ => mret (nil_slice, Some ErrDecrypt)
    | None => mret (out, None)
    end.

End Crypto.

Arguments Returns {I A} a s.
Arguments Panics {I A}.

(** ** A small executable instance of the imported packages

    The random source is a finite supply of bytes, as the package's tests
    set it up; the key derivation pads the passphrase with zero bytes, as
    HMAC (through which scrypt reads the passphrase) pads a short key, and
    the box carries half of the key as its tag.  It serves to run the code
    on concrete inputs. *)
Module Toy.

Definition supply (src : list byte) (n : nat) : list byte * bool * list byte :=
  if decide (n ≤ length src) then (take n src, true, drop n src)
  else (src, false, []).

Definition kdf (pw sa : list byte) (N r p : Z) (keyLen : nat)
  : option (list byte) :=
  if decide (1 < N ∧ Z.land N (N - 1) = 0)%Z
  then Some (take keyLen (take 16 (pw ++ replicate 16 zero) ++ sa ++ replicate keyLen zero))
  else None.

Definition seal (m n k : list byte) : list byte := take 16 k ++ m.

Definition open (b n k : list byte) : option (list byte) :=
  if decide (16 ≤ length b ∧ take 16 b = take 16 k) then Some (drop 16 b)
  else None.

Definition imports : Imports :=
  {| rng := list byte; entropy := supply; scrypt := kdf;
     box_seal := seal; box_open := open |}.

(** A caller's heap holding the given buffers, and the slice that spans
    the [l]-th of them. *)
Definition start (bufs : list (list byte)) (src : list byte) (N : Z)
  : state (I := imports) :=
  State (I := imports) (Cell CallerOwned <$> bufs) src N [].

Definition whole (l : loc) (bs : list byte) : slice :=
  Slice l 0 (length bs) (length bs).

(** Example data: three passphrases, a two-byte message, an empty message,
    32 bytes to serve as a key or as a salt, and a supply of 56 random
    bytes. *)
Definition pw_a : list byte := ["a"%byte].
Definition pw_a0 : list byte := ["a"%byte; zero].
Definition pw_b : list byte := ["b"%byte].
Definition msg : list byte := ["h"%byte; "i"%byte].
Definition key : list byte := replicate 32 "k"%byte.
Definition src : list byte := replicate 56 "r"%byte.

Definition s0 : state (I := imports) :=
  start [pw_a; msg; pw_a0; pw_b; []; key] src IterationsHigh.

Definition Pa : slice := whole 0 pw_a.
Definition M : slice := whole 1 msg.
Definition Pa0 : slice := whole 2 pw_a0.
Definition Pb : slice := whole 3 pw_b.
Definition Mempty : slice := whole 4 [].
Definition K : loc := 5.
Definition Salt : slice := whole 5 key.

(** A second caller's heap, with an 80-byte buffer to hand to [Open]. *)
Definition long : list byte := replicate 80 "e"%byte.
Definition s1 : state (I := imports) := start [key; pw_a; long] [] IterationsHigh.
Definition Pa' : slice := whole 1 pw_a.
Definition Salt' : slice := whole 0 key.
Definition Long : slice := whole 2 long.

(** Seal under one passphrase, open under another: the bytes [Open]
    returned and its error, as the package's [TestEncryptCycle] looks at
    them. *)
Definition seal_then_open (p1 p2 m : slice) (s : state (I := imports))
  : option (list byte * option error) :=
  match Seal p1 m s with
  | Returns (env, None) s1 =>
    match Open p2 env s1 with
    | Returns (out, err) s2 => Some (read (heap s2) out, err)
    | Panics => None
    end
  | _ => None
  end.

End Toy.

(** ** Pure counterparts of the derived key and of a filled buffer *)

Section Pure.
Context {I : Imports}.

(** What [rand.Read] leaves in a zeroed buffer of [n] bytes. *)
Definition filled (n : nat) (bs : list byte) : list byte :=
  blit 0 (take n bs) (replicate n zero).

(** The contents of the array [deriveKey] returns. *)
Definition derived (pw sa : list byte) (N : Z) : list byte :=
  match scrypt pw sa N 8 1 keySize with
  | Some k => blit 0 (take keySize k) (replicate keySize zero)
  | None => replicate keySize zero
  end.

(** What [deriveKey] leaves behind of the slice [scrypt.Key] returned. *)
Definition scrypt_cells (pw sa : list byte) (N : Z) : list cell :=
  match scrypt pw sa N 8 1 keySize with
  | Some k => [Cell ScryptOut (replicate (length k) zero)]
  | None => []
  end.

(** What [secretbox.Open] appends to a nil slice: nothing for an empty
    message, a new array otherwise. *)
Definition opened_slice (l : loc) (p : list byte) : slice :=
  match p with
  | [] => nil_slice
  | _ => Slice l 0 (length p) (length p)
  end.

Definition opened_cells (p : list byte) : list cell :=
  match p with
  | [] => []
  | _ => [Cell SecretboxOpenOut p]
  end.

(** The envelope layout: salt, nonce, then the box sealed under the key
    derived from the passphrase and that salt. *)
Definition sealed (pw msg salt nonce : list byte) (N : Z) : list byte :=
  salt ++ nonce ++ box_seal msg nonce (derived pw salt N).

(** The buffers that hold derived key material are those allocated by
    [deriveKey] and by [scrypt.Key]; they are erased when all their bytes
    are zero. *)
Definition key_site (o : site) : bool :=
  match o with
  | NaclKey | ScryptOut => true
  | _ => false
  end.

Definition all_zero (bs : list byte) : Prop := Forall (λ b, b = zero) bs.

Definition keys_erased (t : list cell) : Prop :=
  Forall (λ c, key_site (origin c) = true → all_zero (bytes c)) t.

(** The value a computation returned, and the state it returned in. *)
Definition returned {A} (o : outcome A) : option A :=
  match o with
  | Returns a _ => Some a
  | Panics => None
  end.

Definition final {A} (o : outcome A) : option state :=
  match o with
  | Returns _ s => Some s
  | Panics => None
  end.

(** The documented contracts of secretbox, for a 24-byte nonce and a 32-byte
    key: a box is [secretbox.Overhead] bytes longer than its message, and
    opening a box under the nonce and key that sealed it gives the message
    back. *)
Definition seal_length_law : Prop :=
  ∀ m n k, length n = nonceSize → length k = keySize →
    length (box_seal m n k) = length m + secretbox_Overhead.

Definition open_seal_law : Prop :=
  ∀ m n k, length n = nonceSize → length k = keySize →
    box_open (box_seal m n k) n k = Some m.

End Pure.

(** ** filecrypt.go: the command

    [main] runs on a process: the machine of the crypto package, the lines
    the user will type at the password prompts (after the last one a prompt
    fails), and the record of what the command did to the outside.  The
    flags are taken as [flag.Parse] left them.  Reading and writing files
    and the archive package are the host's: each is called at most once in
    a run, so its answer is a function of its arguments. *)

Record Flags := MkFlags {
  flag_h : bool;     (* help *)
  flag_l : bool;     (* lower *)
  flag_o : string;   (* out *)
  flag_q : bool;     (* quiet *)
  flag_t : bool;     (* list *)
  flag_u : bool;     (* unpack *)
  flag_v : bool;     (* archive.Verbose *)
  flag_x : bool      (* extract *)
}.

Class Host := {
  read_file : string → option (list byte);         (* ioutil.ReadFile *)
  write_file : string → list byte → bool;          (* ioutil.WriteFile, 0644 *)
  pack_files : list string → option (list byte);   (* archive.PackFiles *)
  unpack_files : list byte → string → bool → bool  (* archive.UnpackFiles *)
}.

Inductive event :=
  | EvUsage                                   (* usage() *)
  | EvStderr (msg : string)                   (* fmt.Fprintf(os.Stderr, ...) *)
  | EvDie (e : error)                         (* dieIf: "[!] err" on stderr *)
  | EvDieWith (fs : string)                   (* dieWith: "[!] fs" on stderr *)
  | EvPrintln (msg : string)                  (* fmt.Println *)
  | EvPrint (msg : string)                    (* print, when not quiet *)
  | EvCompleted                               (* printf("Completed in %s.\n") *)
  | EvPrompt (label : string)                 (* readpass.PasswordPromptBytes *)
  | EvReadFile (path : string)
  | EvWriteFile (path : string) (data : list byte)
  | EvPackFiles (paths : list string)
  | EvUnpackFiles (data : list byte) (top : string) (unpack : bool).

Inductive ending :=
  | Exited (code : Z)   (* os.Exit *)
  | Crashed.            (* a run-time panic, or the prompt loop out of fuel *)

Section Command.
Context {I : Imports} {W : Host}.

Record process := Process {
  machine : state;
  terminal : list (option (list byte));
  events : list event
}.

Inductive step (A : Type) :=
  | Next (a : A) (p : process)
  | Stop (e : ending) (p : process).
Arguments Next {A} a p.
Arguments Stop {A} e p.

Definition run (A : Type) : Type := process → step A.

#[global] Instance run_ret : MRet run := λ A a p, Next a p.
#[global] Instance run_bind : MBind run := λ A B f m p,
  match m p with
  | Next a p' => f a p'
  | Stop e p' => Stop e p'
  end.

(** A computation of the crypto package, run by the command. *)
Definition lift {A} (m : go A) : run A := λ p,
  match m (machine p) with
  | Returns a s => Next a (Process s (terminal p) (events p))
  | Panics => Stop Crashed p
  end.

Definition emit (ev : event) : run () := λ p,
  Next () (Process (machine p) (terminal p) (events p ++ [ev])).

Definition os_Exit {A} (code : Z) : run A := λ p, Stop (Exited code) p.

Definition dieIf (err : option error) : run () :=
  match err with
  | Some e => _ ← emit (EvDie e); os_Exit 1
  | None => mret ()
  end.

Definition print (f : Flags) (msg : string) : run () :=
  if flag_q f then mret () else emit (EvPrint msg).

Definition dieWith {A} (fs : string) : run A :=
  _ ← emit (EvDieWith fs); os_Exit 1.

(** The next line typed at the terminal, in a new buffer; an error when the
    read fails or nothing is left to read. *)
Definition read_line : run (slice * option error) := λ p,
  match terminal p with
  | Some line :: rest =>
    (l ← lift (alloc CallerOwned line);
     mret (Slice l 0 (length line) (length line), None))
      (Process (machine p) rest (events p))
  | None :: rest =>
    Next (nil_slice, Some ErrExternal) (Process (machine p) rest (events p))
  | [] => Next (nil_slice, Some ErrExternal) p
  end.

(** [readpass.PasswordPromptBytes] *)
Definition PasswordPromptBytes (label : string) : run (slice * option error) :=
  _ ← emit (EvPrompt label); read_line.

(** [bytes.Equal] *)
Definition bytes_Equal (a b : slice) : run bool :=
  x ← lift (load a); y ← lift (load b); mret (bool_decide (x = y)).

(** The loop asking for the passphrase and its confirmation. *)
Fixpoint confirm_loop (fuel : nat) : run slice :=
  match fuel with
  | O => λ p, Stop Crashed p
  | S fuel =>
    '(pass, err) ← PasswordPromptBytes "Archive password: ";
    _ ← dieIf err;
    '(confirm, err) ← PasswordPromptBytes "Confirm: ";
    _ ← dieIf err;
    eq ← bytes_Equal pass confirm;
    if eq : bool
    then _ ← lift (Zero confirm); mret pass
    else _ ← emit (EvPrintln "Passwords don't match."); confirm_loop fuel
  end.

Definition host_ReadFile (path : string) : run (slice * option error) :=
  _ ← emit (EvReadFile path);
  match read_file path with
  | Some data => l ← lift (alloc CallerOwned data);
                 mret (Slice l 0 (length data) (length data), None)
  | None => mret (nil_slice, Some ErrExternal)
  end.

Definition host_WriteFile (path : string) (data : slice) : run (option error) :=
  bs ← lift (load data);
  _ ← emit (EvWriteFile path bs);
  mret (if write_file path bs then None else Some ErrExternal).

Definition archive_PackFiles (paths : list string) : run (slice * option error) :=
  _ ← emit (EvPackFiles paths);
  match pack_files paths with
  | Some data => l ← lift (alloc CallerOwned data);
                 mret (Slice l 0 (length data) (length data), None)
  | None => mret (nil_slice, Some ErrExternal)
  end.

Definition archive_UnpackFiles (data : slice) (top : string) (unpack : bool)
  : run (option error) :=
  bs ← lift (load data);
  _ ← emit (EvUnpackFiles bs top unpack);
  mret (if unpack_files bs top unpack then None else Some ErrExternal).

(** The prompt loop can go round once for every two lines typed, and once
    more to find the terminal empty. *)
Definition confirmed_passphrase : run slice := λ p,
  confirm_loop (S (length (terminal p))) p.

(** [crypto.Iterations = crypto.IterationsLow] *)
Definition set_Iterations (N : Z) : go () := λ s,
  Returns () (State (heap s) (random s) N (calls s)).

(** The output path [main] settles on. *)
Definition out_path (f : Flags) : string :=
  if decide (flag_o f = "")
  then if flag_u f then "." else if flag_x f then "files.tgz" else "files.enc"
  else flag_o f.

Definition main (f : Flags) (args : list string) : run () :=
  if flag_h f || bool_decide (length args = 0)
  then emit EvUsage
  else
    _ ← (if flag_l f then lift (set_Iterations IterationsLow) else mret ());
    if flag_u f && flag_x f
    then _ ← emit (EvStderr "Only one of unpack or extract may be chosen.");
         os_Exit 1
    else
      let out := out_path f in
      pass ← (if negb (flag_u f || flag_x f || flag_t f)
              then confirmed_passphrase
              else '(pass, err) ← PasswordPromptBytes "Archive password: ";
                   _ ← dieIf err;
                   mret pass);
      _ ← (if flag_u f || flag_x f || flag_t f
           then
             _ ← (if bool_decide (length args ≠ 1)
                  then dieWith "only one file may unpacked at a time."
                  else mret ());
             _ ← print f "Reading encrypted archive...";
             '(in_, err) ← host_ReadFile (default "" (head args));
             _ ← dieIf err;
             _ ← print f "Decrypting archive...";
             '(in_, err) ← lift (Open pass in_);
             _ ← dieIf err;
             err ← (if flag_u f
                    then _ ← print f "Unpacking files...";
                         archive_UnpackFiles in_ out true
                    else if flag_t f
                    then archive_UnpackFiles in_ out false
                    else _ ← print f "Extracting .tgz...";
                         host_WriteFile out in_);
             dieIf err
           else
             _ ← print f "Packing files...";
             '(fData, err) ← archive_PackFiles args;
             _ ← dieIf err;
             _ ← print f "Encrypting archive...";
             '(fData, err) ← lift (Seal pass fData);
             _ ← dieIf err;
             _ ← print f "Writing file...";
             err ← host_WriteFile out fData;
             dieIf err);
      if flag_q f then mret () else emit EvCompleted.

(** What [print] adds to the record. *)
Definition printed (f : Flags) (msg : string) : list event :=
  if flag_q f then [] else [EvPrint msg].

(** Failed attempts at the passphrase prompt: pairs of lines that differ;
    what the user typed for them, the buffers they are left in, and what
    the command showed. *)
Definition typed (pairs : list (list byte * list byte))
  : list (option (list byte)) :=
  pairs ≫= λ ab, [Some ab.1; Some ab.2].

Definition attempt_cells (pairs : list (list byte * list byte)) : list cell :=
  pairs ≫= λ ab, [Cell CallerOwned ab.1; Cell CallerOwned ab.2].

Definition attempt_events (pairs : list (list byte * list byte)) : list event :=
  pairs ≫= λ _, [EvPrompt "Archive password: "; EvPrompt "Confirm: ";
                 EvPrintln "Passwords don't match."].

(** The cost the command runs the crypto package with. *)
Definition cost (f : Flags) (N : Z) : Z := if flag_l f then IterationsLow else N.

(** What the command does with a decrypted archive. *)
Definition delivers (f : Flags) (data : list byte) : list event :=
  if flag_u f
  then printed f "Unpacking files..." ++ [EvUnpackFiles data (out_path f) true]
  else if flag_t f
  then [EvUnpackFiles data (out_path f) false]
  else printed f "Extracting .tgz..." ++ [EvWriteFile (out_path f) data].

Definition delivered (f : Flags) (data : list byte) : bool :=
  if flag_u f then unpack_files data (out_path f) true
  else if flag_t f then unpack_files data (out_path f) false
  else write_file (out_path f) data.

Definition completed (f : Flags) : list event :=
  if flag_q f then [] else [EvCompleted].

(** Events by which the command changes the file system. *)
Definition writes (ev : event) : bool :=
  match ev with
  | EvWriteFile _ _ | EvUnpackFiles _ _ true => true
  | _ => false
  end.

(** [ext R p p']: from [p] to [p'] the record grew by events in [R]. *)
Definition ext (R : event → Prop) (p p' : process) : Prop :=
  ∃ new, events p' = events p ++ new ∧ Forall R new.

(** [ok R P m Q]: from a process in [P], [m] either goes on with a result and
    a process in [Q], or exits with status 1; it does not crash, and what it
    records is in [R]. *)
Definition ok (R : event → Prop) {A} (P : process → Prop) (m : run A)
    (Q : A → process → Prop) : Prop :=
  ∀ p, P p →
    match m p with
    | Next a p' => Q a p' ∧ ext R p p'
    | Stop e p' => e = Exited 1 ∧ ext R p p'
    end.

(** Assertions that speak of the machine only. *)
Definition on_machine (P : state → Prop) : process → Prop := λ p, P (machine p).

End Command.

Arguments Next {I A} a p.
Arguments Stop {I A} e p.

(** ** archive/archive.go: unpacking

    [UnpackFiles] reads the members of a gzipped tar stream one by one.  The
    readers of compress/gzip and archive/tar, the path functions and the
    file operations of package os are imported; the reader and the disk are
    states they act on. *)

(** A tar header, as far as [UnpackFiles] looks at it. *)
Record Header := MkHeader { Name : string; Typeflag : byte; Mode : Z }.

Definition TypeReg : byte := "0"%byte.
Definition TypeRegA : byte := "000"%byte.
Definition TypeDir : byte := "5"%byte.

(** What [tr.Next()] returns: a header, [io.EOF], or another error. *)
Inductive next :=
  | Hdr (hdr : Header)
  | EOF
  | NextErr.

Class Files := {
  reader : Type;
  (** [gzip.NewReader] on a buffer of the input, then [tar.NewReader] *)
  gzip_NewReader : list byte → option reader;
  tr_Next : reader → next * reader;
  disk : Type;
  (** [filepath.Clean(filepath.Join(top, name))] *)
  filepath_Clean_Join : string → string → string;
  os_Create : string → disk → bool * disk;
  (** [io.Copy(file, tr)], for the file created at the path *)
  io_Copy : string → reader → disk → bool * reader * disk;
  file_Chmod : string → Z → disk → bool * disk;
  os_MkdirAll : string → Z → disk → bool * disk
}.

Section Archive.
Context {F : Files}.

(** The tar reader, the disk, and the lines printed. *)
Record world := World {
  tr : reader;
  files : disk;
  stdout : list string
}.

(** The loop of [UnpackFiles]; [None] when the fuel does not reach the end of
    the stream. *)
Fixpoint UnpackFiles_loop (fuel : nat) (Verbose : bool) (top : string)
    (unpack : bool) (w : world) : option (option error * world) :=
  match fuel with
  | O => None
  | S fuel =>
    let '(n, r) := tr_Next (tr w) in
    match n with
    | EOF => Some (None, World r (files w) (stdout w))
    | NextErr => Some (Some ErrExternal, World r (files w) (stdout w))
    | Hdr hdr =>
      let out := if Verbose || negb unpack
                 then stdout w ++ [Name hdr] else stdout w in
      if negb unpack
      then UnpackFiles_loop fuel Verbose top unpack (World r (files w) out)
      else
        let filePath := filepath_Clean_Join top (Name hdr) in
        if decide (Typeflag hdr = TypeReg ∨ Typeflag hdr = TypeRegA)
        then
          let '(ok, d) := os_Create filePath (files w) in
          if negb ok then Some (Some ErrExternal, World r d out)
          else
            let '(ok, r, d) := io_Copy filePath r d in
            if negb ok then Some (Some ErrExternal, World r d out)
            else
              let '(ok, d) := file_Chmod filePath (Mode hdr) d in
              if negb ok then Some (Some ErrExternal, World r d out)
              else UnpackFiles_loop fuel Verbose top unpack (World r d out)
        else if decide (Typeflag hdr = TypeDir)
        then
          let '(ok, d) := os_MkdirAll filePath (Mode hdr) (files w) in
          if negb ok then Some (Some ErrExternal, World r d out)
          else UnpackFiles_loop fuel Verbose top unpack (World r d out)
        else UnpackFiles_loop fuel Verbose top unpack (World r (files w) out)
    end
  end.

(** [UnpackFiles(in, top, unpack)], with the package variable [Verbose], on
    a disk and after the lines already printed: the error returned, the disk
    and the lines printed. *)
Definition UnpackFiles (fuel : nat) (Verbose : bool) (in_ : list byte)
    (top : string) (unpack : bool) (d : disk) (out : list string)
  : option (option error * disk * list string) :=
  match gzip_NewReader in_ with
  | None => Some (Some ErrExternal, d, out)
  | Some r =>
    '(err, w) ← UnpackFiles_loop fuel Verbose top unpack (World r d out);
    Some (err, files w, stdout w)
  end.

(** [yields r hdrs eof]: when no member is read, [tr.Next()] gives the
    headers [hdrs] from the reader state [r] on, and then [io.EOF] ([eof])
    or an error. *)
Inductive yields : reader → list Header → bool → Prop :=
  | yields_EOF r r' : tr_Next r = (EOF, r') → yields r [] true
  | yields_NextErr r r' : tr_Next r = (NextErr, r') → yields r [] false
  | yields_Hdr r hdr r' hdrs eof :
    tr_Next r = (Hdr hdr, r') → yields r' hdrs eof →
    yields r (hdr :: hdrs) eof.

(** Members [UnpackFiles] knows how to write. *)
Definition supported (hdr : Header) : bool :=
  bool_decide (Typeflag hdr = TypeReg ∨ Typeflag hdr = TypeRegA
               ∨ Typeflag hdr = TypeDir).

End Archive.

(** ** An instance to run the command and the unpacker on *)

Module Desk.

(** A packed archive, the envelope a packing run writes for it under the
    passphrase "a" with the random bytes of [Toy.src], and a host on which
    that envelope is the file files.enc and two bytes are the file
    short.enc. *)
Definition tgz : list byte := ["t"%byte; "g"%byte; "z"%byte].

Definition envelope : list byte :=
  sealed (I := Toy.imports) Toy.pw_a tgz (take 32 Toy.src)
         (take 24 (drop 32 Toy.src)) IterationsHigh.

Definition host : Host :=
  {| read_file path :=
       if decide (path = "files.enc") then Some envelope
       else if decide (path = "short.enc") then Some Toy.msg
       else None;
     write_file path data := true;
     pack_files paths := Some tgz;
     unpack_files data top unpack := true |}.

Definition no_flags : Flags :=
  MkFlags false false "" false false false false false.
Definition flags_u : Flags :=
  MkFlags false false "" false false true false false.
Definition flags_t : Flags :=
  MkFlags false false "" false true false false false.

(** At the prompts of a packing run: "b" and "a", which differ, then "a"
    twice.  At the prompt of a decoding run: "a". *)
Definition packing : process (I := Toy.imports) :=
  Process Toy.s0
    [Some Toy.pw_b; Some Toy.pw_a; Some Toy.pw_a; Some Toy.pw_a] [].

Definition decoding : process (I := Toy.imports) :=
  Process Toy.s1 [Some Toy.pw_a] [].

(** A packing run on a machine whose random source has two bytes left. *)
Definition starved : process (I := Toy.imports) :=
  Process (Toy.start [] Toy.msg IterationsHigh)
    [Some Toy.pw_a; Some Toy.pw_a] [].

(** A state of the machine in which [Iterations] is not a power of two. *)
Definition s3 : state (I := Toy.imports) :=
  Toy.start [Toy.pw_a; Toy.msg; Toy.pw_b; Toy.key] Toy.src 3.

(** A tar stream given as the list of its members; a disk given as the
    list of operations done on it. *)
Inductive op :=
  | Create (path : string)
  | Copy (path : string) (data : list byte)
  | Chmod (path : string) (mode : Z)
  | MkdirAll (path : string) (mode : Z).

Definition members : list (Header * list byte) :=
  [(MkHeader "docs" TypeDir 493, []);
   (MkHeader "docs/a.txt" TypeReg 420, ["h"%byte; "i"%byte]);
   (MkHeader "docs/link" "2"%byte 511, [])].

Definition links : list (Header * list byte) :=
  [(MkHeader "link" "2"%byte 511, []);
   (MkHeader "pipe" "6"%byte 420, [])].

Definition files : Files :=
  {| reader := list byte * list (Header * list byte);
     gzip_NewReader in_ :=
       if decide (in_ = tgz) then Some ([], members)
       else if decide (in_ = Toy.msg) then Some ([], links)
       else None;
     tr_Next r :=
       match r.2 with
       | [] => (EOF, ([], []))
       | (hdr, data) :: rest => (Hdr hdr, (data, rest))
       end;
     disk := list op;
     filepath_Clean_Join top name := (top +:+ "/" +:+ name)%string;
     os_Create path d := (true, d ++ [Create path]);
     io_Copy path r d := (true, ([], r.2), d ++ [Copy path r.1]);
     file_Chmod path mode d := (true, d ++ [Chmod path mode]);
     os_MkdirAll path mode d := (true, d ++ [MkdirAll path mode]) |}.

End Desk.

(** * Properties *)

(** ** Lists of bytes *)

Lemma blit_nil pos (old : list byte) : blit pos [] old = old.
Proof. unfold blit. simpl. rewrite Nat.add_0_r. apply take_drop. Qed.

Lemma length_blit pos (bs old : list byte) :
  pos + length bs ≤ length old → length (blit pos bs old) = length old.
Proof.
  intros Hle. unfold blit.
  rewrite !length_app, length_take, length_drop. lia.
Qed.

Lemma blit_all (bs old : list byte) :
  length bs = length old → blit 0 bs old = bs.
Proof.
  intros Hlen. unfold blit. simpl. rewrite drop_ge by lia. apply app_nil_r.
Qed.

Lemma blit_step pos n (old : list byte) :
  pos + S n ≤ length old →
  blit (S pos) (replicate n zero) (blit pos [zero] old)
  = blit pos (replicate (S n) zero) old.
Proof.
  intros Hle. unfold blit. simpl. rewrite length_replicate.
  assert (Hp : length (take pos old) = pos) by (rewrite length_take; lia).
  assert (Ht : take (S pos) (take pos old ++ zero :: drop (pos + 1) old)
               = take pos old ++ [zero]).
  { rewrite take_app_ge by lia. rewrite Hp.
    replace (S pos - pos) with 1 by lia. reflexivity. }
  assert (Hd : drop (S (pos + n)) (take pos old ++ zero :: drop (pos + 1) old)
               = drop (pos + S n) old).
  { rewrite drop_app_ge by lia. rewrite Hp.
    replace (S (pos + n) - pos) with (S n) by lia. simpl.
    rewrite drop_drop. f_equal. lia. }
  rewrite Ht, Hd, <- app_assoc. reflexivity.
Qed.

Lemma length_filled n bs : length (filled n bs) = n.
Proof.
  unfold filled. rewrite length_blit; rewrite ?length_replicate; [done|].
  rewrite length_take. lia.
Qed.

Lemma all_zero_replicate (n : nat) : Forall (λ b : byte, b = zero) (replicate n zero).
Proof. apply Forall_replicate. reflexivity. Qed.

(** ** Validity and reading *)

Lemma valid_nil h : valid h nil_slice.
Proof. split; simpl; auto. Qed.

Lemma length_read h sl : valid h sl → length (read h sl) = len sl.
Proof.
  intros [Hle [H0 | (c & Hc & Hb)]]; unfold read.
  - assert (len sl = 0) as -> by lia. by destruct (h !! base sl).
  - rewrite Hc, length_take, length_drop. lia.
Qed.

Lemma read_app h t sl : valid h sl → read (h ++ t) sl = read h sl.
Proof.
  intros [Hle [H0 | (c & Hc & Hb)]]; unfold read.
  - assert (len sl = 0) as -> by lia.
    by destruct ((h ++ t) !! base sl), (h !! base sl).
  - by rewrite (lookup_app_l_Some _ _ _ _ Hc), Hc.
Qed.

Lemma valid_app h t sl : valid h sl → valid (h ++ t) sl.
Proof.
  intros [Hle [H0 | (c & Hc & Hb)]]; split; auto.
  right. exists c. split; [by apply lookup_app_l_Some | done].
Qed.

Lemma read_middle h c t off n m :
  read (h ++ c :: t) (Slice (length h) off n m) = take n (drop off (bytes c)).
Proof. unfold read. simpl. by rewrite list_lookup_middle. Qed.

(** ** Running the runtime operations *)

Section Run.
Context {I : Imports}.

Lemma bind_Returns {A B} (m : go A) (f : A → go B) s a s' :
  m s = Returns a s' → (m ≫= f) s = f a s'.
Proof. intros E. unfold mbind, go_bind. by rewrite E. Qed.

Lemma alloc_eq o bs h g N cs :
  alloc o bs (State h g N cs)
  = Returns (length h) (State (h ++ [Cell o bs]) g N cs).
Proof. reflexivity. Qed.

Lemma make_eq o n h g N cs :
  make o n (State h g N cs)
  = Returns (Slice (length h) 0 n n)
            (State (h ++ [Cell o (replicate n zero)]) g N cs).
Proof. reflexivity. Qed.

Lemma poke_middle h c t g N cs pos bs :
  pos + length bs ≤ length (bytes c) →
  poke (length h) pos bs (State (h ++ c :: t) g N cs)
  = Returns () (State (h ++ Cell (origin c) (blit pos bs (bytes c)) :: t) g N cs).
Proof.
  intros Hle. unfold poke. destruct bs as [|b bs].
  - rewrite blit_nil. by destruct c.
  - simpl heap. rewrite list_lookup_middle by done.
    rewrite decide_True by done. unfold set_heap. simpl.
    rewrite insert_app_r_alt by done. by rewrite Nat.sub_diag.
Qed.

Lemma Zero_loop_middle h o t g N cs off n m fuel : ∀ i bs,
  i + fuel = n → off + n ≤ length bs →
  Zero_loop (Slice (length h) off n m) i fuel (State (h ++ Cell o bs :: t) g N cs)
  = Returns () (State (h ++ Cell o (blit (off + i) (replicate fuel zero) bs) :: t) g N cs).
Proof.
  induction fuel as [|fuel IH]; intros i bs Hi Hle; simpl.
  - by rewrite blit_nil.
  - rewrite decide_True by lia.
    erewrite bind_Returns; last first.
    { unfold index_set. simpl. rewrite decide_True by lia.
      apply poke_middle. simpl. lia. }
    simpl. rewrite IH; [|lia|rewrite length_blit; simpl; lia].
    replace (off + S i) with (S (off + i)) by lia.
    rewrite blit_step by lia. reflexivity.
Qed.

Lemma Zero_middle h o bs t g N cs off n m :
  off + n ≤ length bs →
  Zero (Slice (length h) off n m) (State (h ++ Cell o bs :: t) g N cs)
  = Returns () (State (h ++ Cell o (blit off (replicate n zero) bs) :: t) g N cs).
Proof.
  intros Hle. unfold Zero. simpl len.
  rewrite Zero_loop_middle by (done || lia). by rewrite Nat.add_0_r.
Qed.

Lemma Zero_array h o bs t g N cs n :
  n = length bs →
  Zero (array_slice (length h) n) (State (h ++ Cell o bs :: t) g N cs)
  = Returns () (State (h ++ Cell o (replicate n zero) :: t) g N cs).
Proof.
  intros ->. unfold array_slice. rewrite Zero_middle by (simpl; lia).
  rewrite blit_all by (by rewrite length_replicate). reflexivity.
Qed.

Lemma Zero_nil s : Zero nil_slice s = Returns () s.
Proof. reflexivity. Qed.

Lemma copy_middle h c t g N cs doff n m src :
  doff + n ≤ length (bytes c) →
  copy (Slice (length h) doff n m) src (State (h ++ c :: t) g N cs)
  = Returns (min n (len src))
      (State (h ++ Cell (origin c)
                     (blit doff (take (min n (len src)) (read (h ++ c :: t) src))
                           (bytes c)) :: t) g N cs).
Proof.
  intros Hle. unfold copy.
  erewrite bind_Returns by reflexivity. simpl.
  erewrite bind_Returns; [reflexivity|].
  apply poke_middle. rewrite length_take. lia.
Qed.

Lemma rand_Read_middle h c t g N cs off n m bs ok g' :
  entropy g n = (bs, ok, g') → off + n ≤ length (bytes c) →
  rand_Read (Slice (length h) off n m) (State (h ++ c :: t) g N cs)
  = Returns (if ok then None else Some ErrExternal)
      (State (h ++ Cell (origin c) (blit off (take n bs) (bytes c)) :: t)
             g' N (cs ++ [CallRand n])).
Proof.
  intros E Hle. unfold rand_Read. simpl. rewrite E.
  erewrite bind_Returns; [reflexivity|].
  apply poke_middle. rewrite length_take. lia.
Qed.

Lemma append_grow o sl bs h g N cs :
  cap sl < len sl + length bs →
  append o sl bs (State h g N cs)
  = Returns (Slice (length h) 0 (len sl + length bs) (len sl + length bs))
            (State (h ++ [Cell o (read h sl ++ bs)]) g N cs).
Proof. intros Hlt. unfold append. by rewrite decide_False by lia. Qed.

Lemma append_nil_nil o s : append o nil_slice [] s = Returns nil_slice s.
Proof. reflexivity. Qed.

(** The same facts for a cell found anywhere in the heap: the heap is given
    up to its decomposition around the cell. *)

Lemma Zero_array_at H l h o bs t g N cs n :
  H = h ++ Cell o bs :: t → l = length h → n = length bs →
  Zero (array_slice l n) (State H g N cs)
  = Returns () (State (h ++ Cell o (replicate n zero) :: t) g N cs).
Proof. intros -> -> Hn. by apply Zero_array. Qed.

Lemma copy_at H l h c t g N cs doff n m src :
  H = h ++ c :: t → l = length h → doff + n ≤ length (bytes c) →
  copy (Slice l doff n m) src (State H g N cs)
  = Returns (min n (len src))
      (State (h ++ Cell (origin c)
                     (blit doff (take (min n (len src)) (read H src))
                           (bytes c)) :: t) g N cs).
Proof. intros -> -> Hle. by apply copy_middle. Qed.

Lemma read_at H l h c t off n m :
  H = h ++ c :: t → l = length h →
  read H (Slice l off n m) = take n (drop off (bytes c)).
Proof. intros -> ->. apply read_middle. Qed.

Lemma valid_at H l h c t off n m :
  H = h ++ c :: t → l = length h → n ≤ m → off + m ≤ length (bytes c) →
  valid H (Slice l off n m).
Proof.
  intros -> -> Hn Hm. split; [done|]. right. exists c.
  split; [by apply list_lookup_middle | done].
Qed.

End Run.

(** ** Sub-slices *)

Lemma read_nil h : read h nil_slice = [].
Proof. unfold read. by destruct (h !! base nil_slice). Qed.

Lemma valid_slice_to h sl hi :
  valid h sl → hi ≤ cap sl → valid h (Slice (base sl) (off sl) hi (cap sl)).
Proof. intros [Hle Hc] Hhi. split; simpl; done. Qed.

Lemma valid_slice_from h sl lo :
  valid h sl → lo ≤ len sl →
  valid h (Slice (base sl) (off sl + lo) (len sl - lo) (cap sl - lo)).
Proof.
  intros [Hle [H0 | (c & Hc & Hb)]] Hlo; split; simpl; try lia.
  right. exists c. split; [done | lia].
Qed.

Lemma read_slice_to h sl hi :
  hi ≤ len sl →
  read h (Slice (base sl) (off sl) hi (cap sl)) = take hi (read h sl).
Proof.
  intros Hhi. unfold read. simpl. destruct (h !! base sl); [|by rewrite take_nil].
  rewrite take_take. f_equal. lia.
Qed.

Lemma read_slice_from h sl lo :
  read h (Slice (base sl) (off sl + lo) (len sl - lo) (cap sl - lo))
  = drop lo (read h sl).
Proof.
  unfold read. simpl. destruct (h !! base sl) as [c|]; [|by rewrite drop_nil].
  destruct (decide (lo ≤ len sl)) as [Hlo|Hlo].
  - replace (len sl) with (lo + (len sl - lo)) at 2 by lia.
    rewrite <- take_drop_commute, drop_drop. reflexivity.
  - replace (len sl - lo) with 0 by lia.
    rewrite (drop_ge (take _ _)); [done | rewrite length_take; lia].
Qed.

(** ** What each function of the package computes *)

(** Heaps are compared up to re-association, locations up to arithmetic. *)
Ltac heap_eq :=
  repeat (rewrite <- !app_assoc || (progress (cbn [app]))); reflexivity.
Ltac loc_eq :=
  repeat (rewrite !length_app || (progress (cbn [length]))); lia.

Lemma take_min_length (n : nat) (k : list byte) :
  take (n `min` length k) k = take n k.
Proof.
  destruct (decide (n ≤ length k)).
  - by rewrite Nat.min_l.
  - rewrite Nat.min_r by lia. by rewrite !take_ge by lia.
Qed.

Section Specs.
Context {I : Imports}.

Lemma randBytes_eq n h g N cs bs ok g' :
  entropy g n = (bs, ok, g') →
  randBytes n (State h g N cs)
  = Returns (Slice (length h) 0 n n, if ok then None else Some ErrExternal)
      (State (h ++ [Cell RandBytesBuf (filled n bs)]) g' N (cs ++ [CallRand n])).
Proof.
  intros E. unfold randBytes.
  erewrite bind_Returns by apply make_eq.
  erewrite bind_Returns; [reflexivity|].
  erewrite rand_Read_middle; [reflexivity | exact E |].
  cbn [bytes]. rewrite length_replicate. lia.
Qed.

Lemma generateNonce_eq h g N cs bs ok g' :
  entropy g nonceSize = (bs, ok, g') →
  generateNonce (State h g N cs)
  = Returns (if ok then (Some (length h), None) else (None, Some ErrExternal))
      (State (h ++ [Cell NonceArray (filled nonceSize bs)]) g' N
             (cs ++ [CallRand nonceSize])).
Proof.
  intros E. unfold generateNonce.
  erewrite bind_Returns by apply alloc_eq.
  erewrite bind_Returns; last first.
  { unfold array_slice. erewrite rand_Read_middle; [reflexivity | exact E |].
    cbn [bytes]. rewrite length_replicate. lia. }
  by destruct ok.
Qed.

Lemma scrypt_Key_Some pass salt N r p keyLen h g N0 cs k :
  scrypt (read h pass) (read h salt) N r p keyLen = Some k →
  scrypt_Key pass salt N r p keyLen (State h g N0 cs)
  = Returns (Slice (length h) 0 (length k) (length k), None)
      (State (h ++ [Cell ScryptOut k]) g N0
             (cs ++ [CallScrypt (read h pass) (read h salt) N])).
Proof.
  intros E. unfold scrypt_Key.
  do 3 (erewrite bind_Returns by reflexivity). cbn [heap]. by rewrite E.
Qed.

Lemma scrypt_Key_None pass salt N r p keyLen h g N0 cs :
  scrypt (read h pass) (read h salt) N r p keyLen = None →
  scrypt_Key pass salt N r p keyLen (State h g N0 cs)
  = Returns (nil_slice, Some ErrExternal)
      (State h g N0 (cs ++ [CallScrypt (read h pass) (read h salt) N])).
Proof.
  intros E. unfold scrypt_Key.
  do 3 (erewrite bind_Returns by reflexivity). cbn [heap]. by rewrite E.
Qed.

Lemma deriveKey_eq pass salt h g N cs :
  valid h pass → valid h salt →
  deriveKey pass salt (State h g N cs)
  = Returns (length h)
      (State (h ++ Cell NaclKey (derived (read h pass) (read h salt) N)
                :: scrypt_cells (read h pass) (read h salt) N)
             g N (cs ++ [CallScrypt (read h pass) (read h salt) N])).
Proof.
  intros Hp Hs. unfold deriveKey.
  erewrite bind_Returns by apply alloc_eq.
  erewrite bind_Returns by reflexivity. cbn [Iterations].
  unfold derived, scrypt_cells.
  destruct (scrypt (read h pass) (read h salt) N 8 1 keySize) as [k|] eqn:E.
  - erewrite bind_Returns; last first.
    { apply scrypt_Key_Some. rewrite !read_app by done. exact E. }
    rewrite !read_app by done.
    erewrite bind_Returns; last first.
    { eapply (copy_at _ _ h); [heap_eq | reflexivity |].
      cbn [bytes]. by rewrite length_replicate. }
    erewrite (read_at _ _ (h ++ [_])); [|heap_eq|loc_eq].
    cbn [origin bytes len]. rewrite drop_0, (take_ge k (length k)) by done.
    rewrite take_min_length.
    erewrite bind_Returns; last first.
    { eapply (Zero_array_at _ _ (h ++ [_])); [heap_eq | loc_eq | reflexivity]. }
    unfold mret, go_ret. do 2 f_equal. heap_eq.
  - erewrite bind_Returns; last first.
    { apply scrypt_Key_None. rewrite !read_app by done. exact E. }
    rewrite !read_app by done.
    erewrite bind_Returns; last first.
    { eapply (copy_at _ _ h); [heap_eq | reflexivity |].
      cbn [bytes]. by rewrite length_replicate. }
    cbn [origin bytes len nil_slice]. rewrite Nat.min_0_r, take_0, blit_nil.
    reflexivity.
Qed.

Lemma length_derived pw sa N : length (derived pw sa N) = keySize.
Proof.
  unfold derived. destruct (scrypt _ _ _ _ _ _).
  - rewrite length_blit; rewrite ?length_replicate; [done|].
    rewrite length_take. lia.
  - apply length_replicate.
Qed.

Lemma secretbox_Seal_eq out message nonce key h g N cs :
  cap out < len out + length (box_seal (read h message)
                                (read h (array_slice nonce nonceSize))
                                (read h (array_slice key keySize))) →
  secretbox_Seal out message nonce key (State h g N cs)
  = let box := box_seal (read h message)
                 (read h (array_slice nonce nonceSize))
                 (read h (array_slice key keySize)) in
    Returns (Slice (length h) 0 (len out + length box) (len out + length box))
      (State (h ++ [Cell SecretboxSealOut (read h out ++ box)]) g N
             (cs ++ [CallSecretboxSeal])).
Proof.
  intros Hgrow. unfold secretbox_Seal.
  do 4 (erewrite bind_Returns by reflexivity). cbn [heap].
  by rewrite append_grow.
Qed.

Lemma encrypt_eq key message h g N cs bs ok g' :
  seal_length_law →
  valid h message → valid h (array_slice key keySize) →
  entropy g nonceSize = (bs, ok, g') →
  let nonce := filled nonceSize bs in
  let box := box_seal (read h message) nonce (read h (array_slice key keySize)) in
  encrypt key message (State h g N cs)
  = if ok
    then Returns (Slice (length h + 2) 0 (nonceSize + length box)
                        (nonceSize + length box), None)
           (State (h ++ [Cell NonceArray nonce; Cell EncryptOut nonce;
                         Cell SecretboxSealOut (nonce ++ box)])
                  g' N (cs ++ [CallRand nonceSize; CallSecretboxSeal]))
    else Returns (nil_slice, Some ErrEncrypt)
           (State (h ++ [Cell NonceArray nonce]) g' N (cs ++ [CallRand nonceSize])).
Proof.
  intros Hlen Hm Hk E nonce box. unfold encrypt.
  assert (Hkl : length (read h (array_slice key keySize)) = keySize)
    by (by apply length_read).
  unfold array_slice in *.
  erewrite bind_Returns by (apply generateNonce_eq; exact E).
  fold nonce. destruct ok; cbv beta iota; [|reflexivity].
  erewrite bind_Returns by apply make_eq.
  erewrite bind_Returns; last first.
  { eapply (copy_at _ _ (h ++ [_])); [heap_eq | loc_eq |].
    cbn [bytes]. by rewrite length_replicate. }
  assert (Hn : length nonce = nonceSize) by apply length_filled.
  erewrite (read_at _ _ h); [|heap_eq|loc_eq].
  cbn [origin bytes len array_slice]. rewrite drop_0, Nat.min_id.
  rewrite (take_ge nonce) by lia. rewrite take_ge by lia.
  rewrite blit_all by (by rewrite length_replicate).
  assert (Hr1 : ∀ x y, read ((h ++ [x]) ++ [y]) message = read h message).
  { intros x y. by rewrite <- app_assoc, read_app. }
  assert (Hr2 : ∀ x y, read ((h ++ [x]) ++ [y]) (Slice key 0 keySize keySize)
                       = read h (Slice key 0 keySize keySize)).
  { intros x y. by rewrite <- app_assoc, read_app. }
  assert (Hr3 : ∀ y, read ((h ++ [Cell NonceArray nonce]) ++ [y])
                          (Slice (length h) 0 nonceSize nonceSize) = nonce).
  { intros y. erewrite (read_at _ _ h); [|heap_eq|loc_eq].
    cbn [bytes]. by rewrite drop_0, take_ge by lia. }
  assert (Hr4 : read ((h ++ [Cell NonceArray nonce]) ++ [Cell EncryptOut nonce])
                  (Slice (length (h ++ [Cell NonceArray nonce])) 0 nonceSize nonceSize)
                = nonce).
  { erewrite (read_at _ _ (h ++ [_])); [|heap_eq|loc_eq].
    cbn [bytes]. by rewrite drop_0, take_ge by lia. }
  erewrite bind_Returns; last first.
  { rewrite secretbox_Seal_eq; [reflexivity|].
    unfold array_slice. rewrite Hr1, Hr2, Hr3. cbn [cap len].
    rewrite Hlen; [unfold secretbox_Overhead; lia | done | done]. }
  cbv zeta. unfold array_slice. rewrite Hr1, Hr2, Hr3, Hr4. cbn [len]. fold box.
  unfold mret, go_ret. f_equal.
  - do 2 f_equal. loc_eq.
  - f_equal; heap_eq.
Qed.

Lemma read_opened h p : read (h ++ opened_cells p) (opened_slice (length h) p) = p.
Proof.
  destruct p as [|b p]; [apply read_nil|].
  unfold opened_cells, opened_slice.
  erewrite (read_at _ _ h); [|reflexivity|reflexivity].
  cbn [bytes]. by rewrite drop_0, take_ge.
Qed.

Lemma len_opened l p : len (opened_slice l p) = length p.
Proof. by destruct p. Qed.

Lemma secretbox_Open_Some box nonce key h g N cs p :
  box_open (read h box) (read h (array_slice nonce nonceSize))
           (read h (array_slice key keySize)) = Some p →
  secretbox_Open nil_slice box nonce key (State h g N cs)
  = Returns (opened_slice (length h) p, true)
      (State (h ++ opened_cells p) g N (cs ++ [CallSecretboxOpen])).
Proof.
  intros E. unfold secretbox_Open.
  do 4 (erewrite bind_Returns by reflexivity). cbn [heap]. rewrite E.
  destruct p as [|b p].
  - erewrite bind_Returns by apply append_nil_nil.
    cbn [opened_cells opened_slice]. by rewrite app_nil_r.
  - erewrite bind_Returns by (apply append_grow; simpl; lia).
    by rewrite read_nil.
Qed.

Lemma secretbox_Open_None box nonce key h g N cs :
  box_open (read h box) (read h (array_slice nonce nonceSize))
           (read h (array_slice key keySize)) = None →
  secretbox_Open nil_slice box nonce key (State h g N cs)
  = Returns (nil_slice, false) (State h g N (cs ++ [CallSecretboxOpen])).
Proof.
  intros E. unfold secretbox_Open.
  do 4 (erewrite bind_Returns by reflexivity). cbn [heap]. by rewrite E.
Qed.

(** [decrypt] up to its call of [secretbox.Open]. *)
Lemma decrypt_unfold key message h g N cs :
  valid h message → nonceSize + secretbox_Overhead ≤ len message →
  decrypt key message (State h g N cs)
  = (secretbox_Open nil_slice
       (Slice (base message) (off message + nonceSize)
              (len message - nonceSize) (cap message - nonceSize))
       (length h) key
     ≫= λ '(out, ok), if ok : bool then mret (out, None)
                        else mret (nil_slice, Some ErrDecrypt))
      (State (h ++ [Cell DecryptNonce (take nonceSize (read h message))]) g N cs).
Proof.
  intros Hm Hlen. unfold decrypt.
  rewrite decide_False by lia.
  erewrite bind_Returns by apply alloc_eq.
  erewrite bind_Returns; last first.
  { unfold slice_to. rewrite decide_True; [reflexivity|]. destruct Hm. lia. }
  erewrite bind_Returns; last first.
  { eapply (copy_at _ _ h); [heap_eq | reflexivity |].
    cbn [bytes]. by rewrite length_replicate. }
  erewrite bind_Returns; last first.
  { unfold slice_from. rewrite decide_True by lia. reflexivity. }
  cbn [origin bytes len].
  rewrite read_app by (apply valid_slice_to; [done | destruct Hm; lia]).
  rewrite read_slice_to by lia.
  rewrite Nat.min_id, take_idemp.
  rewrite blit_all; [reflexivity|].
  rewrite length_replicate, length_take, length_read by done. lia.
Qed.

Lemma decrypt_Some key message h g N cs p :
  valid h message → valid h (array_slice key keySize) →
  nonceSize + secretbox_Overhead ≤ len message →
  box_open (drop nonceSize (read h message)) (take nonceSize (read h message))
           (read h (array_slice key keySize)) = Some p →
  decrypt key message (State h g N cs)
  = Returns (opened_slice (length h + 1) p, None)
      (State (h ++ Cell DecryptNonce (take nonceSize (read h message))
                :: opened_cells p)
             g N (cs ++ [CallSecretboxOpen])).
Proof.
  intros Hm Hk Hlen E. rewrite decrypt_unfold by done.
  erewrite bind_Returns; last first.
  { apply secretbox_Open_Some.
    rewrite (read_app h _ (array_slice key keySize)) by done.
    rewrite read_app by (apply valid_slice_from; [done | lia]).
    rewrite read_slice_from. unfold array_slice at 1.
    erewrite (read_at _ _ h); [|reflexivity|reflexivity].
    cbn [bytes]. rewrite drop_0, take_idemp. exact E. }
  unfold mret, go_ret. f_equal.
  - do 2 f_equal. loc_eq.
  - f_equal. heap_eq.
Qed.

Lemma decrypt_None key message h g N cs :
  valid h message → valid h (array_slice key keySize) →
  nonceSize + secretbox_Overhead ≤ len message →
  box_open (drop nonceSize (read h message)) (take nonceSize (read h message))
           (read h (array_slice key keySize)) = None →
  decrypt key message (State h g N cs)
  = Returns (nil_slice, Some ErrDecrypt)
      (State (h ++ [Cell DecryptNonce (take nonceSize (read h message))])
             g N (cs ++ [CallSecretboxOpen])).
Proof.
  intros Hm Hk Hlen E. rewrite decrypt_unfold by done.
  erewrite bind_Returns; last first.
  { apply secretbox_Open_None.
    rewrite (read_app h _ (array_slice key keySize)) by done.
    rewrite read_app by (apply valid_slice_from; [done | lia]).
    rewrite read_slice_from. unfold array_slice at 1.
    erewrite (read_at _ _ h); [|reflexivity|reflexivity].
    cbn [bytes]. rewrite drop_0, take_idemp. exact E. }
  reflexivity.
Qed.

Lemma Seal_salt_failure pass message h g N cs bs g1 :
  entropy g saltSize = (bs, false, g1) →
  Seal pass message (State h g N cs)
  = Returns (nil_slice, Some ErrEncrypt)
      (State (h ++ [Cell RandBytesBuf (filled saltSize bs)]) g1 N
             (cs ++ [CallRand saltSize])).
Proof.
  intros E. unfold Seal.
  erewrite bind_Returns by (apply randBytes_eq; exact E). reflexivity.
Qed.

Lemma Seal_eq pass message h g N cs bs1 g1 bs2 ok2 g2 :
  seal_length_law →
  valid h pass → valid h message →
  entropy g saltSize = (bs1, true, g1) →
  entropy g1 nonceSize = (bs2, ok2, g2) →
  let salt := filled saltSize bs1 in
  let pw := read h pass in
  let nonce := filled nonceSize bs2 in
  let box := box_seal (read h message) nonce (derived pw salt N) in
  let sc := scrypt_cells pw salt N in
  Seal pass message (State h g N cs)
  = if ok2
    then Returns (Slice (length h + 5 + length sc) 0
                        (saltSize + (nonceSize + length box))
                        (saltSize + (nonceSize + length box)), None)
           (State (h ++ Cell RandBytesBuf salt
                     :: Cell NaclKey (replicate keySize zero)
                     :: sc ++ [Cell NonceArray nonce; Cell EncryptOut nonce;
                               Cell SecretboxSealOut (nonce ++ box);
                               Cell SealAppend (salt ++ nonce ++ box)])
                  g2 N (cs ++ [CallRand saltSize; CallScrypt pw salt N;
                               CallRand nonceSize; CallSecretboxSeal]))
    else Returns (nil_slice, Some ErrEncrypt)
           (State (h ++ Cell RandBytesBuf salt
                     :: Cell NaclKey (replicate keySize zero)
                     :: sc ++ [Cell NonceArray nonce])
                  g2 N (cs ++ [CallRand saltSize; CallScrypt pw salt N;
                               CallRand nonceSize])).
Proof.
  intros Hlen Hp Hm E1 E2 salt pw nonce box sc. unfold Seal.
  assert (Hsl : length salt = saltSize) by apply length_filled.
  assert (Hnl : length nonce = nonceSize) by apply length_filled.
  erewrite bind_Returns by (apply randBytes_eq; exact E1).
  fold salt. cbv beta iota.
  erewrite bind_Returns; last first.
  { apply deriveKey_eq; [by apply valid_app|].
    eapply (valid_at _ _ h); [reflexivity | reflexivity | done |].
    cbn [bytes]. lia. }
  rewrite (read_app h _ pass) by done. fold pw.
  erewrite (read_at _ _ h); [|reflexivity|reflexivity].
  cbn [bytes]. rewrite drop_0, (take_ge salt) by lia. fold sc.
  assert (Hr_msg : read ((h ++ [Cell RandBytesBuf salt])
                         ++ Cell NaclKey (derived pw salt N) :: sc) message
                   = read h message).
  { by rewrite <- app_assoc, read_app. }
  assert (Hr_key : read ((h ++ [Cell RandBytesBuf salt])
                         ++ Cell NaclKey (derived pw salt N) :: sc)
                        (array_slice (length (h ++ [Cell RandBytesBuf salt])) keySize)
                   = derived pw salt N).
  { unfold array_slice. erewrite (read_at _ _ (h ++ [_])); [|heap_eq|loc_eq].
    cbn [bytes]. by rewrite drop_0, take_ge by (by rewrite length_derived). }
  assert (Hbl : length box = length (read h message) + secretbox_Overhead).
  { apply Hlen; [done | apply length_derived]. }
  assert (Hv_msg : valid ((h ++ [Cell RandBytesBuf salt])
                         ++ Cell NaclKey (derived pw salt N) :: sc) message).
  { by do 2 apply valid_app. }
  assert (Hv_key : valid ((h ++ [Cell RandBytesBuf salt])
                         ++ Cell NaclKey (derived pw salt N) :: sc)
                     (array_slice (length (h ++ [Cell RandBytesBuf salt])) keySize)).
  { eapply (valid_at _ _ (h ++ [_])); [reflexivity | reflexivity | done |].
    cbn [bytes]. by rewrite length_derived. }
  destruct ok2.
  - erewrite bind_Returns; last first.
    { rewrite (encrypt_eq _ _ _ _ _ _ bs2 true g2) by done. reflexivity. }
    fold nonce. rewrite Hr_msg, Hr_key. fold box. cbv beta iota.
    erewrite bind_Returns; last first.
    { eapply (Zero_array_at _ _ (h ++ [_])); [heap_eq | loc_eq |].
      symmetry. apply length_derived. }
    erewrite bind_Returns by reflexivity. cbn [heap].
    erewrite (read_at _ _ ((h ++ [_]) ++ _ :: sc ++ [_; _])); [|heap_eq|loc_eq].
    cbn [bytes]. rewrite drop_0, take_ge by (rewrite length_app; lia).
    erewrite bind_Returns; last first.
    { apply append_grow. cbn [cap len]. rewrite !length_app, Hnl.
      unfold nonceSize. lia. }
    erewrite (read_at _ _ h); [|heap_eq|loc_eq].
    cbn [bytes len]. rewrite drop_0, (take_ge salt) by lia.
    unfold mret, go_ret. f_equal.
    + rewrite !length_app. do 2 f_equal; try loc_eq.
    + f_equal; heap_eq.
  - erewrite bind_Returns; last first.
    { rewrite (encrypt_eq _ _ _ _ _ _ bs2 false g2) by done. reflexivity. }
    fold nonce. cbv beta iota.
    erewrite bind_Returns; last first.
    { eapply (Zero_array_at _ _ (h ++ [_])); [heap_eq | loc_eq |].
      symmetry. apply length_derived. }
    unfold mret, go_ret. do 2 f_equal; heap_eq.
Qed.

Lemma Open_short pass message s :
  len message < overhead →
  Open pass message s = Returns (nil_slice, Some ErrDecrypt) s.
Proof. intros Hlt. unfold Open. by rewrite decide_True. Qed.

(** [Open] up to its call of [decrypt]. *)
Lemma Open_unfold pass message h g N cs :
  valid h pass → valid h message → overhead ≤ len message →
  let pw := read h pass in
  let salt := take saltSize (read h message) in
  Open pass message (State h g N cs)
  = (decrypt (length h)
       (Slice (base message) (off message + saltSize)
              (len message - saltSize) (cap message - saltSize))
     ≫= λ '(out, err),
       _ ← Zero (array_slice (length h) keySize);
       match err with
       | Some _ => mret (nil_slice, Some ErrDecrypt)
       | None => mret (out, None)
       end)
      (State (h ++ Cell NaclKey (derived pw salt N) :: scrypt_cells pw salt N)
             g N (cs ++ [CallScrypt pw salt N])).
Proof.
  intros Hp Hm Hlen pw salt. unfold Open.
  assert (Hcap : len message ≤ cap message) by (by destruct Hm).
  unfold overhead, saltSize, secretbox_Overhead, nonceSize in Hlen.
  rewrite decide_False by (unfold overhead, saltSize, secretbox_Overhead, nonceSize; lia).
  erewrite bind_Returns; last first.
  { unfold slice_to. rewrite decide_True; [reflexivity | unfold saltSize; lia]. }
  erewrite bind_Returns; last first.
  { apply deriveKey_eq; [done|]. apply valid_slice_to; [done | unfold saltSize; lia]. }
  rewrite read_slice_to by (unfold saltSize; lia). fold pw salt.
  erewrite bind_Returns; last first.
  { unfold slice_from. rewrite decide_True; [reflexivity | unfold saltSize; lia]. }
  reflexivity.
Qed.

Section Opening.
Variables (pass message : slice) (h : list cell) (g : rng) (N : Z) (cs : list call).
Hypothesis Hp : valid h pass.
Hypothesis Hm : valid h message.
Hypothesis Hlen : overhead ≤ len message.

Let pw := read h pass.
Let m := read h message.
Let salt := take saltSize m.
Let nonce := take nonceSize (drop saltSize m).
Let box := drop nonceSize (drop saltSize m).
Let sc := scrypt_cells pw salt N.
Let H1 := h ++ Cell NaclKey (derived pw salt N) :: sc.
Let tl := Slice (base message) (off message + saltSize)
                (len message - saltSize) (cap message - saltSize).

Local Lemma Open_tl_valid : valid H1 tl.
Proof.
  apply valid_app, valid_slice_from; [done|].
  unfold overhead, saltSize in *. lia.
Qed.

Local Lemma Open_key_valid : valid H1 (array_slice (length h) keySize).
Proof.
  eapply (valid_at _ _ h); [reflexivity | reflexivity | done |].
  cbn [bytes]. by rewrite length_derived.
Qed.

Local Lemma Open_tl_len : nonceSize + secretbox_Overhead ≤ len tl.
Proof.
  unfold tl. cbn [len].
  unfold overhead, saltSize, secretbox_Overhead, nonceSize in *. lia.
Qed.

Local Lemma Open_tl_read : read H1 tl = drop saltSize m.
Proof.
  unfold H1, tl. rewrite read_app.
  - apply read_slice_from.
  - apply valid_slice_from; [done|]. unfold overhead, saltSize in *. lia.
Qed.

Local Lemma Open_key_read :
  read H1 (array_slice (length h) keySize) = derived pw salt N.
Proof.
  unfold H1, array_slice.
  erewrite (read_at _ _ h); [|reflexivity|reflexivity].
  cbn [bytes]. by rewrite drop_0, take_ge by (by rewrite length_derived).
Qed.

Lemma Open_Some p :
  box_open box nonce (derived pw salt N) = Some p →
  Open pass message (State h g N cs)
  = Returns (opened_slice (length h + 2 + length sc) p, None)
      (State (h ++ Cell NaclKey (replicate keySize zero)
                :: sc ++ Cell DecryptNonce nonce :: opened_cells p)
             g N (cs ++ [CallScrypt pw salt N; CallSecretboxOpen])).
Proof.
  intros E. rewrite Open_unfold by done.
  fold pw m salt sc H1 tl.
  erewrite bind_Returns; last first.
  { apply decrypt_Some.
    - apply Open_tl_valid.
    - apply Open_key_valid.
    - apply Open_tl_len.
    - rewrite Open_tl_read, Open_key_read. exact E. }
  rewrite Open_tl_read. fold nonce. cbv beta iota.
  erewrite bind_Returns; last first.
  { eapply (Zero_array_at _ _ h); [unfold H1; heap_eq | reflexivity |].
    symmetry. apply length_derived. }
  unfold mret, go_ret. f_equal.
  - do 2 f_equal. unfold H1. loc_eq.
  - f_equal; heap_eq.
Qed.

Lemma Open_None :
  box_open box nonce (derived pw salt N) = None →
  Open pass message (State h g N cs)
  = Returns (nil_slice, Some ErrDecrypt)
      (State (h ++ Cell NaclKey (replicate keySize zero)
                :: sc ++ [Cell DecryptNonce nonce])
             g N (cs ++ [CallScrypt pw salt N; CallSecretboxOpen])).
Proof.
  intros E. rewrite Open_unfold by done.
  fold pw m salt sc H1 tl.
  erewrite bind_Returns; last first.
  { apply decrypt_None.
    - apply Open_tl_valid.
    - apply Open_key_valid.
    - apply Open_tl_len.
    - rewrite Open_tl_read, Open_key_read. exact E. }
  rewrite Open_tl_read. fold nonce. cbv beta iota.
  erewrite bind_Returns; last first.
  { eapply (Zero_array_at _ _ h); [unfold H1; heap_eq | reflexivity |].
    symmetry. apply length_derived. }
  unfold mret, go_ret. do 2 f_equal; heap_eq.
Qed.

End Opening.

End Specs.

(** ** Every run of [Zero], [Seal] and [Open] at a glance *)

Section Runs.
Context {I : Imports}.

Lemma read_blit off (bs old : list byte) :
  off + length bs ≤ length old →
  take (length bs) (drop off (blit off bs old)) = bs.
Proof.
  intros Hle. unfold blit.
  rewrite drop_app_length' by (rewrite length_take; lia).
  by rewrite take_app_length.
Qed.

Lemma heap_split (h : list cell) l c :
  h !! l = Some c → ∃ h1 h2, h = h1 ++ c :: h2 ∧ l = length h1.
Proof.
  intros Hl. exists (take l h), (drop (S l) h).
  split; [by rewrite take_drop_middle|].
  rewrite length_take. apply lookup_lt_Some in Hl. lia.
Qed.

(** [Zero] returns on every valid slice, and leaves it all zero. *)
Lemma Zero_valid buf h g N cs :
  valid h buf →
  ∃ h', Zero buf (State h g N cs) = Returns () (State h' g N cs)
        ∧ length h' = length h
        ∧ read h' buf = replicate (len buf) zero.
Proof.
  intros [Hle Hc]. destruct (decide (len buf = 0)) as [H0|H0].
  - exists h. unfold Zero. rewrite H0. simpl. split; [done|]. split; [done|].
    unfold read. rewrite H0. by destruct (h !! base buf).
  - destruct Hc as [Hc | (c & Hc & Hb)]; [lia|].
    destruct (heap_split _ _ _ Hc) as (h1 & h2 & -> & Hl).
    destruct buf as [l o n m]. cbn [base off len cap] in *. subst l.
    destruct c as [st bs]. cbn [bytes] in Hb.
    exists (h1 ++ Cell st (blit o (replicate n zero) bs) :: h2).
    split; [|split].
    + apply Zero_middle. lia.
    + by rewrite !length_app.
    + rewrite read_middle. cbn [bytes].
      rewrite <- (length_replicate n zero) at 1.
      apply read_blit. rewrite length_replicate. lia.
Qed.

Lemma keys_erased_scrypt_cells pw sa N : keys_erased (scrypt_cells pw sa N).
Proof.
  unfold scrypt_cells, keys_erased. destruct (scrypt _ _ _ _ _ _); [|constructor].
  repeat constructor. intros _. apply all_zero_replicate.
Qed.

Ltac erased :=
  unfold keys_erased;
  repeat first
    [ apply Forall_nil_2
    | apply Forall_cons_2
    | apply Forall_app_2
    | apply keys_erased_scrypt_cells ];
  cbn [origin bytes key_site]; intros; try discriminate;
  try apply all_zero_replicate.

(** [Seal] always returns; it only adds buffers to the heap, those holding
    key material are erased, and a successful result is a valid slice laid
    out as [sealed]. *)
Lemma Seal_returns pass message h g N cs :
  seal_length_law → valid h pass → valid h message →
  ∃ r t g' cs',
    Seal pass message (State h g N cs)
    = Returns r (State (h ++ t) g' N (cs ++ cs'))
    ∧ keys_erased t
    ∧ match r with
      | (env, None) =>
        ∃ salt nonce,
          salt = filled saltSize (entropy g saltSize).1.1
          ∧ length salt = saltSize ∧ length nonce = nonceSize
          ∧ valid (h ++ t) env
          ∧ len env = len message + overhead
          ∧ read (h ++ t) env
            = sealed (read h pass) (read h message) salt nonce N
      | (env, Some e) => env = nil_slice ∧ e = ErrEncrypt
      end.
Proof.
  intros Hlen Hp Hm.
  destruct (entropy g saltSize) as [[bs1 ok1] g1] eqn:E1.
  destruct ok1; last first.
  { eexists _, _, _, _. split; [by apply (Seal_salt_failure _ _ _ _ _ _ _ _ E1)|].
    split; [erased | done]. }
  destruct (entropy g1 nonceSize) as [[bs2 ok2] g2] eqn:E2.
  pose proof (Seal_eq pass message h g N cs _ _ _ _ _ Hlen Hp Hm E1 E2) as HS.
  cbv zeta in HS.
  assert (Hbl := Hlen (read h message) (filled nonceSize bs2)
                   (derived (read h pass) (filled saltSize bs1) N)
                   (length_filled _ _) (length_derived _ _ _)).
  destruct ok2; (eexists _, _, _, _; split; [exact HS|]); (split; [erased|]);
    [|done].
  exists (filled saltSize bs1), (filled nonceSize bs2).
  split; [done|]. split; [apply length_filled|]. split; [apply length_filled|].
  assert (Hread : ∀ a b sc c d e n m,
    n = length (filled saltSize bs1 ++ filled nonceSize bs2 ++
                box_seal (read h message) (filled nonceSize bs2)
                  (derived (read h pass) (filled saltSize bs1) N)) →
    read (h ++ a :: b :: sc ++ [c; d; e;
            Cell SealAppend (filled saltSize bs1 ++ filled nonceSize bs2 ++
                box_seal (read h message) (filled nonceSize bs2)
                  (derived (read h pass) (filled saltSize bs1) N))])
         (Slice (length h + 5 + length sc) 0 n m)
    = sealed (read h pass) (read h message) (filled saltSize bs1)
             (filled nonceSize bs2) N).
  { intros a b sc c d e n m ->.
    erewrite (read_at _ _ (h ++ a :: b :: sc ++ [c; d; e])); [|heap_eq|loc_eq].
    cbn [bytes]. by rewrite drop_0, take_ge. }
  split; [|split].
  - eapply (valid_at _ _ (h ++ _ :: _ :: scrypt_cells _ _ _ ++ [_; _; _]));
      [heap_eq | loc_eq | done |].
    cbn [bytes]. rewrite !length_app, !length_filled. lia.
  - cbn [len]. rewrite Hbl, (length_read _ _ Hm).
    unfold overhead, saltSize, nonceSize, secretbox_Overhead. lia.
  - apply Hread. rewrite !length_app, !length_filled. lia.
Qed.

Lemma read_opened_at H l h p :
  H = h ++ opened_cells p → l = length h → read H (opened_slice l p) = p.
Proof. intros -> ->. apply read_opened. Qed.

(** [Open] always returns; it only adds buffers to the heap, those holding
    key material are erased, it consumes no randomness, and its result is
    decided by the length guard and by [secretbox.Open] alone. *)
Lemma Open_returns pass message h g N cs :
  valid h pass → valid h message →
  ∃ r t cs',
    Open pass message (State h g N cs)
    = Returns r (State (h ++ t) g N (cs ++ cs'))
    ∧ keys_erased t
    ∧ if decide (len message < overhead)
      then r = (nil_slice, Some ErrDecrypt) ∧ t = [] ∧ cs' = []
      else
        let m := read h message in
        let salt := take saltSize m in
        let nonce := take nonceSize (drop saltSize m) in
        let box := drop nonceSize (drop saltSize m) in
        cs' = [CallScrypt (read h pass) salt N; CallSecretboxOpen]
        ∧ match box_open box nonce (derived (read h pass) salt N) with
          | Some p => ∃ out, r = (out, None) ∧ len out = length p
                             ∧ read (h ++ t) out = p
          | None => r = (nil_slice, Some ErrDecrypt)
          end.
Proof.
  intros Hp Hm. destruct (decide (len message < overhead)) as [Hs|Hl].
  - exists (nil_slice, Some ErrDecrypt), [], [].
    rewrite !app_nil_r. split; [by apply Open_short|]. split; [erased | done].
  - assert (Hlen : overhead ≤ len message) by lia. cbv zeta.
    destruct (box_open _ _ _) as [p|] eqn:E.
    + eexists _, _, _. split; [by apply (Open_Some _ _ _ _ _ _ Hp Hm Hlen p)|].
      split; [erased; by destruct p; erased|].
      split; [done|]. eexists. split; [done|]. split; [apply len_opened|].
      eapply (read_opened_at _ _ (h ++ _ :: scrypt_cells _ _ _ ++ [_]));
        [heap_eq | loc_eq].
    + eexists _, _, _. split; [by apply (Open_None _ _ _ _ _ _ Hp Hm Hlen)|].
      split; [erased | done].
Qed.

(** [Open] on what [Seal] returned, under a passphrase that may differ:
    secretbox decides. *)
Lemma Open_after_Seal pass1 pass2 message h g N cs env s1 :
  seal_length_law → open_seal_law →
  valid h pass1 → valid h pass2 → valid h message →
  Seal pass1 message (State h g N cs) = Returns (env, None) s1 →
  ∃ salt nonce r s2,
    salt = filled saltSize (entropy g saltSize).1.1
    ∧ length salt = saltSize ∧ length nonce = nonceSize
    ∧ read (heap s1) env = sealed (read h pass1) (read h message) salt nonce N
    ∧ Open pass2 env s1 = Returns r s2
    ∧ let key1 := derived (read h pass1) salt N in
      let key2 := derived (read h pass2) salt N in
      let box := box_seal (read h message) nonce key1 in
      (r = (nil_slice, Some ErrDecrypt) ↔ box_open box nonce key2 = None)
      ∧ (∀ p, box_open box nonce key2 = Some p →
              ∃ out, r = (out, None) ∧ read (heap s2) out = p)
      ∧ (key1 = key2 →
         ∃ out, r = (out, None) ∧ read (heap s2) out = read h message).
Proof.
  intros Hlen Hopen Hp1 Hp2 Hm HS.
  destruct (Seal_returns pass1 message h g N cs Hlen Hp1 Hm)
    as (r & t & g' & cs' & HS' & _ & Hpost).
  rewrite HS in HS'. injection HS' as <- ->.
  destruct Hpost as (salt & nonce & Hsalt & Hsl & Hnl & Hv & Hl & Hread).
  destruct (Open_returns pass2 env (h ++ t) g' N (cs ++ cs')
              (valid_app _ _ _ Hp2) Hv) as (r' & t' & cs'' & HO & _ & Hpost).
  rewrite decide_False in Hpost by lia. cbv zeta in Hpost.
  rewrite Hread, (read_app h t pass2 Hp2) in Hpost. unfold sealed in Hpost.
  rewrite take_app_length', !drop_app_length', take_app_length' in Hpost by done.
  exists salt, nonce, r', (State ((h ++ t) ++ t') g' N ((cs ++ cs') ++ cs'')).
  cbn [heap]. do 4 (split; [done|]). split; [exact HO|].
  cbv zeta. destruct Hpost as [_ Hpost].
  assert (Hacc : ∀ p,
    box_open (box_seal (read h message) nonce (derived (read h pass1) salt N))
             nonce (derived (read h pass2) salt N) = Some p →
    ∃ out, r' = (out, None) ∧ read ((h ++ t) ++ t') out = p).
  { intros p E. rewrite E in Hpost. destruct Hpost as (out & -> & _ & Hout).
    by exists out. }
  split; [|split; [exact Hacc|]].
  - destruct (box_open _ _ _) as [p|].
    + destruct Hpost as (out & -> & _). split; discriminate.
    + by subst r'.
  - intros Hk. apply Hacc. rewrite <- Hk.
    apply Hopen; [done | apply length_derived].
Qed.

(** ** Passphrases outnumber keys *)

#[local] Instance to_bits_inj : Inj (=) (=) Byte.to_bits.
Proof.
  intros x y E. by rewrite <- (Byte.of_bits_to_bits x), E, Byte.of_bits_to_bits.
Qed.

#[local] Instance bit_byte_inj : Inj (=) (=) bit_byte.
Proof. by intros [] [] E. Qed.

Lemma card_bits8 : card bits8 = 2 ^ 8.
Proof. unfold bits8. by rewrite !prod_card, bool_card. Qed.

(** Whatever [scrypt.Key] computes, for every salt and cost two distinct
    passphrases derive the same key: there are more passphrases of 257
    bytes than arrays of 32 bytes. *)
Lemma derived_collision sa N :
  ∃ pw1 pw2, pw1 ≠ pw2 ∧ derived pw1 sa N = derived pw2 sa N.
Proof.
  assert (Hf : ∀ a : { l : list bool | length l = 257 },
    length (Byte.to_bits <$> derived (bit_byte <$> `a) sa N) = 32).
  { intros a. rewrite length_fmap. apply length_derived. }
  destruct (finite_pigeonhole
    (λ a : { l : list bool | length l = 257 },
       (Byte.to_bits <$> derived (bit_byte <$> `a) sa N) ↾ Hf a
       : { l : list bits8 | length l = 32 }))
    as (x1 & x2 & Hne & Heq).
  - rewrite !list_card, card_bits8, bool_card, <- Nat.pow_mul_r.
    apply Nat.pow_lt_mono_r; lia.
  - exists (bit_byte <$> `x1), (bit_byte <$> `x2). split.
    + intros E. apply Hne, (sig_eq_pi _). by apply (inj (fmap bit_byte)).
    + apply (f_equal proj1_sig) in Heq. cbn [proj1_sig] in Heq.
      by apply (inj (fmap Byte.to_bits)).
Qed.

(** So, for every instance of the imported packages that meets the
    secretbox contracts and every random source that lets [Seal] succeed,
    there are two distinct passphrases such that the envelope sealed under
    the first opens under the second. *)
Lemma Open_under_colliding_passphrase g N msg bs1 g1 bs2 g2 :
  seal_length_law → open_seal_law →
  entropy g saltSize = (bs1, true, g1) →
  entropy g1 nonceSize = (bs2, true, g2) →
  ∃ pw1 pw2,
    pw1 ≠ pw2
    ∧ let s := State [Cell CallerOwned pw1; Cell CallerOwned pw2;
                      Cell CallerOwned msg] g N [] in
      let P1 := Slice 0 0 (length pw1) (length pw1) in
      let P2 := Slice 1 0 (length pw2) (length pw2) in
      let M := Slice 2 0 (length msg) (length msg) in
      ∃ env s1 out s2,
        Seal P1 M s = Returns (env, None) s1
        ∧ Open P2 env s1 = Returns (out, None) s2
        ∧ read (heap s2) out = msg.
Proof.
  intros Hlen Hopen E1 E2.
  destruct (derived_collision (filled saltSize bs1) N) as (pw1 & pw2 & Hne & Hk).
  exists pw1, pw2. split; [done|]. cbv zeta.
  set (h := [Cell CallerOwned pw1; Cell CallerOwned pw2; Cell CallerOwned msg]).
  assert (Hv : ∀ l bs c, h !! l = Some c → bytes c = bs →
                 valid h (Slice l 0 (length bs) (length bs))).
  { intros l bs c Hl <-. split; [done|]. right. by exists c. }
  assert (Hr : ∀ l bs c, h !! l = Some c → bytes c = bs →
                 read h (Slice l 0 (length bs) (length bs)) = bs).
  { intros l bs c Hl <-. unfold read. cbn [base off len]. rewrite Hl.
    by rewrite drop_0, take_ge. }
  pose proof (Seal_eq (Slice 0 0 (length pw1) (length pw1))
                (Slice 2 0 (length msg) (length msg)) h g N []
                _ _ _ _ _ Hlen (Hv 0 pw1 _ eq_refl eq_refl)
                (Hv 2 msg _ eq_refl eq_refl) E1 E2) as HS.
  cbv zeta in HS.
  destruct (Open_after_Seal _ (Slice 1 0 (length pw2) (length pw2)) _ _ _ _ _ _ _
              Hlen Hopen (Hv 0 pw1 _ eq_refl eq_refl)
              (Hv 1 pw2 _ eq_refl eq_refl) (Hv 2 msg _ eq_refl eq_refl) HS)
    as (salt & nonce & r & s2 & Hsalt & _ & _ & _ & HO & _ & _ & Hsame).
  rewrite E1 in Hsalt. cbn [fst] in Hsalt. subst salt.
  rewrite (Hr 0 pw1 _ eq_refl eq_refl), (Hr 1 pw2 _ eq_refl eq_refl),
    (Hr 2 msg _ eq_refl eq_refl) in Hsame.
  destruct (Hsame Hk) as (out & -> & Hout).
  eexists _, _, out, s2. split; [exact HS|]. split; [exact HO | exact Hout].
Qed.

End Runs.

(** ** The toy instance meets the secretbox contracts *)

Lemma Toy_seal_length : seal_length_law (I := Toy.imports).
Proof.
  intros m n k Hn Hk. cbn [box_seal Toy.imports]. unfold Toy.seal.
  rewrite length_app, length_take. unfold keySize in Hk.
  unfold secretbox_Overhead. lia.
Qed.

Lemma Toy_open_seal : open_seal_law (I := Toy.imports).
Proof.
  intros m n k Hn Hk. cbn [box_seal box_open Toy.imports].
  unfold Toy.seal, Toy.open. unfold keySize in Hk.
  assert (Hl : length (take 16 k) = 16) by (rewrite length_take; lia).
  rewrite decide_True.
  - by rewrite drop_app_length'.
  - split; [rewrite length_app; lia|]. by rewrite take_app_length'.
Qed.

Ltac toy_valid :=
  split; [vm_compute; lia | right; eexists; split; [reflexivity | vm_compute; lia]].

(** * The claims *)

Section Claims.
Context {I : Imports}.

(** C1. Round trip: when [Seal] succeeds, [Open] with the same passphrase on
    the envelope it returned succeeds and returns a slice holding exactly
    the bytes of the original message (the empty message included). *)
Theorem Seal_Open_roundtrip :
  seal_length_law → open_seal_law →
  ∀ pass message s env s1,
    valid (heap s) pass → valid (heap s) message →
    Seal pass message s = Returns (env, None) s1 →
    ∃ out s2, Open pass env s1 = Returns (out, None) s2
              ∧ read (heap s2) out = read (heap s) message.
Proof.
  intros Hlen Hopen pass message [h g N cs] env s1 Hp Hm HS. cbn [heap] in *.
  destruct (Seal_returns pass message h g N cs Hlen Hp Hm)
    as (r & t & g' & cs' & HS' & _ & Hpost).
  rewrite HS in HS'. injection HS' as <- ->.
  destruct Hpost as (salt & nonce & Hsalt & Hsl & Hnl & Hv & Hl & Hread).
  destruct (Open_returns pass env (h ++ t) g' N (cs ++ cs')
              (valid_app _ _ _ Hp) Hv) as (r' & t' & cs'' & HO & _ & Hpost).
  rewrite decide_False in Hpost by lia. cbv zeta in Hpost.
  rewrite Hread, (read_app h t pass Hp) in Hpost. unfold sealed in Hpost.
  rewrite take_app_length', !drop_app_length', take_app_length' in Hpost by done.
  rewrite Hopen in Hpost by (done || apply length_derived).
  destruct Hpost as (_ & out & -> & _ & Hout).
  exists out, (State ((h ++ t) ++ t') g' N ((cs ++ cs') ++ cs'')).
  split; [exact HO | exact Hout].
Qed.

(** C2 (as amended). For passphrases P1 and P2, [Open] under P2 of an
    envelope sealed under P1 fails with [ErrDecrypt], returning the nil
    slice, exactly when secretbox rejects the sealed box under the key
    derived from P2 and the salt of the envelope; when secretbox accepts,
    [Open] returns what secretbox returned.  In particular, when P2 derives
    the same key as P1, [Open] returns the message. *)
Theorem Open_other_passphrase :
  seal_length_law → open_seal_law →
  ∀ pass1 pass2 message s env s1,
    valid (heap s) pass1 → valid (heap s) pass2 → valid (heap s) message →
    Seal pass1 message s = Returns (env, None) s1 →
    ∃ salt nonce r s2,
      length salt = saltSize ∧ length nonce = nonceSize
      ∧ read (heap s1) env
        = sealed (read (heap s) pass1) (read (heap s) message) salt nonce
                 (Iterations s)
      ∧ Open pass2 env s1 = Returns r s2
      ∧ let key1 := derived (read (heap s) pass1) salt (Iterations s) in
        let key2 := derived (read (heap s) pass2) salt (Iterations s) in
        let box := box_seal (read (heap s) message) nonce key1 in
        (r = (nil_slice, Some ErrDecrypt) ↔ box_open box nonce key2 = None)
        ∧ (∀ p, box_open box nonce key2 = Some p →
                ∃ out, r = (out, None) ∧ read (heap s2) out = p)
        ∧ (key1 = key2 →
           ∃ out, r = (out, None) ∧ read (heap s2) out = read (heap s) message).
Proof.
  intros Hlen Hopen pass1 pass2 message [h g N cs] env s1 Hp1 Hp2 Hm HS.
  cbn [heap Iterations] in *.
  destruct (Open_after_Seal pass1 pass2 message h g N cs env s1
              Hlen Hopen Hp1 Hp2 Hm HS)
    as (salt & nonce & r & s2 & _ & Hrest).
  by exists salt, nonce, r, s2.
Qed.

(** C3. [Zero] returns with every byte of its buffer zero; [Seal] and
    [Open] always return, whether with a result or with an error, and in
    the state they return in every buffer they allocated for key material
    (the array of [deriveKey] and the slice of [scrypt.Key]) is all zero. *)
Theorem derived_keys_erased :
  seal_length_law →
  ∀ pass message s,
    valid (heap s) pass → valid (heap s) message →
    (∀ buf, valid (heap s) buf →
       ∃ s', Zero buf s = Returns () s'
             ∧ read (heap s') buf = replicate (len buf) zero)
    ∧ (∃ r s' t, Seal pass message s = Returns r s'
                 ∧ heap s' = heap s ++ t ∧ keys_erased t)
    ∧ (∃ r s' t, Open pass message s = Returns r s'
                 ∧ heap s' = heap s ++ t ∧ keys_erased t).
Proof.
  intros Hlen pass message [h g N cs] Hp Hm. cbn [heap] in *.
  split; [|split].
  - intros buf Hb. destruct (Zero_valid buf h g N cs Hb) as (h' & HZ & _ & Hr).
    by exists (State h' g N cs).
  - destruct (Seal_returns pass message h g N cs Hlen Hp Hm)
      as (r & t & g' & cs' & HS & Hk & _).
    by exists r, (State (h ++ t) g' N (cs ++ cs')), t.
  - destruct (Open_returns pass message h g N cs Hp Hm)
      as (r & t & cs' & HO & Hk & _).
    by exists r, (State (h ++ t) g N (cs ++ cs')), t.
Qed.

(** C4. Length law: a successful [Seal] returns a slice of length
    [len(message) + 72], holding that many bytes, where 72 is salt size (32)
    plus nonce size (24) plus [secretbox.Overhead] (16). *)
Theorem Seal_length :
  seal_length_law →
  ∀ pass message s env s1,
    valid (heap s) pass → valid (heap s) message →
    Seal pass message s = Returns (env, None) s1 →
    len env = len message + 72
    ∧ length (read (heap s1) env) = len message + 72
    ∧ 72 = saltSize + nonceSize + secretbox_Overhead.
Proof.
  intros Hlen pass message [h g N cs] env s1 Hp Hm HS. cbn [heap] in *.
  destruct (Seal_returns pass message h g N cs Hlen Hp Hm)
    as (r & t & g' & cs' & HS' & _ & Hpost).
  rewrite HS in HS'. injection HS' as <- ->.
  destruct Hpost as (salt & nonce & Hsalt & Hsl & Hnl & Hv & Hl & Hread).
  cbn [heap]. rewrite (length_read _ _ Hv), Hl. by unfold overhead.
Qed.

(** C5. On an input shorter than 72 bytes [Open] returns [ErrDecrypt] at
    once: the state it returns in is the state it was called in, so nothing
    was allocated and no call was made, in particular none to [scrypt.Key]. *)
Theorem Open_short_input pass message s :
  len message < 72 →
  Open pass message s = Returns (nil_slice, Some ErrDecrypt) s
  ∧ 72 = saltSize + nonceSize + secretbox_Overhead.
Proof. intros Hlt. split; [by apply Open_short | done]. Qed.

(** C6. [Open] always returns, and the only error it ever returns is
    [ErrDecrypt], with the nil slice: for an input shorter than the
    overhead, and for any longer input that secretbox does not authenticate
    under the derived key (truncated, tampered with, or sealed under
    another passphrase).  The error value carries no data. *)
Theorem Open_only_ErrDecrypt :
  ∀ pass message s,
    valid (heap s) pass → valid (heap s) message →
    ∃ r s',
      Open pass message s = Returns r s'
      ∧ (∀ e, r.2 = Some e → e = ErrDecrypt ∧ r.1 = nil_slice)
      ∧ (len message < overhead → r = (nil_slice, Some ErrDecrypt))
      ∧ let m := read (heap s) message in
        let salt := take saltSize m in
        let nonce := take nonceSize (drop saltSize m) in
        let box := drop nonceSize (drop saltSize m) in
        (box_open box nonce (derived (read (heap s) pass) salt (Iterations s))
         = None → r = (nil_slice, Some ErrDecrypt)).
Proof.
  intros pass message [h g N cs] Hp Hm. cbn [heap Iterations] in *.
  destruct (Open_returns pass message h g N cs Hp Hm)
    as (r & t & cs' & HO & _ & Hpost).
  exists r, (State (h ++ t) g N (cs ++ cs')). split; [exact HO|].
  destruct (decide (len message < overhead)) as [Hs|Hl].
  - destruct Hpost as (-> & _ & _). cbn [fst snd].
    split; [by intros e [= <-]|]. split; [done|]. by intros.
  - cbv zeta in Hpost. destruct Hpost as [_ Hpost]. cbv zeta.
    destruct (box_open _ _ _) as [p|].
    + destruct Hpost as (out & -> & _). cbn [fst snd].
      split; [by intros e [=]|]. split; [lia | by intros [=]].
    + subst r. cbn [fst snd]. split; [by intros e [= <-]|]. by split.
Qed.

(** C7 (as amended). The buffer [encrypt] returns is the fresh nonce
    followed by the box: the box has [len(message) + secretbox.Overhead]
    bytes, the nonce is what the random source delivered into a 24-byte
    array, and the buffer returned has
    [len(message) + nonceSize + secretbox.Overhead] bytes. *)
Theorem encrypt_layout :
  seal_length_law →
  ∀ key message s out s1,
    valid (heap s) message → valid (heap s) (array_slice key keySize) →
    encrypt key message s = Returns (out, None) s1 →
    ∃ nonce box,
      read (heap s1) out = nonce ++ box
      ∧ nonce = filled nonceSize (entropy (random s) nonceSize).1.1
      ∧ box = box_seal (read (heap s) message) nonce
                (read (heap s) (array_slice key keySize))
      ∧ length nonce = nonceSize
      ∧ length box = len message + secretbox_Overhead
      ∧ len out = len message + nonceSize + secretbox_Overhead.
Proof.
  intros Hlen key message [h g N cs] out s1 Hm Hk HE. cbn [heap random] in *.
  destruct (entropy g nonceSize) as [[bs ok] g'] eqn:E. cbn [fst].
  pose proof (encrypt_eq key message h g N cs bs ok g' Hlen Hm Hk E) as HE'.
  cbv zeta in HE'. rewrite HE in HE'. destruct ok; [|discriminate].
  injection HE' as -> ->. cbn [heap len].
  assert (Hn : length (filled nonceSize bs) = nonceSize) by apply length_filled.
  assert (Hb := Hlen (read h message) (filled nonceSize bs)
                  (read h (array_slice key keySize)) Hn (length_read _ _ Hk)).
  rewrite (length_read _ _ Hm) in Hb.
  exists (filled nonceSize bs),
         (box_seal (read h message) (filled nonceSize bs)
                   (read h (array_slice key keySize))).
  split.
  { erewrite (read_at _ _ (h ++ [_; _])); [|heap_eq|loc_eq].
    cbn [bytes]. rewrite drop_0, take_ge; [done|].
    rewrite length_app. unfold nonceSize in *. lia. }
  do 3 (split; [done|]). split; [exact Hb|]. rewrite Hb.
  unfold nonceSize. lia.
Qed.

(** C8. Key derivation is deterministic: two calls of [deriveKey] whose
    passphrases hold the same bytes, whose salts hold the same bytes, and
    that run under the same value of [Iterations] both return, and the
    32-byte arrays they return hold the same bytes. *)
Theorem deriveKey_deterministic :
  ∀ pass1 salt1 s1 pass2 salt2 s2,
    valid (heap s1) pass1 → valid (heap s1) salt1 →
    valid (heap s2) pass2 → valid (heap s2) salt2 →
    read (heap s1) pass1 = read (heap s2) pass2 →
    read (heap s1) salt1 = read (heap s2) salt2 →
    Iterations s1 = Iterations s2 →
    ∃ k1 s1' k2 s2',
      deriveKey pass1 salt1 s1 = Returns k1 s1'
      ∧ deriveKey pass2 salt2 s2 = Returns k2 s2'
      ∧ read (heap s1') (array_slice k1 keySize)
        = read (heap s2') (array_slice k2 keySize)
      ∧ length (read (heap s1') (array_slice k1 keySize)) = keySize.
Proof.
  intros pass1 salt1 [h1 g1 N1 cs1] pass2 salt2 [h2 g2 N2 cs2]
         Hp1 Hs1 Hp2 Hs2 Hp Hs HN.
  cbn [heap Iterations] in *. subst N2.
  eexists _, _, _, _.
  split; [by apply deriveKey_eq|]. split; [by apply deriveKey_eq|].
  cbn [heap]. unfold array_slice.
  erewrite !read_at; [|reflexivity|reflexivity|reflexivity|reflexivity].
  cbn [bytes]. rewrite Hp, Hs. split; [done|].
  rewrite drop_0, take_ge by (by rewrite length_derived).
  apply length_derived.
Qed.

(** C9. [Seal] and [Open] leave every buffer that existed when they were
    called as it was: the heap they return in is the initial heap followed
    by the buffers they allocated, so the passphrase and the message (or
    envelope) hold the same bytes as before. *)
Theorem caller_buffers_unchanged :
  seal_length_law →
  ∀ pass message s,
    valid (heap s) pass → valid (heap s) message →
    (∃ r s' t, Seal pass message s = Returns r s'
               ∧ heap s' = heap s ++ t
               ∧ read (heap s') pass = read (heap s) pass
               ∧ read (heap s') message = read (heap s) message)
    ∧ (∃ r s' t, Open pass message s = Returns r s'
                 ∧ heap s' = heap s ++ t
                 ∧ read (heap s') pass = read (heap s) pass
                 ∧ read (heap s') message = read (heap s) message).
Proof.
  intros Hlen pass message [h g N cs] Hp Hm. cbn [heap] in *. split.
  - destruct (Seal_returns pass message h g N cs Hlen Hp Hm)
      as (r & t & g' & cs' & HS & _ & _).
    exists r, (State (h ++ t) g' N (cs ++ cs')), t. cbn [heap].
    by rewrite !read_app.
  - destruct (Open_returns pass message h g N cs Hp Hm)
      as (r & t & cs' & HO & _ & _).
    exists r, (State (h ++ t) g N (cs ++ cs')), t. cbn [heap].
    by rewrite !read_app.
Qed.

(** C10. When the length guard of [Open] passes, the slice handed to
    [decrypt] (the message without its 32-byte salt) is not shorter than
    [nonceSize + secretbox.Overhead], so the length check of [decrypt] does
    not fire: [Open] goes on to call [secretbox.Open], as its call log
    shows. *)
Theorem decrypt_guard_unreachable :
  ∀ pass message s,
    valid (heap s) pass → valid (heap s) message →
    overhead ≤ len message →
    ∃ tl r s',
      slice_from message saltSize s = Returns tl s
      ∧ ¬ len tl < nonceSize + secretbox_Overhead
      ∧ Open pass message s = Returns r s'
      ∧ ∃ pw sa, calls s' = calls s ++ [CallScrypt pw sa (Iterations s);
                                         CallSecretboxOpen].
Proof.
  intros pass message [h g N cs] Hp Hm Hlen. cbn [heap calls Iterations] in *.
  destruct (Open_returns pass message h g N cs Hp Hm)
    as (r & t & cs' & HO & _ & Hpost).
  rewrite decide_False in Hpost by lia. cbv zeta in Hpost.
  destruct Hpost as [-> _].
  unfold overhead, saltSize, secretbox_Overhead, nonceSize in *.
  eexists _, r, _. split.
  { unfold slice_from. rewrite decide_True by lia. reflexivity. }
  cbn [len calls]. split; [lia|]. split; [exact HO|]. by eexists _, _.
Qed.

End Claims.

(** * The claims on concrete runs *)

Lemma Toy_Seal_Pa_M :
  ∃ env s1, Seal (I := Toy.imports) Toy.Pa Toy.M Toy.s0 = Returns (env, None) s1.
Proof. vm_compute. eexists _, _. reflexivity. Qed.

(** Witness of C1: the two-byte message sealed and opened under "a". *)
Lemma Seal_Open_roundtrip_witness :
  ∃ env s1 out s2,
    Seal (I := Toy.imports) Toy.Pa Toy.M Toy.s0 = Returns (env, None) s1
    ∧ Open Toy.Pa env s1 = Returns (out, None) s2
    ∧ read (heap s2) out = Toy.msg.
Proof.
  destruct Toy_Seal_Pa_M as (env & s1 & E).
  destruct (Seal_Open_roundtrip Toy_seal_length Toy_open_seal
              Toy.Pa Toy.M Toy.s0 env s1) as (out & s2 & HO & HR);
    [toy_valid | toy_valid | exact E |].
  exists env, s1, out, s2. split; [exact E|]. split; [exact HO|].
  rewrite HR. reflexivity.
Defined.

(** Witness of C2 as amended: sealed under "a" and opened under "b", the
    box is rejected and [Open] returns [ErrDecrypt]. *)
Lemma Open_other_passphrase_witness :
  Toy.seal_then_open Toy.Pa Toy.Pb Toy.M Toy.s0 = Some ([], Some ErrDecrypt)
  ∧ ∃ env s1 salt nonce r s2,
      Seal (I := Toy.imports) Toy.Pa Toy.M Toy.s0 = Returns (env, None) s1
      ∧ Open Toy.Pb env s1 = Returns r s2
      ∧ (r = (nil_slice, Some ErrDecrypt)
         ↔ Toy.open (Toy.seal Toy.msg nonce
                       (derived (I := Toy.imports) Toy.pw_a salt IterationsHigh))
                    nonce
                    (derived (I := Toy.imports) Toy.pw_b salt IterationsHigh)
           = None).
Proof.
  split; [vm_compute; reflexivity|].
  destruct Toy_Seal_Pa_M as (env & s1 & E).
  destruct (Open_other_passphrase Toy_seal_length Toy_open_seal
              Toy.Pa Toy.Pb Toy.M Toy.s0 env s1)
    as (salt & nonce & r & s2 & _ & _ & _ & HO & Hiff & _);
    [toy_valid | toy_valid | toy_valid | exact E |].
  exists env, s1, salt, nonce, r, s2.
  split; [exact E|]. split; [exact HO | exact Hiff].
Defined.

(** Counterexample to C2 as stated: the toy instance meets both secretbox
    contracts, the passphrases "a" and "a\000" differ, and an envelope
    sealed under the first opens under the second, returning the message.
    ([Open_under_colliding_passphrase] finds such a pair of passphrases in
    every instance.) *)
Lemma Open_other_passphrase_counterexample :
  seal_length_law (I := Toy.imports) ∧ open_seal_law (I := Toy.imports)
  ∧ read (heap Toy.s0) Toy.Pa ≠ read (heap Toy.s0) Toy.Pa0
  ∧ Toy.seal_then_open Toy.Pa Toy.Pa0 Toy.M Toy.s0 = Some (Toy.msg, None).
Proof.
  split; [exact Toy_seal_length|]. split; [exact Toy_open_seal|].
  split; [vm_compute; discriminate | vm_compute; reflexivity].
Qed.

(** Witness of C3. *)
Lemma derived_keys_erased_witness :
  (∀ buf, valid (heap Toy.s0) buf →
     ∃ s', Zero buf Toy.s0 = Returns () s'
           ∧ read (heap s') buf = replicate (len buf) zero)
  ∧ (∃ r s' t, Seal (I := Toy.imports) Toy.Pa Toy.M Toy.s0 = Returns r s'
               ∧ heap s' = heap Toy.s0 ++ t ∧ keys_erased t)
  ∧ (∃ r s' t, Open (I := Toy.imports) Toy.Pa Toy.M Toy.s0 = Returns r s'
               ∧ heap s' = heap Toy.s0 ++ t ∧ keys_erased t).
Proof.
  apply (derived_keys_erased Toy_seal_length Toy.Pa Toy.M Toy.s0); toy_valid.
Defined.

(** The same on a failure path: with 32 random bytes left, the nonce cannot
    be generated after the key was derived; [Seal] returns [ErrEncrypt] and
    the three buffers it leaves behind are the salt and the two erased key
    buffers, followed by the partly filled nonce array. *)
Example Seal_nonce_failure_erases :
  let s := Toy.start [Toy.pw_a; Toy.msg] (replicate 32 "r"%byte) IterationsHigh in
  returned (Seal (I := Toy.imports) Toy.Pa Toy.M s)
  = Some (nil_slice, Some ErrEncrypt)
  ∧ (λ s', drop 2 (heap s')) <$> final (Seal (I := Toy.imports) Toy.Pa Toy.M s)
    = Some [Cell RandBytesBuf (replicate 32 "r"%byte);
            Cell NaclKey (replicate 32 zero);
            Cell ScryptOut (replicate 32 zero);
            Cell NonceArray (replicate 24 zero)].
Proof. split; vm_compute; reflexivity. Qed.

(** Witness of C4: a two-byte message gives a 74-byte envelope. *)
Lemma Seal_length_witness :
  ∃ env s1,
    Seal (I := Toy.imports) Toy.Pa Toy.M Toy.s0 = Returns (env, None) s1
    ∧ len env = 74.
Proof.
  destruct Toy_Seal_Pa_M as (env & s1 & E). exists env, s1. split; [exact E|].
  destruct (Seal_length Toy_seal_length Toy.Pa Toy.M Toy.s0 env s1)
    as (Hl & _); [toy_valid | toy_valid | exact E |].
  exact Hl.
Defined.

(** Witness of C5: a two-byte input. *)
Lemma Open_short_input_witness :
  Open (I := Toy.imports) Toy.Pa Toy.M Toy.s0
  = Returns (nil_slice, Some ErrDecrypt) Toy.s0.
Proof.
  apply (Open_short_input Toy.Pa Toy.M Toy.s0). vm_compute. lia.
Defined.

(** Witness of C6: an 80-byte input that was never sealed. *)
Lemma Open_only_ErrDecrypt_witness :
  ∃ r s', Open (I := Toy.imports) Toy.Pa' Toy.Long Toy.s1 = Returns r s'
          ∧ (∀ e, r.2 = Some e → e = ErrDecrypt ∧ r.1 = nil_slice).
Proof.
  destruct (Open_only_ErrDecrypt Toy.Pa' Toy.Long Toy.s1)
    as (r & s' & HO & He & _); [toy_valid | toy_valid |].
  exists r, s'. split; [exact HO | exact He].
Defined.

Lemma Toy_encrypt_K_M :
  ∃ out s1, encrypt (I := Toy.imports) Toy.K Toy.M Toy.s0 = Returns (out, None) s1.
Proof. vm_compute. eexists _, _. reflexivity. Qed.

(** Witness of C7 as amended: a two-byte message gives 42 bytes. *)
Lemma encrypt_layout_witness :
  ∃ out s1 nonce box,
    encrypt (I := Toy.imports) Toy.K Toy.M Toy.s0 = Returns (out, None) s1
    ∧ read (heap s1) out = nonce ++ box
    ∧ length nonce = 24 ∧ length box = 18 ∧ len out = 42.
Proof.
  destruct Toy_encrypt_K_M as (out & s1 & E).
  destruct (encrypt_layout Toy_seal_length Toy.K Toy.M Toy.s0 out s1)
    as (nonce & box & Hr & _ & _ & Hn & Hb & Hl);
    [toy_valid | toy_valid | exact E |].
  exists out, s1, nonce, box. split; [exact E|]. split; [exact Hr|].
  split; [exact Hn|]. split; [exact Hb | exact Hl].
Defined.

(** Counterexample to C7 as stated: for the empty message [encrypt] returns
    40 bytes, not [0 + secretbox.Overhead = 16]. *)
Lemma encrypt_layout_counterexample :
  seal_length_law (I := Toy.imports)
  ∧ returned (encrypt (I := Toy.imports) Toy.K Toy.Mempty Toy.s0)
    = Some (Slice 8 0 40 40, None)
  ∧ 40 ≠ len Toy.Mempty + secretbox_Overhead.
Proof.
  split; [exact Toy_seal_length|].
  split; [vm_compute; reflexivity | vm_compute; lia].
Qed.

(** Witness of C8: the same passphrase and salt in two different heaps. *)
Lemma deriveKey_deterministic_witness :
  ∃ k1 s1' k2 s2',
    deriveKey (I := Toy.imports) Toy.Pa Toy.Salt Toy.s0 = Returns k1 s1'
    ∧ deriveKey (I := Toy.imports) Toy.Pa' Toy.Salt' Toy.s1 = Returns k2 s2'
    ∧ read (heap s1') (array_slice k1 keySize)
      = read (heap s2') (array_slice k2 keySize)
    ∧ length (read (heap s1') (array_slice k1 keySize)) = keySize.
Proof.
  apply (deriveKey_deterministic Toy.Pa Toy.Salt Toy.s0 Toy.Pa' Toy.Salt' Toy.s1);
    try toy_valid; reflexivity.
Defined.

(** Witness of C9. *)
Lemma caller_buffers_unchanged_witness :
  (∃ r s' t, Seal (I := Toy.imports) Toy.Pa Toy.M Toy.s0 = Returns r s'
             ∧ heap s' = heap Toy.s0 ++ t
             ∧ read (heap s') Toy.Pa = read (heap Toy.s0) Toy.Pa
             ∧ read (heap s') Toy.M = read (heap Toy.s0) Toy.M)
  ∧ (∃ r s' t, Open (I := Toy.imports) Toy.Pa Toy.M Toy.s0 = Returns r s'
               ∧ heap s' = heap Toy.s0 ++ t
               ∧ read (heap s') Toy.Pa = read (heap Toy.s0) Toy.Pa
               ∧ read (heap s') Toy.M = read (heap Toy.s0) Toy.M).
Proof.
  apply (caller_buffers_unchanged Toy_seal_length Toy.Pa Toy.M Toy.s0); toy_valid.
Defined.

(** Witness of C10: an 80-byte input leaves 48 bytes for [decrypt]. *)
Lemma decrypt_guard_unreachable_witness :
  ∃ tl r s',
    slice_from (I := Toy.imports) Toy.Long saltSize Toy.s1 = Returns tl Toy.s1
    ∧ ¬ len tl < nonceSize + secretbox_Overhead
    ∧ Open Toy.Pa' Toy.Long Toy.s1 = Returns r s'
    ∧ ∃ pw sa, calls s' = calls Toy.s1 ++ [CallScrypt pw sa (Iterations Toy.s1);
                                            CallSecretboxOpen].
Proof.
  apply (decrypt_guard_unreachable Toy.Pa' Toy.Long Toy.s1);
    [toy_valid | toy_valid | vm_compute; lia].
Defined.

(** * Further properties of crypto.go *)

Section More.
Context {I : Imports}.

(** [encrypt] at a glance. *)
Lemma encrypt_returns key message h g N cs :
  seal_length_law →
  valid h message → valid h (array_slice key keySize) →
  ∃ r t g' cs',
    encrypt key message (State h g N cs)
    = Returns r (State (h ++ t) g' N (cs ++ cs'))
    ∧ g' = (entropy g nonceSize).2
    ∧ match r with
      | (out, None) =>
        (entropy g nonceSize).1.2 = true
        ∧ cs' = [CallRand nonceSize; CallSecretboxSeal]
        ∧ valid (h ++ t) out ∧ length h ≤ base out
        ∧ read (h ++ t) out
          = filled nonceSize (entropy g nonceSize).1.1
            ++ box_seal (read h message)
                 (filled nonceSize (entropy g nonceSize).1.1)
                 (read h (array_slice key keySize))
      | (out, Some e) =>
        (entropy g nonceSize).1.2 = false
        ∧ cs' = [CallRand nonceSize] ∧ out = nil_slice ∧ e = ErrEncrypt
      end.
Proof.
  intros Hlen Hm Hk.
  destruct (entropy g nonceSize) as [[bs ok] g'] eqn:E. cbn [fst snd].
  pose proof (encrypt_eq key message h g N cs bs ok g' Hlen Hm Hk E) as HE.
  cbv zeta in HE.
  assert (Hn : length (filled nonceSize bs) = nonceSize) by apply length_filled.
  assert (Hb := Hlen (read h message) (filled nonceSize bs)
                  (read h (array_slice key keySize)) Hn (length_read _ _ Hk)).
  destruct ok; (eexists _, _, _, _; split; [exact HE|]); (split; [done|]);
    [|done].
  do 2 (split; [done|]). split; [|split].
  - eapply (valid_at _ _ (h ++ [_; _])); [heap_eq | loc_eq | done |].
    cbn [bytes]. rewrite length_app. unfold nonceSize in *. lia.
  - cbn [base]. lia.
  - erewrite (read_at _ _ (h ++ [_; _])); [|heap_eq|loc_eq].
    cbn [bytes]. rewrite drop_0, take_ge; [done|].
    rewrite length_app. unfold nonceSize in *. lia.
Qed.

(** [decrypt] at a glance. *)
Lemma decrypt_returns key message h g N cs :
  valid h message → valid h (array_slice key keySize) →
  ∃ r t cs',
    decrypt key message (State h g N cs)
    = Returns r (State (h ++ t) g N (cs ++ cs'))
    ∧ if decide (len message < nonceSize + secretbox_Overhead)
      then r = (nil_slice, Some ErrDecrypt) ∧ t = [] ∧ cs' = []
      else
        cs' = [CallSecretboxOpen]
        ∧ match box_open (drop nonceSize (read h message))
                  (take nonceSize (read h message))
                  (read h (array_slice key keySize)) with
          | Some p => ∃ out, r = (out, None) ∧ len out = length p
                             ∧ (out = nil_slice ∨ length h ≤ base out)
                             ∧ read (h ++ t) out = p
          | None => r = (nil_slice, Some ErrDecrypt)
          end.
Proof.
  intros Hm Hk.
  destruct (decide (len message < nonceSize + secretbox_Overhead)) as [Hs|Hl].
  - exists (nil_slice, Some ErrDecrypt), [], []. rewrite !app_nil_r.
    split; [|done]. unfold decrypt. by rewrite decide_True.
  - assert (Hlen : nonceSize + secretbox_Overhead ≤ len message) by lia.
    destruct (box_open _ _ _) as [p|] eqn:E.
    + eexists _, _, _. split; [by apply (decrypt_Some _ _ _ _ _ _ p Hm Hk Hlen)|].
      split; [done|]. eexists. split; [done|]. split; [apply len_opened|].
      split.
      * destruct p; [by left | right; cbn [opened_slice base]; lia].
      * eapply (read_opened_at _ _ (h ++ [_])); [heap_eq | loc_eq].
    + eexists _, _, _. split; [by apply (decrypt_None _ _ _ _ _ _ Hm Hk Hlen)|].
      done.
Qed.

(** X1. Round trip at the level of keys: what [encrypt] returned under a
    key, [decrypt] under the same key array turns back into the message. *)
Theorem encrypt_decrypt_roundtrip :
  seal_length_law → open_seal_law →
  ∀ key message s out s1,
    valid (heap s) message → valid (heap s) (array_slice key keySize) →
    encrypt key message s = Returns (out, None) s1 →
    ∃ pt s2, decrypt key out s1 = Returns (pt, None) s2
             ∧ read (heap s2) pt = read (heap s) message
             ∧ read (heap s2) (array_slice key keySize)
               = read (heap s) (array_slice key keySize).
Proof.
  intros Hlen Hopen key message [h g N cs] out s1 Hm Hk HE. cbn [heap] in *.
  destruct (encrypt_returns key message h g N cs Hlen Hm Hk)
    as (r & t & g' & cs' & HE' & _ & Hpost).
  rewrite HE in HE'. injection HE' as <- ->.
  destruct Hpost as (_ & _ & Hv & _ & Hread).
  assert (Hn : length (filled nonceSize (entropy g nonceSize).1.1) = nonceSize)
    by apply length_filled.
  assert (Hb := Hlen (read h message) _ (read h (array_slice key keySize))
                  Hn (length_read _ _ Hk)).
  destruct (decrypt_returns key out (h ++ t) g' N (cs ++ cs') Hv
              (valid_app _ _ _ Hk)) as (r' & t' & cs'' & HD & Hpost).
  assert (Hl : len out = nonceSize + (length (read h message) + secretbox_Overhead)).
  { rewrite <- (length_read _ _ Hv), Hread, length_app, Hn, Hb. done. }
  rewrite decide_False in Hpost by lia.
  rewrite Hread, (read_app h t _ Hk) in Hpost.
  rewrite take_app_length', drop_app_length' in Hpost by done.
  rewrite Hopen in Hpost by (done || by apply length_read).
  destruct Hpost as (_ & pt & -> & _ & _ & Hpt).
  exists pt, (State ((h ++ t) ++ t') g' N ((cs ++ cs') ++ cs'')).
  split; [exact HD|]. split; [exact Hpt|]. cbn [heap].
  by rewrite <- app_assoc, read_app.
Qed.

(** X2. [decrypt] always returns, leaves every existing buffer and the key
    as they were, and fails, with [ErrDecrypt] and the nil slice, exactly
    when its input is shorter than [nonceSize + secretbox.Overhead] bytes or
    secretbox rejects [message[nonceSize:]] under the nonce
    [message[:nonceSize]]; a short input is rejected in the state of the
    call, before anything is allocated or secretbox is called. *)
Theorem decrypt_fails_iff :
  ∀ key message s,
    valid (heap s) message → valid (heap s) (array_slice key keySize) →
    ∃ r s' t,
      decrypt key message s = Returns r s'
      ∧ heap s' = heap s ++ t
      ∧ (len message < nonceSize + secretbox_Overhead → s' = s)
      ∧ (r.2 ≠ None → r = (nil_slice, Some ErrDecrypt))
      ∧ (r.2 ≠ None ↔
         len message < nonceSize + secretbox_Overhead
         ∨ box_open (drop nonceSize (read (heap s) message))
                    (take nonceSize (read (heap s) message))
                    (read (heap s) (array_slice key keySize)) = None).
Proof.
  intros key message [h g N cs] Hm Hk. cbn [heap] in *.
  destruct (decrypt_returns key message h g N cs Hm Hk)
    as (r & t & cs' & HD & Hpost).
  exists r, (State (h ++ t) g N (cs ++ cs')), t. split; [exact HD|].
  split; [done|].
  destruct (decide (len message < nonceSize + secretbox_Overhead)) as [Hs|Hl].
  - destruct Hpost as (-> & -> & ->). rewrite !app_nil_r. cbn [snd].
    split; [done|]. split; [done|]. split; [by left | done].
  - destruct Hpost as [_ Hpost]. split; [lia|].
    destruct (box_open _ _ _) as [p|].
    + destruct Hpost as (out & -> & _). cbn [snd].
      split; [done|]. split; [done|]. intros [?|?]; [lia | done].
    + subst r. cbn [snd]. split; [done|]. split; [by right | done].
Qed.

(** X3. [encrypt] always returns; it fails exactly when the random source
    does not deliver the nonce, and then with [ErrEncrypt], the nil slice,
    and without calling [secretbox.Seal]; the key array is left as it was
    either way. *)
Theorem encrypt_fails_iff :
  seal_length_law →
  ∀ key message s,
    valid (heap s) message → valid (heap s) (array_slice key keySize) →
    ∃ r s',
      encrypt key message s = Returns r s'
      ∧ (r.2 ≠ None ↔ (entropy (random s) nonceSize).1.2 = false)
      ∧ (r.2 ≠ None →
         r = (nil_slice, Some ErrEncrypt)
         ∧ calls s' = calls s ++ [CallRand nonceSize])
      ∧ read (heap s') (array_slice key keySize)
        = read (heap s) (array_slice key keySize).
Proof.
  intros Hlen key message [h g N cs] Hm Hk. cbn [heap random calls] in *.
  destruct (encrypt_returns key message h g N cs Hlen Hm Hk)
    as ([out [e|]] & t & g' & cs' & HE & _ & Hpost);
    (eexists _, _; split; [exact HE|]); cbn [snd heap calls];
    rewrite (read_app h t _ Hk).
  - destruct Hpost as (Hok & -> & -> & ->). by rewrite Hok.
  - destruct Hpost as (Hok & _). rewrite Hok. split; [|done].
    split; [done | discriminate].
Qed.

Lemma filled_exact n bs : length bs = n → filled n bs = bs.
Proof.
  intros <-. unfold filled. rewrite take_ge by done.
  apply blit_all. by rewrite length_replicate.
Qed.

(** X4. [Seal] always returns; it fails exactly when the random source
    does not deliver the salt or, after that, the nonce; it then returns
    [ErrEncrypt] with the nil slice, never part of an envelope.  When the
    salt is not delivered nothing else is called: no key is derived. *)
Theorem Seal_fails_iff :
  seal_length_law →
  ∀ pass message s,
    valid (heap s) pass → valid (heap s) message →
    ∃ r s',
      Seal pass message s = Returns r s'
      ∧ let r1 := entropy (random s) saltSize in
        let r2 := entropy r1.2 nonceSize in
        (r.2 ≠ None ↔ r1.1.2 = false ∨ r2.1.2 = false)
        ∧ (r.2 ≠ None → r = (nil_slice, Some ErrEncrypt))
        ∧ (r1.1.2 = false → calls s' = calls s ++ [CallRand saltSize]).
Proof.
  intros Hlen pass message [h g N cs] Hp Hm. cbn [heap random calls] in *.
  destruct (entropy g saltSize) as [[bs1 ok1] g1] eqn:E1.
  destruct ok1; last first.
  { eexists _, _. split; [by apply (Seal_salt_failure _ _ _ _ _ _ _ _ E1)|].
    cbv zeta. cbn [fst snd calls].
    split; [split; [by left | done] | done]. }
  destruct (entropy g1 nonceSize) as [[bs2 ok2] g2] eqn:E2.
  pose proof (Seal_eq pass message h g N cs _ _ _ _ _ Hlen Hp Hm E1 E2) as HS.
  cbv zeta in HS.
  destruct ok2; (eexists _, _; split; [exact HS|]); cbv zeta;
    cbn [fst snd]; rewrite E2; cbn [fst snd].
  - split; [|done]. split; [done | by intros [|]].
  - split; [split; [by right | done] | done].
Qed.

(** X5. The envelope a successful [Seal] returns is the 32 bytes of the
    first read of the random source, then the 24 bytes of the second read,
    then the box sealed under that nonce and the key derived from the
    passphrase and that salt; the source has advanced by these two reads
    and [Iterations] is as before. *)
Theorem Seal_layout :
  seal_length_law →
  ∀ pass message s env s1,
    valid (heap s) pass → valid (heap s) message →
    Seal pass message s = Returns (env, None) s1 →
    let r1 := entropy (random s) saltSize in
    let r2 := entropy r1.2 nonceSize in
    let salt := filled saltSize r1.1.1 in
    let nonce := filled nonceSize r2.1.1 in
    read (heap s1) env
    = salt ++ nonce
      ++ box_seal (read (heap s) message) nonce
           (derived (read (heap s) pass) salt (Iterations s))
    ∧ (length r1.1.1 = saltSize → salt = r1.1.1)
    ∧ (length r2.1.1 = nonceSize → nonce = r2.1.1)
    ∧ random s1 = r2.2 ∧ Iterations s1 = Iterations s.
Proof.
  intros Hlen pass message [h g N cs] env s1 Hp Hm HS.
  cbn [heap random Iterations] in *. cbv zeta.
  destruct (entropy g saltSize) as [[bs1 ok1] g1] eqn:E1.
  destruct ok1; last first.
  { rewrite (Seal_salt_failure _ _ _ _ _ _ _ _ E1) in HS. discriminate. }
  cbn [fst snd].
  destruct (entropy g1 nonceSize) as [[bs2 ok2] g2] eqn:E2.
  pose proof (Seal_eq pass message h g N cs _ _ _ _ _ Hlen Hp Hm E1 E2) as HS'.
  cbv zeta in HS'. rewrite HS in HS'. destruct ok2; [|discriminate].
  injection HS' as -> ->. cbn [heap random Iterations fst snd].
  split; [|repeat split; try apply filled_exact; done].
  erewrite (read_at _ _ (h ++ _ :: _ :: scrypt_cells _ _ _ ++ [_; _; _]));
    [|heap_eq|loc_eq].
  cbn [bytes]. rewrite drop_0, take_ge; [done|].
  rewrite !length_app, !length_filled. unfold saltSize, nonceSize. lia.
Qed.

Lemma derived_None pw sa N :
  scrypt pw sa N 8 1 keySize = None → derived pw sa N = replicate keySize zero.
Proof. intros E. unfold derived. by rewrite E. Qed.

(** X6. [deriveKey] drops the error of [scrypt.Key]: for a value of
    [Iterations] that scrypt rejects, the key it returns is 32 zero bytes
    whatever the passphrase, [Seal] still succeeds, and [Open] recovers the
    message under any passphrase. *)
Theorem rejected_cost_gives_zero_key :
  seal_length_law → open_seal_law →
  ∀ pass1 pass2 salt message s,
    (∀ pw sa, scrypt pw sa (Iterations s) 8 1 keySize = None) →
    valid (heap s) pass1 → valid (heap s) pass2 → valid (heap s) salt →
    valid (heap s) message →
    (∃ k s', deriveKey pass1 salt s = Returns k s'
             ∧ read (heap s') (array_slice k keySize) = replicate keySize zero)
    ∧ ∀ env s1,
        Seal pass1 message s = Returns (env, None) s1 →
        ∃ out s2, Open pass2 env s1 = Returns (out, None) s2
                  ∧ read (heap s2) out = read (heap s) message.
Proof.
  intros Hlen Hopen pass1 pass2 salt message [h g N cs] Hbad Hp1 Hp2 Hs Hm.
  cbn [heap Iterations] in *. split.
  - eexists _, _. split; [by apply deriveKey_eq|]. cbn [heap].
    unfold array_slice. erewrite read_at; [|reflexivity|reflexivity].
    cbn [bytes]. rewrite derived_None by apply Hbad.
    by rewrite drop_0, take_ge by (by rewrite length_replicate).
  - intros env s1 HS.
    destruct (Open_after_Seal pass1 pass2 message h g N cs env s1
                Hlen Hopen Hp1 Hp2 Hm HS)
      as (sa & nonce & r & s2 & _ & _ & _ & _ & HO & _ & _ & Hsame).
    destruct Hsame as (out & -> & Hout).
    { by rewrite !derived_None by apply Hbad. }
    by exists out, s2.
Qed.

Lemma blit_lookup_outside pos (bs old : list byte) i :
  pos + length bs ≤ length old → i < pos ∨ pos + length bs ≤ i →
  blit pos bs old !! i = old !! i.
Proof.
  intros Hle Hi. unfold blit.
  assert (Hp : length (take pos old) = pos) by (rewrite length_take; lia).
  destruct Hi as [Hi|Hi].
  - rewrite lookup_app_l by lia. by rewrite lookup_take_lt.
  - rewrite lookup_app_r by lia. rewrite lookup_app_r by lia.
    rewrite lookup_drop, Hp. f_equal. lia.
Qed.

(** X7. [Zero] writes inside the window of its slice and nowhere else: the
    other arrays, and the bytes of its own array before the offset of the
    slice or from its end on (the capacity beyond its length included), are
    as before; no array changes its size, and the random source,
    [Iterations] and the call log are untouched. *)
Theorem Zero_frame :
  ∀ buf s,
    valid (heap s) buf →
    ∃ s',
      Zero buf s = Returns () s'
      ∧ random s' = random s ∧ Iterations s' = Iterations s
      ∧ calls s' = calls s ∧ length (heap s') = length (heap s)
      ∧ ∀ l c, heap s !! l = Some c →
          ∃ c', heap s' !! l = Some c'
                ∧ origin c' = origin c
                ∧ length (bytes c') = length (bytes c)
                ∧ ∀ i, l ≠ base buf ∨ i < off buf ∨ off buf + len buf ≤ i →
                       bytes c' !! i = bytes c !! i.
Proof.
  intros buf [h g N cs] [Hle Hc]. cbn [heap random Iterations calls] in *.
  destruct (decide (len buf = 0)) as [H0|H0].
  { exists (State h g N cs). split.
    { unfold Zero. rewrite H0. reflexivity. }
    do 4 (split; [done|]). intros l c Hl. by exists c. }
  destruct Hc as [Hc | (c & Hc & Hb)]; [lia|].
  destruct (heap_split _ _ _ Hc) as (h1 & h2 & -> & Hl).
  destruct buf as [b o n m]. cbn [base off len cap] in *. subst b.
  destruct c as [st bs]. cbn [bytes] in Hb.
  exists (State (h1 ++ Cell st (blit o (replicate n zero) bs) :: h2) g N cs).
  split; [apply Zero_middle; lia|]. do 3 (split; [done|]).
  cbn [heap]. split; [by rewrite !length_app|].
  intros l c Hlc. destruct (decide (l = length h1)) as [->|Hne].
  - rewrite list_lookup_middle in Hlc by done. injection Hlc as <-.
    eexists. split; [by apply list_lookup_middle|]. cbn [origin bytes].
    split; [done|].
    split; [apply length_blit; rewrite length_replicate; lia|].
    intros i [?|Hi]; [done|].
    apply blit_lookup_outside; rewrite length_replicate; lia.
  - exists c. split; [|done].
    destruct (decide (l < length h1)).
    + rewrite lookup_app_l in Hlc |- * by done. done.
    + rewrite lookup_app_r in Hlc |- * by lia.
      destruct (l - length h1) as [|k] eqn:Ek; [lia|]. exact Hlc.
Qed.

(** X8. [Open] never reads the random source and never changes
    [Iterations]; once the length guard passes it calls [scrypt.Key] once,
    on the bytes of the passphrase, with the first 32 bytes of the envelope
    as salt and the current [Iterations] as cost, and then [secretbox.Open]
    once. *)
Theorem Open_calls :
  ∀ pass message s,
    valid (heap s) pass → valid (heap s) message →
    ∃ r s',
      Open pass message s = Returns r s'
      ∧ random s' = random s ∧ Iterations s' = Iterations s
      ∧ (overhead ≤ len message →
         calls s' = calls s
           ++ [CallScrypt (read (heap s) pass)
                          (take saltSize (read (heap s) message))
                          (Iterations s);
               CallSecretboxOpen]).
Proof.
  intros pass message [h g N cs] Hp Hm. cbn [heap random Iterations calls] in *.
  destruct (Open_returns pass message h g N cs Hp Hm)
    as (r & t & cs' & HO & _ & Hpost).
  eexists _, _. split; [exact HO|]. cbn [random Iterations calls].
  do 2 (split; [done|]). intros Hlen.
  rewrite decide_False in Hpost by lia. cbv zeta in Hpost.
  by destruct Hpost as [-> _].
Qed.

(** X9. What [Seal] and [Open] return does not alias anything the caller
    holds: the envelope lives in an array allocated by [Seal], and the
    plaintext in an array allocated by [Open], or is the nil slice (when the
    plaintext is empty). *)
Theorem results_are_fresh :
  seal_length_law →
  ∀ pass message s,
    valid (heap s) pass → valid (heap s) message →
    (∀ env s1, Seal pass message s = Returns (env, None) s1 →
               length (heap s) ≤ base env)
    ∧ (∀ out s2, Open pass message s = Returns (out, None) s2 →
                 (out = nil_slice ∧ read (heap s2) out = [])
                 ∨ length (heap s) ≤ base out).
Proof.
  intros Hlen pass message [h g N cs] Hp Hm. cbn [heap] in *. split.
  - intros env s1 HS.
    destruct (entropy g saltSize) as [[bs1 ok1] g1] eqn:E1.
    destruct ok1; last first.
    { rewrite (Seal_salt_failure _ _ _ _ _ _ _ _ E1) in HS. discriminate. }
    destruct (entropy g1 nonceSize) as [[bs2 ok2] g2] eqn:E2.
    pose proof (Seal_eq pass message h g N cs _ _ _ _ _ Hlen Hp Hm E1 E2) as HS'.
    cbv zeta in HS'. rewrite HS in HS'. destruct ok2; [|discriminate].
    injection HS' as -> _. cbn [base]. lia.
  - intros out s2 HO.
    destruct (decide (len message < overhead)) as [Hs|Hl].
    { rewrite Open_short in HO by done. discriminate. }
    assert (Hlen' : overhead ≤ len message) by lia.
    destruct (box_open (drop nonceSize (drop saltSize (read h message)))
                (take nonceSize (drop saltSize (read h message)))
                (derived (read h pass) (take saltSize (read h message)) N))
      as [p|] eqn:E.
    + rewrite (Open_Some _ _ _ _ _ _ Hp Hm Hlen' p E) in HO.
      injection HO as <- <-. destruct p as [|b p].
      * left. split; [done|]. apply read_nil.
      * right. cbn [opened_slice base]. lia.
    + rewrite (Open_None _ _ _ _ _ _ Hp Hm Hlen' E) in HO. discriminate.
Qed.

(** X10. [randBytes] always returns a new buffer of exactly the size asked
    for, also when the read fails: the buffer comes with the error, and
    holds the delivered bytes when the source delivered [size] of them.
    [generateNonce], in contrast, returns the nil pointer with an error. *)
Theorem randBytes_returns_buffer :
  ∀ size s,
    ∃ r err s',
      randBytes size s = Returns (r, err) s'
      ∧ len r = size ∧ length (heap s) ≤ base r
      ∧ length (read (heap s') r) = size
      ∧ (err = None ↔ (entropy (random s) size).1.2 = true)
      ∧ (length (entropy (random s) size).1.1 = size →
         read (heap s') r = (entropy (random s) size).1.1)
      ∧ ∃ n err' s'',
          generateNonce s = Returns (n, err') s''
          ∧ (n = None ↔ (entropy (random s) nonceSize).1.2 = false)
          ∧ (n = None ↔ err' ≠ None).
Proof.
  intros size [h g N cs]. cbn [heap random].
  destruct (entropy g size) as [[bs ok] g'] eqn:E.
  eexists _, _, _. split; [by apply (randBytes_eq _ _ _ _ _ _ _ _ E)|].
  cbn [len base heap fst snd]. do 2 (split; [done|]).
  assert (Hr : read (h ++ [Cell RandBytesBuf (filled size bs)])
                 (Slice (length h) 0 size size) = filled size bs).
  { erewrite read_at; [|reflexivity|reflexivity]. cbn [bytes].
    by rewrite drop_0, take_ge by (by rewrite length_filled). }
  rewrite Hr. split; [apply length_filled|].
  split; [by destruct ok|]. split; [apply filled_exact|].
  destruct (entropy g nonceSize) as [[bs' ok'] g''] eqn:E'.
  pose proof (generateNonce_eq h g N cs _ _ _ E') as HG.
  destruct ok'; (eexists _, _, _; split; [exact HG|]); cbn [fst snd]; done.
Qed.

End More.

(** * Properties of filecrypt.go *)

Section CommandRuns.
Context {I : Imports} {W : Host}.

Lemma run_bind_Next {A B} (m : run A) (f : A → run B) p a p' :
  m p = Next a p' → (m ≫= f) p = f a p'.
Proof. intros E. unfold mbind, run_bind. by rewrite E. Qed.

Lemma run_bind_Stop {A B} (m : run A) (f : A → run B) p e p' :
  m p = Stop e p' → (m ≫= f) p = Stop e p'.
Proof. intros E. unfold mbind, run_bind. by rewrite E. Qed.

Lemma lift_Returns {A} (m : go A) s t ev a s' :
  m s = Returns a s' → lift m (Process s t ev) = Next a (Process s' t ev).
Proof. intros E. unfold lift. cbn [machine terminal events]. by rewrite E. Qed.

Lemma print_eq f msg s t ev :
  print f msg (Process s t ev) = Next () (Process s t (ev ++ printed f msg)).
Proof.
  unfold print, printed. destruct (flag_q f); [|reflexivity].
  by rewrite app_nil_r.
Qed.

Lemma prompt_Some lbl line rest h g N cs ev :
  PasswordPromptBytes lbl (Process (State h g N cs) (Some line :: rest) ev)
  = Next (Slice (length h) 0 (length line) (length line), None)
         (Process (State (h ++ [Cell CallerOwned line]) g N cs) rest
                  (ev ++ [EvPrompt lbl])).
Proof. reflexivity. Qed.

Lemma prompt_fails lbl t s ev :
  t = [] ∨ (∃ rest, t = None :: rest) →
  ∃ t', PasswordPromptBytes lbl (Process s t ev)
        = Next (nil_slice, Some ErrExternal) (Process s t' (ev ++ [EvPrompt lbl])).
Proof. intros [->|[rest ->]]; eexists; reflexivity. Qed.

Lemma emit_eq e s t ev :
  emit e (Process s t ev) = Next () (Process s t (ev ++ [e])).
Proof. reflexivity. Qed.

Lemma bytes_Equal_eq a b s t ev :
  bytes_Equal a b (Process s t ev)
  = Next (bool_decide (read (heap s) a = read (heap s) b)) (Process s t ev).
Proof. reflexivity. Qed.

Lemma read_fresh h o bs :
  read (h ++ [Cell o bs]) (Slice (length h) 0 (length bs) (length bs)) = bs.
Proof.
  erewrite read_at; [|reflexivity|reflexivity]. cbn [bytes].
  by rewrite drop_0, take_ge.
Qed.

Lemma valid_fresh h o bs :
  valid (h ++ [Cell o bs]) (Slice (length h) 0 (length bs) (length bs)).
Proof. eapply (valid_at _ _ h); [reflexivity | reflexivity | done | done]. Qed.

(** One round of the prompt loop with two lines that differ. *)
Lemma confirm_loop_mismatch fuel a b rest h g N cs ev :
  a ≠ b →
  confirm_loop (S fuel) (Process (State h g N cs) (Some a :: Some b :: rest) ev)
  = confirm_loop fuel
      (Process (State (h ++ [Cell CallerOwned a; Cell CallerOwned b]) g N cs) rest
               (ev ++ [EvPrompt "Archive password: "; EvPrompt "Confirm: ";
                       EvPrintln "Passwords don't match."])).
Proof.
  intros Hne. cbn [confirm_loop].
  erewrite run_bind_Next by apply prompt_Some. cbv beta iota.
  erewrite run_bind_Next by reflexivity.
  erewrite run_bind_Next by apply prompt_Some. cbv beta iota.
  erewrite run_bind_Next by reflexivity.
  erewrite run_bind_Next by apply bytes_Equal_eq. cbn [heap].
  rewrite (read_app (h ++ [_]) [_]) by apply valid_fresh.
  rewrite read_fresh.
  rewrite (read_fresh (h ++ [Cell CallerOwned a]) CallerOwned b).
  rewrite bool_decide_false by done.
  erewrite run_bind_Next by apply emit_eq.
  rewrite <- !app_assoc. reflexivity.
Qed.

(** One round with the passphrase typed twice. *)
Lemma confirm_loop_match fuel pw rest h g N cs ev :
  confirm_loop (S fuel) (Process (State h g N cs) (Some pw :: Some pw :: rest) ev)
  = Next (Slice (length h) 0 (length pw) (length pw))
      (Process (State (h ++ [Cell CallerOwned pw;
                             Cell CallerOwned (replicate (length pw) zero)])
                      g N cs) rest
               (ev ++ [EvPrompt "Archive password: "; EvPrompt "Confirm: "])).
Proof.
  cbn [confirm_loop].
  erewrite run_bind_Next by apply prompt_Some. cbv beta iota.
  erewrite run_bind_Next by reflexivity.
  erewrite run_bind_Next by apply prompt_Some. cbv beta iota.
  erewrite run_bind_Next by reflexivity.
  erewrite run_bind_Next by apply bytes_Equal_eq. cbn [heap].
  rewrite (read_app (h ++ [_]) [_]) by apply valid_fresh.
  rewrite read_fresh.
  rewrite (read_fresh (h ++ [Cell CallerOwned pw]) CallerOwned pw).
  rewrite bool_decide_true by done.
  erewrite run_bind_Next; last first.
  { apply lift_Returns.
    eapply (Zero_array_at _ _ (h ++ [Cell CallerOwned pw]) CallerOwned pw []);
      [reflexivity | reflexivity | reflexivity]. }
  unfold mret, run_ret. rewrite <- !app_assoc. reflexivity.
Qed.

(** The loop returns the first passphrase typed twice in a row. *)
Lemma confirm_loop_first_match pairs : ∀ fuel pw rest h g N cs ev,
  Forall (λ ab, ab.1 ≠ ab.2) pairs → length pairs < fuel →
  confirm_loop fuel
    (Process (State h g N cs) (typed pairs ++ Some pw :: Some pw :: rest) ev)
  = Next (Slice (length h + 2 * length pairs) 0 (length pw) (length pw))
      (Process (State (h ++ attempt_cells pairs
                         ++ [Cell CallerOwned pw;
                             Cell CallerOwned (replicate (length pw) zero)])
                      g N cs) rest
               (ev ++ attempt_events pairs
                   ++ [EvPrompt "Archive password: "; EvPrompt "Confirm: "])).
Proof.
  induction pairs as [|[a b] pairs IH]; intros fuel pw rest h g N cs ev Hne Hf.
  - destruct fuel as [|fuel]; [cbn in Hf; lia|].
    cbn [typed attempt_cells attempt_events mbind list_bind app length].
    rewrite confirm_loop_match. do 2 f_equal. lia.
  - destruct fuel as [|fuel]; [cbn in Hf; lia|].
    apply Forall_cons in Hne as [Hab Hne]. cbn [fst snd] in Hab.
    cbn [typed attempt_cells attempt_events mbind list_bind app fst snd].
    rewrite confirm_loop_mismatch by done.
    fold (typed pairs) (attempt_cells pairs) (attempt_events pairs).
    rewrite IH by (done || cbn [length] in Hf; lia).
    rewrite !length_app. cbn [length]. f_equal.
    + f_equal. lia.
    + rewrite <- !app_assoc. reflexivity.
Qed.

Lemma length_typed pairs : length (typed pairs) = 2 * length pairs.
Proof.
  induction pairs as [|ab pairs IH]; [done|].
  change (typed (ab :: pairs)) with (Some ab.1 :: Some ab.2 :: typed pairs).
  cbn [length]. rewrite IH. lia.
Qed.

(** A successful [Seal], with the envelope spelled out. *)
Lemma Seal_success pass message h g N cs bs1 g1 bs2 g2 :
  seal_length_law → valid h pass → valid h message →
  entropy g saltSize = (bs1, true, g1) →
  entropy g1 nonceSize = (bs2, true, g2) →
  ∃ env t cs',
    Seal pass message (State h g N cs)
    = Returns (env, None) (State (h ++ t) g2 N (cs ++ cs'))
    ∧ valid (h ++ t) env
    ∧ read (h ++ t) env
      = sealed (read h pass) (read h message) (filled saltSize bs1)
               (filled nonceSize bs2) N.
Proof.
  intros Hlen Hp Hm E1 E2.
  pose proof (Seal_eq pass message h g N cs _ _ _ _ _ Hlen Hp Hm E1 E2) as HS.
  cbv zeta in HS.
  assert (Hbl := Hlen (read h message) (filled nonceSize bs2)
                   (derived (read h pass) (filled saltSize bs1) N)
                   (length_filled _ _) (length_derived _ _ _)).
  eexists _, _, _. split; [exact HS|]. split.
  - eapply (valid_at _ _ (h ++ _ :: _ :: scrypt_cells _ _ _ ++ [_; _; _]));
      [heap_eq | loc_eq | done |].
    cbn [bytes]. rewrite !length_app, !length_filled. lia.
  - erewrite (read_at _ _ (h ++ _ :: _ :: scrypt_cells _ _ _ ++ [_; _; _]));
      [|heap_eq|loc_eq].
    cbn [bytes]. rewrite drop_0, take_ge; [done|].
    rewrite !length_app, !length_filled. lia.
Qed.

Lemma set_cost f h g N cs t ev :
  (if flag_l f then lift (set_Iterations IterationsLow) else mret ())
    (Process (State h g N cs) t ev)
  = Next () (Process (State h g (cost f N) cs) t ev).
Proof. unfold cost. by destruct (flag_l f). Qed.

Lemma dieIf_None p : dieIf None p = Next () p.
Proof. reflexivity. Qed.

Lemma dieIf_Some e s t ev :
  dieIf (Some e) (Process s t ev) = Stop (Exited 1) (Process s t (ev ++ [EvDie e])).
Proof. reflexivity. Qed.

Lemma host_WriteFile_eq path data s t ev :
  host_WriteFile path data (Process s t ev)
  = Next (if write_file path (read (heap s) data) then None else Some ErrExternal)
         (Process s t (ev ++ [EvWriteFile path (read (heap s) data)])).
Proof. reflexivity. Qed.

Lemma archive_UnpackFiles_eq data top unpack s t ev :
  archive_UnpackFiles data top unpack (Process s t ev)
  = Next (if unpack_files (read (heap s) data) top unpack
          then None else Some ErrExternal)
         (Process s t (ev ++ [EvUnpackFiles (read (heap s) data) top unpack])).
Proof. reflexivity. Qed.

Lemma archive_PackFiles_Some paths data h g N cs t ev :
  pack_files paths = Some data →
  archive_PackFiles paths (Process (State h g N cs) t ev)
  = Next (Slice (length h) 0 (length data) (length data), None)
         (Process (State (h ++ [Cell CallerOwned data]) g N cs) t
                  (ev ++ [EvPackFiles paths])).
Proof.
  intros E. unfold archive_PackFiles.
  erewrite run_bind_Next by apply emit_eq. by rewrite E.
Qed.

Lemma host_ReadFile_Some path data h g N cs t ev :
  read_file path = Some data →
  host_ReadFile path (Process (State h g N cs) t ev)
  = Next (Slice (length h) 0 (length data) (length data), None)
         (Process (State (h ++ [Cell CallerOwned data]) g N cs) t
                  (ev ++ [EvReadFile path])).
Proof.
  intros E. unfold host_ReadFile.
  erewrite run_bind_Next by apply emit_eq. by rewrite E.
Qed.

(** The end of a run: the last error checked, then the closing line. *)
Lemma main_finish f (ok : bool) s t ev :
  (_ ← dieIf (if ok then None else Some ErrExternal);
   if flag_q f then mret () else emit EvCompleted) (Process s t ev)
  = if ok then Next () (Process s t (ev ++ completed f))
    else Stop (Exited 1) (Process s t (ev ++ [EvDie ErrExternal])).
Proof.
  destruct ok; [|reflexivity].
  erewrite run_bind_Next by apply dieIf_None.
  unfold completed. destruct (flag_q f); [|reflexivity].
  by rewrite app_nil_r.
Qed.

(** A run that packs: the passphrase is confirmed, the files are packed,
    sealed and written. *)
Lemma length_attempt_cells pairs : length (attempt_cells pairs) = 2 * length pairs.
Proof.
  induction pairs as [|ab pairs IH]; [done|].
  change (attempt_cells (ab :: pairs))
    with (Cell CallerOwned ab.1 :: Cell CallerOwned ab.2 :: attempt_cells pairs).
  cbn [length]. lia.
Qed.

Lemma main_pack f args pairs pw rest h g N cs ev data bs1 g1 bs2 g2 :
  seal_length_law →
  flag_h f = false → args ≠ [] →
  flag_u f = false → flag_x f = false → flag_t f = false →
  Forall (λ ab, ab.1 ≠ ab.2) pairs →
  pack_files args = Some data →
  entropy g saltSize = (bs1, true, g1) →
  entropy g1 nonceSize = (bs2, true, g2) →
  let env := sealed pw data (filled saltSize bs1) (filled nonceSize bs2)
                    (cost f N) in
  let ev' := ev ++ attempt_events pairs
                ++ [EvPrompt "Archive password: "; EvPrompt "Confirm: "]
                ++ printed f "Packing files..." ++ [EvPackFiles args]
                ++ printed f "Encrypting archive..."
                ++ printed f "Writing file..."
                ++ [EvWriteFile (out_path f) env] in
  ∃ t cs',
    let s' := State (h ++ attempt_cells pairs
                       ++ [Cell CallerOwned pw;
                           Cell CallerOwned (replicate (length pw) zero)]
                       ++ t) g2 (cost f N) (cs ++ cs') in
    main f args
      (Process (State h g N cs) (typed pairs ++ Some pw :: Some pw :: rest) ev)
    = if write_file (out_path f) env
      then Next () (Process s' rest (ev' ++ completed f))
      else Stop (Exited 1) (Process s' rest (ev' ++ [EvDie ErrExternal])).
Proof.
  intros Hlen Hh Hargs Hu Hx Ht Hne Hpack E1 E2 env ev'.
  assert (Hvp : valid ((h ++ attempt_cells pairs ++
               [Cell CallerOwned pw;
                Cell CallerOwned (replicate (length pw) zero)])
               ++ [Cell CallerOwned data])
            (Slice (length h + 2 * length pairs) 0 (length pw) (length pw))).
  { eapply (valid_at _ _ (h ++ attempt_cells pairs));
      [heap_eq | | done | done].
    by rewrite length_app, length_attempt_cells. }
  destruct (Seal_success _ _ _ g (cost f N) cs _ _ _ _ Hlen Hvp
              (valid_fresh _ CallerOwned data) E1 E2)
    as (envs & t & cs' & HS & Hv & Hr).
  rewrite read_fresh in Hr.
  erewrite (read_at _ _ (h ++ attempt_cells pairs)) in Hr;
    [|heap_eq|by rewrite length_app, length_attempt_cells].
  cbn [bytes] in Hr. rewrite drop_0, take_ge in Hr by done. fold env in Hr.
  exists ([Cell CallerOwned data] ++ t), cs'. cbv zeta.
  unfold main. rewrite Hh, Hu, Hx, Ht. cbn [orb andb negb].
  rewrite bool_decide_false by (by destruct args).
  erewrite run_bind_Next by apply set_cost.
  erewrite run_bind_Next; last first.
  { unfold confirmed_passphrase. cbn [terminal].
    apply confirm_loop_first_match; [done|].
    rewrite length_app, length_typed. cbn [length]. lia. }
  unfold mbind at 1. unfold run_bind.
  erewrite run_bind_Next by apply print_eq.
  erewrite run_bind_Next by (by apply archive_PackFiles_Some).
  cbv beta iota.
  erewrite run_bind_Next by apply dieIf_None.
  erewrite run_bind_Next by apply print_eq.
  erewrite run_bind_Next by (apply lift_Returns; exact HS).
  cbv beta iota.
  erewrite run_bind_Next by apply dieIf_None.
  erewrite run_bind_Next by apply print_eq.
  erewrite run_bind_Next by apply host_WriteFile_eq.
  cbn [heap]. rewrite Hr.
  destruct (write_file (out_path f) env).
  - rewrite dieIf_None. unfold completed.
    destruct (flag_q f).
    + unfold mret, run_ret. rewrite app_nil_r. f_equal. f_equal.
      * f_equal. heap_eq.
      * unfold ev'. rewrite <- !app_assoc. reflexivity.
    + rewrite emit_eq. f_equal. f_equal.
      * f_equal. heap_eq.
      * unfold ev'. rewrite <- !app_assoc. reflexivity.
  - rewrite dieIf_Some. f_equal. f_equal.
    + f_equal. heap_eq.
    + unfold ev'. rewrite <- !app_assoc. reflexivity.
Qed.

(** A run that decrypts: one prompt, the file is read and opened, and what
    [Open] returned is unpacked, listed or written. *)
Lemma main_decode f path pw rest h g N cs ev data :
  flag_h f = false →
  flag_u f || flag_x f || flag_t f = true → flag_u f && flag_x f = false →
  read_file path = Some data →
  let pre := ev ++ [EvPrompt "Archive password: "]
                ++ printed f "Reading encrypted archive..."
                ++ [EvReadFile path]
                ++ printed f "Decrypting archive..." in
  ∃ t cs',
    let s' := State (h ++ [Cell CallerOwned pw; Cell CallerOwned data] ++ t)
                    g (cost f N) (cs ++ cs') in
    main f [path] (Process (State h g N cs) (Some pw :: rest) ev)
    = if decide (length data < overhead)
      then Stop (Exited 1) (Process s' rest (pre ++ [EvDie ErrDecrypt]))
      else
        match box_open (drop nonceSize (drop saltSize data))
                (take nonceSize (drop saltSize data))
                (derived pw (take saltSize data) (cost f N)) with
        | None => Stop (Exited 1) (Process s' rest (pre ++ [EvDie ErrDecrypt]))
        | Some p =>
          if delivered f p
          then Next () (Process s' rest (pre ++ delivers f p ++ completed f))
          else Stop (Exited 1)
                 (Process s' rest (pre ++ delivers f p ++ [EvDie ErrExternal]))
        end.
Proof.
  intros Hh Hmode Hux Hread pre.
  set (h2 := h ++ [Cell CallerOwned pw; Cell CallerOwned data]).
  assert (Hvp : valid h2 (Slice (length h) 0 (length pw) (length pw))).
  { eapply (valid_at _ _ h); [reflexivity | reflexivity | done | done]. }
  assert (Hvd : valid h2 (Slice (length (h ++ [Cell CallerOwned pw])) 0
                                (length data) (length data))).
  { eapply (valid_at _ _ (h ++ [_])); [unfold h2; heap_eq | reflexivity | done | done]. }
  assert (Hrp : read h2 (Slice (length h) 0 (length pw) (length pw)) = pw).
  { erewrite (read_at _ _ h); [|reflexivity|reflexivity].
    cbn [bytes]. by rewrite drop_0, take_ge. }
  assert (Hrd : read h2 (Slice (length (h ++ [Cell CallerOwned pw])) 0
                               (length data) (length data)) = data).
  { erewrite (read_at _ _ (h ++ [_])); [|unfold h2; heap_eq|reflexivity].
    cbn [bytes]. by rewrite drop_0, take_ge. }
  destruct (Open_returns _ _ h2 g (cost f N) cs Hvp Hvd)
    as (r & t & cs' & HO & _ & Hpost).
  cbn [len] in Hpost. rewrite Hrp, Hrd in Hpost.
  exists t, cs'. cbv zeta.
  replace (h ++ [Cell CallerOwned pw; Cell CallerOwned data] ++ t)
    with (h2 ++ t) by (unfold h2; heap_eq).
  unfold main. rewrite Hh, Hmode, Hux. cbn [orb negb].
  rewrite bool_decide_false by done.
  erewrite run_bind_Next by apply set_cost.
  erewrite run_bind_Next; last first.
  { erewrite run_bind_Next by apply prompt_Some. cbv beta iota.
    erewrite run_bind_Next by apply dieIf_None. reflexivity. }
  unfold mbind at 1. unfold run_bind.
  rewrite bool_decide_false by (cbn [length]; lia).
  erewrite run_bind_Next by reflexivity.
  erewrite run_bind_Next by apply print_eq.
  change (default "" (head [path])) with path.
  erewrite run_bind_Next by (by apply host_ReadFile_Some).
  cbv beta iota.
  erewrite run_bind_Next by apply dieIf_None.
  erewrite run_bind_Next by apply print_eq.
  rewrite <- (app_assoc h). cbn [app]. fold h2.
  erewrite run_bind_Next by (apply lift_Returns; exact HO).
  assert (Hpre : (((ev ++ [EvPrompt "Archive password: "])
                   ++ printed f "Reading encrypted archive...")
                  ++ [EvReadFile path])
                 ++ printed f "Decrypting archive..." = pre).
  { unfold pre. rewrite <- !app_assoc. reflexivity. }
  rewrite Hpre.
  destruct (decide (length data < overhead)) as [Hs|Hl].
  { destruct Hpost as (-> & _ & _). cbv beta iota.
    by erewrite run_bind_Stop by apply dieIf_Some. }
  cbv zeta in Hpost. destruct Hpost as [_ Hpost].
  destruct (box_open _ _ _) as [p|]; last first.
  { subst r. cbv beta iota. by erewrite run_bind_Stop by apply dieIf_Some. }
  destruct Hpost as (out & -> & _ & Hout). cbv beta iota.
  erewrite run_bind_Next by apply dieIf_None.
  unfold delivered, delivers.
  destruct (flag_u f) eqn:Hu; [|destruct (flag_t f) eqn:Ht].
  - erewrite run_bind_Next; last first.
    { erewrite run_bind_Next by apply print_eq. apply archive_UnpackFiles_eq. }
    cbn [heap]. rewrite Hout.
    destruct (unpack_files p (out_path f) true).
    + rewrite dieIf_None. unfold completed. destruct (flag_q f) eqn:Hq.
      * unfold mret, run_ret. rewrite ?app_nil_r, <- ?app_assoc. reflexivity.
      * rewrite emit_eq, <- ?app_assoc. reflexivity.
    + rewrite dieIf_Some, <- ?app_assoc. reflexivity.
  - erewrite run_bind_Next by apply archive_UnpackFiles_eq.
    cbn [heap]. rewrite Hout.
    destruct (unpack_files p (out_path f) false).
    + rewrite dieIf_None. unfold completed. destruct (flag_q f) eqn:Hq.
      * unfold mret, run_ret. rewrite ?app_nil_r, <- ?app_assoc. reflexivity.
      * rewrite emit_eq, <- ?app_assoc. reflexivity.
    + rewrite dieIf_Some, <- ?app_assoc. reflexivity.
  - erewrite run_bind_Next; last first.
    { erewrite run_bind_Next by apply print_eq. apply host_WriteFile_eq. }
    cbn [heap]. rewrite Hout.
    destruct (write_file (out_path f) p).
    + rewrite dieIf_None. unfold completed. destruct (flag_q f) eqn:Hq.
      * unfold mret, run_ret. rewrite ?app_nil_r, <- ?app_assoc. reflexivity.
      * rewrite emit_eq, <- ?app_assoc. reflexivity.
    + rewrite dieIf_Some, <- ?app_assoc. reflexivity.
Qed.

(** ** What every run of the command keeps to *)

Lemma ext_refl R p : ext R p p.
Proof. exists []. by rewrite app_nil_r. Qed.

Lemma ext_trans R p1 p2 p3 : ext R p1 p2 → ext R p2 p3 → ext R p1 p3.
Proof.
  intros (n1 & E1 & H1) (n2 & E2 & H2). exists (n1 ++ n2).
  rewrite E2, E1, app_assoc. split; [done|]. by apply Forall_app.
Qed.

Lemma ext_one R s t ev e : R e → ext R (Process s t ev) (Process s t (ev ++ [e])).
Proof. intros He. exists [e]. split; [done|]. by repeat constructor. Qed.

Lemma ok_ret R {A} (P : process → Prop) (a : A) (Q : A → process → Prop) :
  (∀ p, P p → Q a p) → ok R P (mret a) Q.
Proof. intros H p Hp. split; [auto | apply ext_refl]. Qed.

Lemma ok_bind R {A B} P (m : run A) Q1 (f : A → run B) Q :
  ok R P m Q1 → (∀ a, ok R (Q1 a) (f a) Q) → ok R P (m ≫= f) Q.
Proof.
  intros Hm Hf p Hp. specialize (Hm p Hp). unfold mbind, run_bind.
  destruct (m p) as [a p'|e p']; [|done].
  destruct Hm as [Hq He]. specialize (Hf a p' Hq).
  destruct (f a p') as [b p''|e p'']; destruct Hf as [? He'];
    (split; [done | by eapply ext_trans]).
Qed.

Lemma ok_weaken R {A} (P P' : process → Prop) (m : run A) (Q Q' : A → process → Prop) :
  ok R P' m Q' → (∀ p, P p → P' p) → (∀ a p, Q' a p → Q a p) → ok R P m Q.
Proof.
  intros Hm HP HQ p Hp. specialize (Hm p (HP p Hp)).
  destruct (m p); destruct Hm; auto.
Qed.

Lemma ok_emit R (P : state → Prop) e :
  R e → ok R (on_machine P) (emit e) (λ _, on_machine P).
Proof. intros He [s t ev] Hp. split; [done | by apply ext_one]. Qed.

Lemma ok_print R (P : state → Prop) f msg :
  (∀ e, writes e = false → R e) →
  ok R (on_machine P) (print f msg) (λ _, on_machine P).
Proof.
  intros HR. unfold print. destruct (flag_q f); [by apply ok_ret|].
  apply ok_emit. by apply HR.
Qed.

Lemma ok_skip R (P : process → Prop) : ok R P (mret ()) (λ _, P).
Proof. by apply ok_ret. Qed.

Lemma ok_exit R {A} P (Q : A → process → Prop) : ok R P (os_Exit 1) Q.
Proof. intros p _. split; [done | apply ext_refl]. Qed.

Lemma ok_dieIf R (P : state → Prop) err :
  (∀ e, writes e = false → R e) →
  ok R (on_machine P) (dieIf err) (λ _, on_machine (λ s, P s ∧ err = None)).
Proof.
  intros HR. destruct err as [e|]; [|by apply ok_ret].
  intros [s t ev] Hp. split; [done | by apply ext_one, HR].
Qed.

Lemma ok_lift R {A} (P : state → Prop) (m : go A) (Q : A → state → Prop) :
  (∀ s, P s → ∃ a s', m s = Returns a s' ∧ Q a s') →
  ok R (on_machine P) (lift m) (λ a, on_machine (Q a)).
Proof.
  intros Hm [s t ev] Hp. destruct (Hm s Hp) as (a & s' & E & Hq).
  rewrite (lift_Returns _ _ _ _ _ _ E). split; [done|].
  exists []. by rewrite app_nil_r.
Qed.

Lemma ok_prompt R (P : state → Prop) lbl :
  (∀ e, writes e = false → R e) →
  (∀ h g N cs c, P (State h g N cs) → P (State (h ++ [c]) g N cs)) →
  ok R (on_machine P) (PasswordPromptBytes lbl)
     (λ r, on_machine (λ s, P s ∧ (r.2 = None → valid (heap s) r.1))).
Proof.
  intros HR HP [[h g N cs] t ev] Hp.
  assert (ext R (Process (State h g N cs) t ev)
                (Process (State h g N cs) t (ev ++ [EvPrompt lbl]))) as He
    by (by apply ext_one, HR).
  destruct t as [|[line|] rest].
  - split; [|exact He]. split; [exact Hp | done].
  - rewrite prompt_Some. split; [|exact He].
    split; [by apply HP | intros _; apply valid_fresh].
  - split; [|exact He]. split; [exact Hp | done].
Qed.

Lemma ok_confirm_loop R :
  (∀ e, writes e = false → R e) →
  ∀ fuel p, length (terminal p) < fuel →
    match confirm_loop fuel p with
    | Next pass p' => valid (heap (machine p')) pass ∧ ext R p p'
    | Stop e p' => e = Exited 1 ∧ ext R p p'
    end.
Proof.
  intros HR. induction fuel as [|fuel IH]; intros [[h g N cs] t ev] Hf;
    cbn [terminal] in Hf; [lia|].
  assert (∀ new, Forall (λ e, writes e = false) new →
            ext R (Process (State h g N cs) t ev)
                  (Process (State h g N cs) t (ev ++ new))) as He.
  { intros new Hn. exists new. split; [done|].
    eapply Forall_impl; [exact Hn | exact HR]. }
  destruct t as [|[a|] [|[b|] rest]].
  - split; [done|]. exists [EvPrompt "Archive password: "; EvDie ErrExternal].
    cbn [events]. split; [by rewrite <- app_assoc|].
    repeat constructor; by apply HR.
  - split; [done|].
    exists [EvPrompt "Archive password: "; EvPrompt "Confirm: "; EvDie ErrExternal].
    cbn [events]. split; [by rewrite <- !app_assoc|].
    repeat constructor; by apply HR.
  - destruct (decide (a = b)) as [->|Hab].
    + rewrite confirm_loop_match. cbn [machine heap]. split.
      * eapply (valid_at _ _ h); [heap_eq | reflexivity | done | done].
      * exists [EvPrompt "Archive password: "; EvPrompt "Confirm: "].
        split; [done|]. repeat constructor; by apply HR.
    + rewrite confirm_loop_mismatch by done.
      match goal with |- context [confirm_loop fuel ?q] =>
        specialize (IH q); destruct (confirm_loop fuel q) as [pass p'|e p'] end;
        (destruct IH as [H1 H2]; [cbn [terminal length] in *; lia|]);
        (split; [exact H1|]);
        (eapply ext_trans; [|exact H2]);
        (exists [EvPrompt "Archive password: "; EvPrompt "Confirm: ";
                 EvPrintln "Passwords don't match."]);
        (split; [done|]); repeat constructor; by apply HR.
  - split; [done|].
    exists [EvPrompt "Archive password: "; EvPrompt "Confirm: "; EvDie ErrExternal].
    cbn [events]. split; [by rewrite <- !app_assoc|].
    repeat constructor; by apply HR.
  - split; [done|]. exists [EvPrompt "Archive password: "; EvDie ErrExternal].
    cbn [events]. split; [by rewrite <- app_assoc|].
    repeat constructor; by apply HR.
  - split; [done|]. exists [EvPrompt "Archive password: "; EvDie ErrExternal].
    cbn [events]. split; [by rewrite <- app_assoc|].
    repeat constructor; by apply HR.
  - split; [done|]. exists [EvPrompt "Archive password: "; EvDie ErrExternal].
    cbn [events]. split; [by rewrite <- app_assoc|].
    repeat constructor; by apply HR.
Qed.

Lemma ok_host_ReadFile R (P : state → Prop) path :
  (∀ e, writes e = false → R e) →
  (∀ h g N cs c, P (State h g N cs) → P (State (h ++ [c]) g N cs)) →
  ok R (on_machine P) (host_ReadFile path)
     (λ r, on_machine (λ s, P s ∧ (r.2 = None → valid (heap s) r.1))).
Proof.
  intros HR HP [[h g N cs] t ev] Hp. unfold host_ReadFile.
  erewrite run_bind_Next by apply emit_eq.
  assert (ext R (Process (State h g N cs) t ev)
                (Process (State h g N cs) t (ev ++ [EvReadFile path]))) as He
    by (by apply ext_one, HR).
  destruct (read_file path) as [data|].
  - split; [|exact He]. split; [by apply HP | intros _; apply valid_fresh].
  - split; [|exact He]. split; [exact Hp | done].
Qed.

Lemma ok_archive_PackFiles R (P : state → Prop) paths :
  (∀ e, writes e = false → R e) →
  (∀ h g N cs c, P (State h g N cs) → P (State (h ++ [c]) g N cs)) →
  ok R (on_machine P) (archive_PackFiles paths)
     (λ r, on_machine (λ s, P s ∧ (r.2 = None → valid (heap s) r.1))).
Proof.
  intros HR HP [[h g N cs] t ev] Hp. unfold archive_PackFiles.
  erewrite run_bind_Next by apply emit_eq.
  assert (ext R (Process (State h g N cs) t ev)
                (Process (State h g N cs) t (ev ++ [EvPackFiles paths]))) as He
    by (by apply ext_one, HR).
  destruct (pack_files paths) as [data|].
  - split; [|exact He]. split; [by apply HP | intros _; apply valid_fresh].
  - split; [|exact He]. split; [exact Hp | done].
Qed.

Lemma ok_host_WriteFile R (P : state → Prop) path data :
  (∀ d, R (EvWriteFile path d)) →
  ok R (on_machine P) (host_WriteFile path data) (λ _, on_machine P).
Proof.
  intros HR [s t ev] Hp. rewrite host_WriteFile_eq.
  split; [exact Hp | by apply ext_one].
Qed.

Lemma ok_archive_UnpackFiles R (P : state → Prop) data top unpack :
  (∀ d, R (EvUnpackFiles d top unpack)) →
  ok R (on_machine P) (archive_UnpackFiles data top unpack) (λ _, on_machine P).
Proof.
  intros HR [s t ev] Hp. rewrite archive_UnpackFiles_eq.
  split; [exact Hp | by apply ext_one].
Qed.

Lemma valid_grows pass h g N cs c :
  valid (heap (State h g N cs)) pass → valid (heap (State (h ++ [c]) g N cs)) pass.
Proof. cbn [heap]. apply valid_app. Qed.

(** Every run of [main] ends by going on or by [os.Exit(1)], and records
    only what its flags allow. *)
Lemma main_ok R f args :
  (∀ e, writes e = false → R e) →
  (flag_u f = true → ∀ d t, R (EvUnpackFiles d t true)) →
  (flag_u f = false → flag_t f = false → ∀ path d, R (EvWriteFile path d)) →
  (flag_u f || flag_x f || flag_t f = false → seal_length_law) →
  ok R (on_machine (λ _, True)) (main f args) (λ _, on_machine (λ _, True)).
Proof.
  intros HR HRu HRw Hlaw. unfold main.
  destruct (flag_h f || bool_decide (length args = 0)); [by apply ok_emit, HR|].
  eapply ok_bind.
  { destruct (flag_l f); [|apply ok_skip].
    apply (ok_lift R (λ _, True) _ (λ _ _, True)). intros s _. by eexists _, _. }
  intros ?. destruct (flag_u f && flag_x f).
  { eapply ok_bind; [by apply ok_emit, HR | intros ?; apply ok_exit]. }
  eapply (ok_bind _ _ _ (λ pass, on_machine (λ s, valid (heap s) pass))).
  { destruct (flag_u f || flag_x f || flag_t f); cbn [negb].
    - eapply ok_bind; [apply (ok_prompt R (λ _, True)); done|].
      intros [pass err]. eapply ok_bind; [by apply ok_dieIf|].
      intros ?. apply ok_ret. intros p [[_ Hv] ->]. by apply Hv.
    - intros p _. unfold confirmed_passphrase. apply ok_confirm_loop; [done | lia]. }
  intros pass. eapply (ok_bind _ _ _ (λ _, on_machine (λ _, True))); last first.
  { intros ?. destruct (flag_q f); [by apply ok_ret | by apply ok_emit, HR]. }
  destruct (flag_u f || flag_x f || flag_t f) eqn:Emode.
  - eapply ok_bind.
    { destruct (bool_decide (length args ≠ 1)); [|apply ok_skip].
      eapply ok_bind; [by apply ok_emit, HR | intros ?; apply ok_exit]. }
    intros ?. eapply ok_bind; [by apply ok_print|].
    intros ?. eapply ok_bind.
    { apply ok_host_ReadFile; [done|]. intros; by apply valid_grows. }
    intros [in_ err]. eapply ok_bind; [by apply ok_dieIf|].
    intros ?. eapply ok_bind; [by apply ok_print|].
    intros ?. eapply (ok_bind _ _ _ (λ _, on_machine (λ _, True))).
    { apply ok_lift. intros [h g N cs] [[Hp Hv] ->].
      destruct (Open_returns pass in_ h g N cs Hp (Hv eq_refl))
        as (r & t & cs' & E & _). by eexists _, _. }
    intros [out err']. eapply ok_bind; [by apply ok_dieIf|].
    intros ?. eapply (ok_bind _ _ _ (λ _, on_machine (λ _, True))); last first.
    { intros e. eapply ok_weaken;
        [by apply (ok_dieIf R (λ _, True)) | done | done]. }
    eapply (ok_weaken _ _ (on_machine (λ _, True))); [|done|intros x p Hp; exact Hp].
    destruct (flag_u f) eqn:Eu.
    + eapply ok_bind; [by apply (ok_print R (λ _, True))|]. intros ?.
      apply ok_archive_UnpackFiles. intros d. by apply HRu.
    + destruct (flag_t f) eqn:Et.
      * apply ok_archive_UnpackFiles. intros d. by apply HR.
      * eapply ok_bind; [by apply (ok_print R (λ _, True))|]. intros ?.
        apply ok_host_WriteFile. intros d. by apply HRw.
  - apply orb_false_iff in Emode as [[Eu Ex]%orb_false_iff Et].
    eapply ok_bind; [by apply ok_print|].
    intros ?. eapply ok_bind.
    { apply ok_archive_PackFiles; [done|]. intros; by apply valid_grows. }
    intros [fData err]. eapply ok_bind; [by apply ok_dieIf|].
    intros ?. eapply ok_bind; [by apply ok_print|].
    intros ?. eapply (ok_bind _ _ _ (λ _, on_machine (λ _, True))).
    { apply ok_lift. intros [h g N cs] [[Hp Hv] ->].
      destruct (Seal_returns pass fData h g N cs) as (r & t & g' & cs' & E & _);
        [by apply Hlaw | exact Hp | by apply Hv|].
      by eexists _, _. }
    intros [env err']. eapply ok_bind; [by apply ok_dieIf|].
    intros ?. eapply ok_bind; [by apply ok_print|].
    intros ?. eapply (ok_bind _ _ _ (λ _, on_machine (λ _, True))); last first.
    { intros e. eapply ok_weaken;
        [by apply (ok_dieIf R (λ _, True)) | done | done]. }
    eapply (ok_weaken _ _ (on_machine (λ _, True))); [|done|intros x p Hp; exact Hp].
    apply ok_host_WriteFile. intros d. by apply HRw.
Qed.

(** What is written by [Seal] is what [Open] takes apart. *)
Lemma sealed_opens pw data salt nonce N :
  seal_length_law → open_seal_law →
  length salt = saltSize → length nonce = nonceSize →
  let env := sealed pw data salt nonce N in
  length env = length data + overhead
  ∧ box_open (drop nonceSize (drop saltSize env))
             (take nonceSize (drop saltSize env))
             (derived pw (take saltSize env) N) = Some data.
Proof.
  intros Hlen Hopen Hs Hn. cbv zeta. unfold sealed. split.
  - rewrite !length_app, Hs, Hn, Hlen by (done || apply length_derived).
    unfold overhead. lia.
  - rewrite take_app_length', !drop_app_length', take_app_length' by done.
    apply Hopen; [done | apply length_derived].
Qed.

Lemma attempt_events_harmless pairs :
  Forall (λ e, writes e = false) (attempt_events pairs).
Proof.
  induction pairs as [|ab pairs IH]; [constructor|].
  change (attempt_events (ab :: pairs))
    with ([EvPrompt "Archive password: "; EvPrompt "Confirm: ";
           EvPrintln "Passwords don't match."] ++ attempt_events pairs).
  apply Forall_app. split; [by repeat constructor | exact IH].
Qed.

Lemma printed_harmless f msg : Forall (λ e, writes e = false) (printed f msg).
Proof. unfold printed. destruct (flag_q f); by repeat constructor. Qed.

Lemma completed_harmless f : Forall (λ e, writes e = false) (completed f).
Proof. unfold completed. destruct (flag_q f); by repeat constructor. Qed.

(** X11. The passphrase prompt of a packing run: after any number of
    attempts in which the two lines typed differ, the first passphrase
    typed twice is the one returned.  Its confirmation copy is erased; the
    lines of the failed attempts stay in memory as typed, and each failed
    attempt was answered by "Passwords don't match.". *)
Theorem confirmed_passphrase_first_match pairs pw rest s ev :
  Forall (λ ab, ab.1 ≠ ab.2) pairs →
  ∃ pass s',
    confirmed_passphrase
      (Process s (typed pairs ++ Some pw :: Some pw :: rest) ev)
    = Next pass
        (Process s' rest
           (ev ++ attempt_events pairs
               ++ [EvPrompt "Archive password: "; EvPrompt "Confirm: "]))
    ∧ valid (heap s') pass
    ∧ read (heap s') pass = pw
    ∧ heap s' = heap s ++ attempt_cells pairs
                  ++ [Cell CallerOwned pw;
                      Cell CallerOwned (replicate (length pw) zero)]
    ∧ random s' = random s ∧ Iterations s' = Iterations s
    ∧ calls s' = calls s.
Proof.
  intros Hne. destruct s as [h g N cs]. unfold confirmed_passphrase.
  cbn [terminal]. rewrite confirm_loop_first_match; [|done|]; last first.
  { rewrite length_app, length_typed. cbn [length]. lia. }
  eexists _, _. split; [reflexivity|]. cbn [heap random Iterations calls].
  assert (length (h ++ attempt_cells pairs) = length h + 2 * length pairs) as El.
  { rewrite length_app, length_attempt_cells. lia. }
  split; [|split; [|done]].
  - eapply (valid_at _ _ (h ++ attempt_cells pairs));
      [heap_eq | by rewrite El | done | done].
  - erewrite (read_at _ _ (h ++ attempt_cells pairs)); [|heap_eq|by rewrite El].
    cbn [bytes]. by rewrite drop_0, take_ge.
Qed.

(** X12. Packing, then unpacking.  A packing run whose files pack to [data]
    and whose random source supplies salt and nonce writes one file and
    changes nothing else; a later decoding run (unpack, extract or list) that
    reads that file, is given the same passphrase and runs at the same scrypt
    cost decrypts it and hands exactly [data] on, to the unpacker or to the
    output file. *)
Theorem pack_then_unpack f1 args pairs pw rest1 s1 ev1 data
    f2 path rest2 s2 ev2 :
  seal_length_law → open_seal_law →
  flag_h f1 = false → args ≠ [] →
  flag_u f1 = false → flag_x f1 = false → flag_t f1 = false →
  Forall (λ ab, ab.1 ≠ ab.2) pairs →
  pack_files args = Some data →
  let r1 := entropy (random s1) saltSize in
  let r2 := entropy r1.2 nonceSize in
  let env := sealed pw data (filled saltSize r1.1.1) (filled nonceSize r2.1.1)
               (cost f1 (Iterations s1)) in
  r1.1.2 = true → r2.1.2 = true →
  flag_h f2 = false →
  flag_u f2 || flag_x f2 || flag_t f2 = true →
  flag_u f2 && flag_x f2 = false →
  cost f2 (Iterations s2) = cost f1 (Iterations s1) →
  read_file path = Some env →
  length env = length data + overhead
  ∧ (∃ p1 before,
       main f1 args
         (Process s1 (typed pairs ++ Some pw :: Some pw :: rest1) ev1)
       = (if write_file (out_path f1) env
          then Next () p1 else Stop (Exited 1) p1)
       ∧ events p1
         = ev1 ++ before ++ EvWriteFile (out_path f1) env
             :: (if write_file (out_path f1) env
                 then completed f1 else [EvDie ErrExternal])
       ∧ Forall (λ e, writes e = false) before)
  ∧ (∃ p2 before,
       main f2 [path] (Process s2 (Some pw :: rest2) ev2)
       = (if delivered f2 data then Next () p2 else Stop (Exited 1) p2)
       ∧ events p2
         = ev2 ++ before ++ delivers f2 data
             ++ (if delivered f2 data
                 then completed f2 else [EvDie ErrExternal])
       ∧ Forall (λ e, writes e = false) before).
Proof.
  intros Hlen Hopen Hh Hargs Hu Hx Ht Hne Hpack. cbv zeta.
  destruct s1 as [h g N cs]. cbn [random Iterations].
  destruct (entropy g saltSize) as [[bs1 ok1] g1] eqn:Es. cbn [fst snd].
  destruct (entropy g1 nonceSize) as [[bs2 ok2] g2] eqn:En. cbn [fst snd].
  intros -> -> Hh2 Hmode Hux Hcost Hread.
  destruct (sealed_opens pw data (filled saltSize bs1) (filled nonceSize bs2)
              (cost f1 N) Hlen Hopen (length_filled _ _) (length_filled _ _))
    as [Hl Ho].
  split; [exact Hl|]. split.
  - destruct (main_pack f1 args pairs pw rest1 h g N cs ev1 data bs1 g1 bs2 g2
                Hlen Hh Hargs Hu Hx Ht Hne Hpack Es En) as (t & cs' & Hm).
    cbv zeta in Hm. rewrite Hm.
    destruct (write_file _ _).
    all: eexists _, (attempt_events pairs
                  ++ [EvPrompt "Archive password: "; EvPrompt "Confirm: "]
                  ++ printed f1 "Packing files..." ++ [EvPackFiles args]
                  ++ printed f1 "Encrypting archive..."
                  ++ printed f1 "Writing file...").
    all: split; [reflexivity|split].
    all: try (cbn [events]; rewrite <- ?app_assoc; cbn [app]; reflexivity).
    all: repeat (apply Forall_app; split);
        try apply printed_harmless; try apply attempt_events_harmless;
        by repeat constructor.
  - destruct s2 as [h2 g' N2 cs2]. cbn [Iterations] in Hcost.
    destruct (main_decode f2 path pw rest2 h2 g' N2 cs2 ev2 _
                Hh2 Hmode Hux Hread) as (t & cs' & Hm).
    cbv zeta in Hm. rewrite Hm, decide_False by lia. rewrite Hcost, Ho.
    destruct (delivered f2 data).
    all: eexists _, ([EvPrompt "Archive password: "]
                  ++ printed f2 "Reading encrypted archive..."
                  ++ [EvReadFile path] ++ printed f2 "Decrypting archive...").
    all: split; [reflexivity|split].
    all: try (cbn [events]; rewrite <- ?app_assoc; cbn [app]; reflexivity).
    all: repeat (apply Forall_app; split);
        try apply printed_harmless; by repeat constructor.
Qed.

(** X13. A decoding run whose input does not decrypt (it is shorter than
    the 72 bytes of salt, nonce and authenticator, or secretbox rejects its
    box under the key derived from the passphrase typed) reports ErrDecrypt
    and exits with status 1: nothing is unpacked, listed or written, and the
    passphrase typed is still in memory when the process exits. *)
Theorem main_decrypt_failure f path pw rest s ev data :
  flag_h f = false →
  flag_u f || flag_x f || flag_t f = true →
  flag_u f && flag_x f = false →
  read_file path = Some data →
  length data < overhead
  ∨ box_open (drop nonceSize (drop saltSize data))
             (take nonceSize (drop saltSize data))
             (derived pw (take saltSize data) (cost f (Iterations s))) = None →
  ∃ s',
    main f [path] (Process s (Some pw :: rest) ev)
    = Stop (Exited 1)
        (Process s' rest
           (ev ++ [EvPrompt "Archive password: "]
               ++ printed f "Reading encrypted archive..."
               ++ [EvReadFile path]
               ++ printed f "Decrypting archive..."
               ++ [EvDie ErrDecrypt]))
    ∧ heap s' !! length (heap s) = Some (Cell CallerOwned pw).
Proof.
  intros Hh Hmode Hux Hread Hfail. destruct s as [h g N cs].
  cbn [Iterations heap] in *.
  destruct (main_decode f path pw rest h g N cs ev data Hh Hmode Hux Hread)
    as (t & cs' & Hm).
  cbv zeta in Hm. eexists. split.
  - rewrite Hm. destruct (decide (length data < overhead)) as [Hs|Hl].
    + rewrite <- ?app_assoc. reflexivity.
    + destruct Hfail as [?|Hb]; [lia|]. rewrite Hb.
      rewrite <- ?app_assoc. reflexivity.
  - cbn [heap]. rewrite lookup_app_r by lia.
    by replace (length h - length h) with 0 by lia.
Qed.

(** X14. No run of the command crashes: whatever the flags, the arguments,
    the lines typed (or not typed) at the prompts, the files and the random
    source, [main] either returns or ends in [os.Exit(1)]; no slice is
    indexed out of range and the prompt loop ends. *)
Theorem main_never_crashes f args p :
  seal_length_law →
  ∃ p', main f args p = Next () p' ∨ main f args p = Stop (Exited 1) p'.
Proof.
  intros Hlen.
  pose proof (main_ok (λ _, True) f args) as H.
  specialize (H (λ _ _, Logic.I) (λ _ _ _, Logic.I) (λ _ _ _ _, Logic.I)
                (λ _, Hlen) p Logic.I).
  destruct (main f args p) as [[] p'|e p'].
  - exists p'. by left.
  - destruct H as [-> _]. exists p'. by right.
Qed.

(** X15. Listing changes nothing: with -t and without -u no run of the
    command writes a file or unpacks an archive, however it ends (and -x is
    then ignored). *)
Theorem list_mode_never_writes f args p :
  flag_t f = true → flag_u f = false →
  ∃ p' new,
    (main f args p = Next () p' ∨ main f args p = Stop (Exited 1) p')
    ∧ events p' = events p ++ new
    ∧ Forall (λ e, writes e = false) new.
Proof.
  intros Ht Hu.
  pose proof (main_ok (λ e, writes e = false) f args) as H.
  specialize (H (λ _ E, E)).
  destruct (main f args p) as [[] p'|e p'] eqn:E.
  all: specialize (H ltac:(congruence) ltac:(congruence)).
  all: specialize (H ltac:(rewrite Ht, orb_true_r; discriminate) p Logic.I).
  all: rewrite E in H.
  - destruct H as [_ (new & E1 & E2)]. exists p', new. auto.
  - destruct H as [-> (new & E1 & E2)]. exists p', new. auto.
Qed.

Lemma Seal_failure pass message h g N cs :
  seal_length_law → valid h pass → valid h message →
  (entropy g saltSize).1.2 = false
  ∨ (entropy (entropy g saltSize).2 nonceSize).1.2 = false →
  ∃ t g' cs',
    Seal pass message (State h g N cs)
    = Returns (nil_slice, Some ErrEncrypt) (State (h ++ t) g' N (cs ++ cs')).
Proof.
  intros Hlen Hp Hm Hfail.
  destruct (entropy g saltSize) as [[bs1 ok1] g1] eqn:E1. cbn [fst snd] in Hfail.
  destruct ok1; last first.
  { eexists _, _, _. by apply (Seal_salt_failure _ _ _ _ _ _ _ _ E1). }
  destruct Hfail as [?|Hfail]; [done|].
  destruct (entropy g1 nonceSize) as [[bs2 ok2] g2] eqn:E2. cbn [fst snd] in Hfail.
  subst ok2.
  pose proof (Seal_eq pass message h g N cs _ _ _ _ _ Hlen Hp Hm E1 E2) as HS.
  cbv zeta in HS. eexists _, _, _. exact HS.
Qed.

(** X18. A packing run that cannot get the random bytes of the salt or of
    the nonce stops at "Encrypting archive...": it reports ErrEncrypt and
    exits with status 1, and no file is written. *)
Theorem main_pack_without_entropy f args pairs pw rest s ev data :
  seal_length_law →
  flag_h f = false → args ≠ [] →
  flag_u f = false → flag_x f = false → flag_t f = false →
  Forall (λ ab, ab.1 ≠ ab.2) pairs →
  pack_files args = Some data →
  (entropy (random s) saltSize).1.2 = false
  ∨ (entropy (entropy (random s) saltSize).2 nonceSize).1.2 = false →
  ∃ s',
    main f args
      (Process s (typed pairs ++ Some pw :: Some pw :: rest) ev)
    = Stop (Exited 1)
        (Process s' rest
           (ev ++ attempt_events pairs
               ++ [EvPrompt "Archive password: "; EvPrompt "Confirm: "]
               ++ printed f "Packing files..." ++ [EvPackFiles args]
               ++ printed f "Encrypting archive..."
               ++ [EvDie ErrEncrypt])).
Proof.
  intros Hlen Hh Hargs Hu Hx Ht Hne Hpack Hfail.
  destruct s as [h g N cs]. cbn [random] in Hfail.
  assert (Hvp : valid ((h ++ attempt_cells pairs ++
               [Cell CallerOwned pw;
                Cell CallerOwned (replicate (length pw) zero)])
               ++ [Cell CallerOwned data])
            (Slice (length h + 2 * length pairs) 0 (length pw) (length pw))).
  { eapply (valid_at _ _ (h ++ attempt_cells pairs));
      [heap_eq | | done | done].
    by rewrite length_app, length_attempt_cells. }
  destruct (Seal_failure _ _ _ g (cost f N) cs Hlen Hvp
              (valid_fresh _ CallerOwned data) Hfail)
    as (t & g' & cs' & HS).
  eexists. unfold main. rewrite Hh, Hu, Hx, Ht. cbn [orb andb negb].
  rewrite bool_decide_false by (by destruct args).
  erewrite run_bind_Next by apply set_cost.
  erewrite run_bind_Next; last first.
  { unfold confirmed_passphrase. cbn [terminal].
    apply confirm_loop_first_match; [done|].
    rewrite length_app, length_typed. cbn [length]. lia. }
  unfold mbind at 1. unfold run_bind.
  erewrite run_bind_Next by apply print_eq.
  erewrite run_bind_Next by (by apply archive_PackFiles_Some).
  cbv beta iota.
  erewrite run_bind_Next by apply dieIf_None.
  erewrite run_bind_Next by apply print_eq.
  erewrite run_bind_Next by (apply lift_Returns; exact HS).
  cbv beta iota.
  erewrite run_bind_Stop by apply dieIf_Some.
  rewrite <- !app_assoc. reflexivity.
Qed.

(** X19. The number of arguments of a decoding run is checked after the
    passphrase has been asked for: with more than one argument the run
    takes the passphrase, then reports that only one file may be unpacked
    and exits with status 1, without having read any file. *)
Theorem main_decode_argument_count f args pw rest s ev :
  flag_h f = false →
  flag_u f || flag_x f || flag_t f = true →
  flag_u f && flag_x f = false →
  1 < length args →
  ∃ s',
    main f args (Process s (Some pw :: rest) ev)
    = Stop (Exited 1)
        (Process s' rest
           (ev ++ [EvPrompt "Archive password: ";
                   EvDieWith "only one file may unpacked at a time."]))
    ∧ heap s' = heap s ++ [Cell CallerOwned pw].
Proof.
  intros Hh Hmode Hux Hargs. destruct s as [h g N cs].
  eexists. unfold main. rewrite Hh, Hmode, Hux. cbn [orb negb].
  rewrite bool_decide_false by lia.
  erewrite run_bind_Next by apply set_cost.
  erewrite run_bind_Next; last first.
  { erewrite run_bind_Next by apply prompt_Some. cbv beta iota.
    erewrite run_bind_Next by apply dieIf_None. reflexivity. }
  unfold mbind at 1. unfold run_bind.
  rewrite bool_decide_true by lia.
  split.
  - unfold dieWith. unfold mbind at 1. unfold run_bind.
    unfold mbind at 1. unfold run_bind. rewrite emit_eq.
    rewrite <- !app_assoc. reflexivity.
  - reflexivity.
Qed.

(** X20. When the passphrase cannot be read (nothing is left to read at
    the terminal), a run in any mode exits with status 1 right after the
    prompt: no file is read, packed, decrypted or written, and the machine
    of the crypto package is as [-l] left it. *)
Theorem main_without_passphrase f args s ev :
  flag_h f = false → args ≠ [] →
  flag_u f && flag_x f = false →
  main f args (Process s [] ev)
  = Stop (Exited 1)
      (Process (State (heap s) (random s) (cost f (Iterations s)) (calls s)) []
         (ev ++ [EvPrompt "Archive password: "; EvDie ErrExternal])).
Proof.
  intros Hh Hargs Hux. destruct s as [h g N cs].
  cbn [heap random Iterations calls].
  unfold main. rewrite Hh, Hux. cbn [orb].
  rewrite bool_decide_false by (by destruct args).
  erewrite run_bind_Next by apply set_cost.
  apply run_bind_Stop.
  destruct (flag_u f || flag_x f || flag_t f); cbn [negb].
  - erewrite run_bind_Next by reflexivity. cbv beta iota.
    erewrite run_bind_Stop by apply dieIf_Some.
    rewrite <- !app_assoc. reflexivity.
  - unfold confirmed_passphrase. cbn [terminal length confirm_loop].
    erewrite run_bind_Next by reflexivity. cbv beta iota.
    erewrite run_bind_Stop by apply dieIf_Some.
    rewrite <- !app_assoc. reflexivity.
Qed.

End CommandRuns.

(** * Properties of archive.go *)

Section Unpacking.
Context {F : Files}.

(** Members that are only named, or not written at all, leave the disk as
    it is. *)
Lemma UnpackFiles_loop_skips Verbose top unpack r hdrs eof :
  yields r hdrs eof →
  (unpack = true → Forall (λ hdr, supported hdr = false) hdrs) →
  ∀ fuel d out, length hdrs < fuel →
    ∃ r',
      UnpackFiles_loop fuel Verbose top unpack (World r d out)
      = Some (if eof then None else Some ErrExternal,
              World r' d
                (out ++ if Verbose || negb unpack then Name <$> hdrs else [])).
Proof.
  induction 1 as [r r' E|r r' E|r hdr r' hdrs eof E _ IH];
    intros Hskip fuel d out Hf;
    (destruct fuel as [|fuel]; [cbn [length] in Hf; lia|]);
    cbn [UnpackFiles_loop tr files stdout]; rewrite E.
  - exists r'. destruct (Verbose || negb unpack); by rewrite app_nil_r.
  - exists r'. destruct (Verbose || negb unpack); by rewrite app_nil_r.
  - assert (Hf' : length hdrs < fuel) by (cbn [length] in Hf; lia).
    assert (Hskip' : unpack = true → Forall (λ hdr, supported hdr = false) hdrs).
    { intros Hu. specialize (Hskip Hu). by apply Forall_cons in Hskip as [_ ?]. }
    destruct unpack; cbn [negb].
    + specialize (Hskip eq_refl). apply Forall_cons in Hskip as [Hh _].
      unfold supported in Hh. apply bool_decide_eq_false in Hh.
      rewrite decide_False by tauto. rewrite decide_False by tauto.
      rewrite orb_false_r.
      destruct (IH Hskip' fuel d (if Verbose then out ++ [Name hdr] else out) Hf')
        as [r'' Hr].
      exists r''. rewrite Hr. rewrite orb_false_r.
      destruct Verbose; [|done]. by rewrite <- app_assoc.
    + rewrite orb_true_r.
      destruct (IH Hskip' fuel d (out ++ [Name hdr]) Hf') as [r'' Hr].
      exists r''. rewrite Hr, orb_true_r. by rewrite <- app_assoc.
Qed.

Lemma UnpackFiles_loop_list_disk Verbose top :
  ∀ fuel w err w',
    UnpackFiles_loop fuel Verbose top false w = Some (err, w') →
    files w' = files w.
Proof.
  induction fuel as [|fuel IH]; intros w err w' H; [done|].
  cbn [UnpackFiles_loop negb] in H.
  destruct (tr_Next (tr w)) as [[hdr| |] r].
  - apply IH in H. exact H.
  - by injection H as <- <-.
  - by injection H as <- <-.
Qed.

(** X16. Listing an archive ([unpack] false) does not touch the disk,
    whatever the input and however the run ends; and when the tar reader
    yields the headers [hdrs] and then ends, [UnpackFiles] returns, having
    printed exactly their names, in order, with the error nil when the
    stream ended in [io.EOF] and non-nil otherwise. *)
Theorem UnpackFiles_list Verbose in_ top d out r hdrs eof fuel :
  gzip_NewReader in_ = Some r →
  yields r hdrs eof →
  length hdrs < fuel →
  UnpackFiles fuel Verbose in_ top false d out
  = Some (if eof then None else Some ErrExternal, d, out ++ (Name <$> hdrs))
  ∧ ∀ in' fuel' err d' out',
      UnpackFiles fuel' Verbose in' top false d out = Some (err, d', out') →
      d' = d.
Proof.
  intros Hr Hy Hf. split.
  - unfold UnpackFiles. rewrite Hr.
    destruct (UnpackFiles_loop_skips Verbose top false r hdrs eof Hy
                ltac:(discriminate) fuel d out Hf) as [r' E].
    rewrite E. cbn [mbind option_bind files stdout]. by rewrite orb_true_r.
  - intros in' fuel' err d' out' H. unfold UnpackFiles in H.
    destruct (gzip_NewReader in') as [r0|]; [|by injection H as _ <- _].
    destruct (UnpackFiles_loop fuel' Verbose top false (World r0 d out))
      as [[e w]|] eqn:E; [|done].
    cbn [mbind option_bind] in H. injection H as _ <- _.
    by apply UnpackFiles_loop_list_disk in E.
Qed.

(** X17. Unpacking writes regular files and directories only: an archive
    whose members are all of other types (symbolic links, devices, pipes)
    unpacks to nothing.  [UnpackFiles] returns nil at the end of the stream,
    the disk is as before, and the members are named only when [Verbose] is
    set. *)
Theorem UnpackFiles_skips_other_types Verbose in_ top d out r hdrs eof fuel :
  gzip_NewReader in_ = Some r →
  yields r hdrs eof →
  Forall (λ hdr, supported hdr = false) hdrs →
  length hdrs < fuel →
  UnpackFiles fuel Verbose in_ top true d out
  = Some (if eof then None else Some ErrExternal, d,
          out ++ if Verbose then Name <$> hdrs else []).
Proof.
  intros Hr Hy Hs Hf. unfold UnpackFiles. rewrite Hr.
  destruct (UnpackFiles_loop_skips Verbose top true r hdrs eof Hy
              (λ _, Hs) fuel d out Hf) as [r' E].
  rewrite E. cbn [mbind option_bind files stdout negb].
  by rewrite orb_false_r.
Qed.

End Unpacking.

(** * The further properties on concrete runs *)

(** Witness of X1. *)
Lemma encrypt_decrypt_roundtrip_witness :
  ∃ out s1 pt s2,
    encrypt (I := Toy.imports) Toy.K Toy.M Toy.s0 = Returns (out, None) s1
    ∧ decrypt Toy.K out s1 = Returns (pt, None) s2
    ∧ read (heap s2) pt = Toy.msg.
Proof.
  destruct Toy_encrypt_K_M as (out & s1 & E).
  destruct (encrypt_decrypt_roundtrip Toy_seal_length Toy_open_seal
              Toy.K Toy.M Toy.s0 out s1) as (pt & s2 & HD & HR & _);
    [toy_valid | toy_valid | exact E |].
  exists out, s1, pt, s2. split; [exact E|]. split; [exact HD|].
  rewrite HR. reflexivity.
Defined.

(** Witness of X2: a two-byte input. *)
Lemma decrypt_fails_iff_witness :
  ∃ r s', decrypt (I := Toy.imports) Toy.K Toy.M Toy.s0 = Returns r s'
          ∧ s' = Toy.s0 ∧ r = (nil_slice, Some ErrDecrypt).
Proof.
  destruct (decrypt_fails_iff Toy.K Toy.M Toy.s0)
    as (r & s' & t & HD & _ & Hs & He & Hiff); [toy_valid | toy_valid |].
  exists r, s'. split; [exact HD|]. split.
  - apply Hs. vm_compute. lia.
  - apply He, Hiff. left. vm_compute. lia.
Defined.

(** Witness of X3: the random source has the 24 bytes of the nonce. *)
Lemma encrypt_fails_iff_witness :
  ∃ r s', encrypt (I := Toy.imports) Toy.K Toy.M Toy.s0 = Returns r s'
          ∧ r.2 = None
          ∧ read (heap s') (array_slice Toy.K keySize) = Toy.key.
Proof.
  destruct (encrypt_fails_iff Toy_seal_length Toy.K Toy.M Toy.s0)
    as (r & s' & HE & Hiff & _ & Hk); [toy_valid | toy_valid |].
  exists r, s'. split; [exact HE|]. split.
  - destruct (r.2) as [e|]; [|reflexivity].
    assert (H : Some e ≠ None) by discriminate.
    apply Hiff in H. vm_compute in H. discriminate H.
  - rewrite Hk. reflexivity.
Defined.

(** Witness of X4: with two random bytes left not even the salt is
    delivered. *)
Lemma Seal_fails_iff_witness :
  let s := Toy.start [Toy.pw_a; Toy.msg] Toy.msg IterationsHigh in
  ∃ s', Seal (I := Toy.imports) Toy.Pa Toy.M s
        = Returns (nil_slice, Some ErrEncrypt) s'
        ∧ calls s' = [CallRand saltSize].
Proof.
  cbv zeta.
  destruct (Seal_fails_iff Toy_seal_length Toy.Pa Toy.M
              (Toy.start [Toy.pw_a; Toy.msg] Toy.msg IterationsHigh))
    as (r & s' & HS & Hiff & He & Hc); [toy_valid | toy_valid |].
  assert (Hr : r = (nil_slice, Some ErrEncrypt)).
  { apply He, Hiff. left. reflexivity. }
  exists s'. rewrite <- Hr. split; [exact HS|]. apply Hc. reflexivity.
Defined.

(** Witness of X5. *)
Lemma Seal_layout_witness :
  ∃ env s1,
    Seal (I := Toy.imports) Toy.Pa Toy.M Toy.s0 = Returns (env, None) s1
    ∧ take 56 (read (heap s1) env) = Toy.src
    ∧ random s1 = [].
Proof.
  destruct Toy_Seal_Pa_M as (env & s1 & E).
  destruct (Seal_layout Toy_seal_length Toy.Pa Toy.M Toy.s0 env s1)
    as (Hr & _ & _ & Hg & _); [toy_valid | toy_valid | exact E |].
  exists env, s1. split; [exact E|]. split.
  - rewrite Hr. reflexivity.
  - rewrite Hg. reflexivity.
Defined.

Lemma Toy_Seal_s3 :
  ∃ env s1, Seal (I := Toy.imports) (Toy.whole 0 Toy.pw_a) (Toy.whole 1 Toy.msg)
              Desk.s3 = Returns (env, None) s1.
Proof. vm_compute. eexists _, _. reflexivity. Qed.

(** Witness of X6: with [Iterations] set to 3 the envelope sealed under "a"
    opens under "b". *)
Lemma rejected_cost_gives_zero_key_witness :
  ∃ env s1 out s2,
    Seal (I := Toy.imports) (Toy.whole 0 Toy.pw_a) (Toy.whole 1 Toy.msg) Desk.s3
    = Returns (env, None) s1
    ∧ Open (Toy.whole 2 Toy.pw_b) env s1 = Returns (out, None) s2
    ∧ read (heap s2) out = Toy.msg.
Proof.
  destruct Toy_Seal_s3 as (env & s1 & E).
  destruct (rejected_cost_gives_zero_key Toy_seal_length Toy_open_seal
              (Toy.whole 0 Toy.pw_a) (Toy.whole 2 Toy.pw_b)
              (Toy.whole 3 Toy.key) (Toy.whole 1 Toy.msg) Desk.s3)
    as [_ H]; [intros pw sa; reflexivity
              | toy_valid | toy_valid | toy_valid | toy_valid |].
  destruct (H env s1 E) as (out & s2 & HO & HR).
  exists env, s1, out, s2. split; [exact E|]. split; [exact HO|].
  rewrite HR. reflexivity.
Defined.

(** Witness of X7: erasing the message of [Toy.s0]. *)
Lemma Zero_frame_witness :
  ∃ s', Zero (I := Toy.imports) Toy.M Toy.s0 = Returns () s'
        ∧ length (heap s') = 6
        ∧ ∃ c', heap s' !! 0 = Some c' ∧ bytes c' !! 0 = Some "a"%byte.
Proof.
  destruct (Zero_frame Toy.M Toy.s0) as (s' & HZ & _ & _ & _ & Hl & Hf);
    [toy_valid|].
  exists s'. split; [exact HZ|]. split; [rewrite Hl; reflexivity|].
  destruct (Hf 0 (Cell CallerOwned Toy.pw_a) eq_refl) as (c' & Hc & _ & _ & Hb).
  exists c'. split; [exact Hc|]. rewrite (Hb 0); [reflexivity|].
  left. vm_compute. lia.
Defined.

(** Witness of X8: an 80-byte input. *)
Lemma Open_calls_witness :
  ∃ r s', Open (I := Toy.imports) Toy.Pa' Toy.Long Toy.s1 = Returns r s'
          ∧ calls s' = [CallScrypt Toy.pw_a (replicate 32 "e"%byte) IterationsHigh;
                        CallSecretboxOpen].
Proof.
  destruct (Open_calls Toy.Pa' Toy.Long Toy.s1) as (r & s' & HO & _ & _ & Hc);
    [toy_valid | toy_valid |].
  exists r, s'. split; [exact HO|]. rewrite Hc; [reflexivity|].
  vm_compute. lia.
Defined.

(** Witness of X9. *)
Lemma results_are_fresh_witness :
  ∃ env s1,
    Seal (I := Toy.imports) Toy.Pa Toy.M Toy.s0 = Returns (env, None) s1
    ∧ 6 ≤ base env.
Proof.
  destruct Toy_Seal_Pa_M as (env & s1 & E).
  destruct (results_are_fresh Toy_seal_length Toy.Pa Toy.M Toy.s0) as [HS _];
    [toy_valid | toy_valid |].
  exists env, s1. split; [exact E|]. exact (HS env s1 E).
Defined.

(** Witness of X11: "b" and "a" at the first attempt, then "a" twice. *)
Lemma confirmed_passphrase_first_match_witness :
  ∃ pass s',
    confirmed_passphrase (I := Toy.imports) Desk.packing
    = Next pass
        (Process s' []
           [EvPrompt "Archive password: "; EvPrompt "Confirm: ";
            EvPrintln "Passwords don't match.";
            EvPrompt "Archive password: "; EvPrompt "Confirm: "])
    ∧ read (heap s') pass = Toy.pw_a
    ∧ drop 6 (heap s')
      = [Cell CallerOwned Toy.pw_b; Cell CallerOwned Toy.pw_a;
         Cell CallerOwned Toy.pw_a; Cell CallerOwned [zero]].
Proof.
  destruct (confirmed_passphrase_first_match (I := Toy.imports)
              [(Toy.pw_b, Toy.pw_a)] Toy.pw_a [] Toy.s0 [])
    as (pass & s' & HC & _ & HR & Hh & _).
  { repeat constructor. vm_compute. discriminate. }
  exists pass, s'. split; [exact HC|]. split; [exact HR|].
  rewrite Hh. reflexivity.
Defined.

(** Witness of X12: packing under "a" after one failed attempt, then
    unpacking the file written. *)
Lemma pack_then_unpack_witness :
  ∃ p1 p2,
    main (I := Toy.imports) (W := Desk.host) Desk.no_flags ["docs"]
      Desk.packing = Next () p1
    ∧ EvWriteFile "files.enc" Desk.envelope ∈ events p1
    ∧ main (I := Toy.imports) (W := Desk.host) Desk.flags_u ["files.enc"]
        Desk.decoding = Next () p2
    ∧ EvUnpackFiles Desk.tgz "." true ∈ events p2.
Proof.
  destruct (pack_then_unpack (I := Toy.imports) (W := Desk.host)
              Desk.no_flags ["docs"] [(Toy.pw_b, Toy.pw_a)] Toy.pw_a []
              Toy.s0 [] Desk.tgz Desk.flags_u "files.enc" [] Toy.s1 []
              Toy_seal_length Toy_open_seal eq_refl)
    as (_ & (p1 & b1 & H1 & E1 & _) & (p2 & b2 & H2 & E2 & _)).
  - discriminate.
  - reflexivity.
  - reflexivity.
  - reflexivity.
  - repeat constructor. vm_compute. discriminate.
  - reflexivity.
  - vm_compute. reflexivity.
  - vm_compute. reflexivity.
  - reflexivity.
  - reflexivity.
  - reflexivity.
  - reflexivity.
  - vm_compute. reflexivity.
  - exists p1, p2.
    change (write_file _ _) with true in H1, E1.
    change (delivered _ _) with true in H2, E2.
    cbv iota in H1, E1, H2, E2.
    split; [exact H1|]. split.
    { rewrite E1. apply elem_of_app. right. apply elem_of_app. right.
      replace Desk.envelope with
        (sealed (I := Toy.imports) Toy.pw_a Desk.tgz
           (filled saltSize (entropy (random Toy.s0) saltSize).1.1)
           (filled nonceSize
              (entropy (entropy (random Toy.s0) saltSize).2 nonceSize).1.1)
           (cost Desk.no_flags (Iterations Toy.s0)))
        by (vm_compute; reflexivity).
      apply list_elem_of_here. }
    split; [exact H2|].
    rewrite E2. apply elem_of_app. right. apply elem_of_app. right.
    apply elem_of_app. left. apply elem_of_app. right.
    apply list_elem_of_here.
Defined.

(** Witness of X13: a two-byte file. *)
Lemma main_decrypt_failure_witness :
  ∃ s',
    main (I := Toy.imports) (W := Desk.host) Desk.flags_u ["short.enc"]
      Desk.decoding
    = Stop (Exited 1)
        (Process s' []
           [EvPrompt "Archive password: ";
            EvPrint "Reading encrypted archive..."; EvReadFile "short.enc";
            EvPrint "Decrypting archive..."; EvDie ErrDecrypt])
    ∧ heap s' !! 3 = Some (Cell CallerOwned Toy.pw_a).
Proof.
  destruct (main_decrypt_failure (I := Toy.imports) (W := Desk.host)
              Desk.flags_u "short.enc" Toy.pw_a [] Toy.s1 [] Toy.msg
              eq_refl eq_refl eq_refl eq_refl) as (s' & Hm & Hp).
  - left. vm_compute. lia.
  - exists s'. split; [exact Hm | exact Hp].
Defined.

(** Witness of X14. *)
Lemma main_never_crashes_witness :
  ∃ p', main (I := Toy.imports) (W := Desk.host) Desk.no_flags ["docs"]
          Desk.packing = Next () p'
        ∨ main (I := Toy.imports) (W := Desk.host) Desk.no_flags ["docs"]
            Desk.packing = Stop (Exited 1) p'.
Proof.
  exact (main_never_crashes (I := Toy.imports) (W := Desk.host)
           Desk.no_flags ["docs"] Desk.packing Toy_seal_length).
Defined.

(** Witness of X15: listing the archive written by the packing run. *)
Lemma list_mode_never_writes_witness :
  ∃ p' new,
    (main (I := Toy.imports) (W := Desk.host) Desk.flags_t ["files.enc"]
       Desk.decoding = Next () p'
     ∨ main (I := Toy.imports) (W := Desk.host) Desk.flags_t ["files.enc"]
         Desk.decoding = Stop (Exited 1) p')
    ∧ events p' = new
    ∧ Forall (λ e, writes e = false) new.
Proof.
  exact (list_mode_never_writes (I := Toy.imports) (W := Desk.host)
           Desk.flags_t ["files.enc"] Desk.decoding eq_refl eq_refl).
Defined.

Lemma Desk_yields_members :
  yields (F := Desk.files) ([], Desk.members) (fst <$> Desk.members) true.
Proof.
  repeat (eapply yields_Hdr; [reflexivity|]). eapply yields_EOF. reflexivity.
Qed.

Lemma Desk_yields_links :
  yields (F := Desk.files) ([], Desk.links) (fst <$> Desk.links) true.
Proof.
  repeat (eapply yields_Hdr; [reflexivity|]). eapply yields_EOF. reflexivity.
Qed.

(** Witness of X16: listing an archive of a directory, a file and a
    symbolic link. *)
Lemma UnpackFiles_list_witness :
  UnpackFiles (F := Desk.files) 4 false Desk.tgz "out" false [] []
  = Some (None, [], ["docs"; "docs/a.txt"; "docs/link"]).
Proof.
  exact (proj1 (UnpackFiles_list (F := Desk.files) false Desk.tgz "out" [] []
                  ([], Desk.members) (fst <$> Desk.members) true 4
                  eq_refl Desk_yields_members ltac:(vm_compute; lia))).
Defined.

(** Witness of X17: an archive of a symbolic link and a pipe. *)
Lemma UnpackFiles_skips_other_types_witness :
  UnpackFiles (F := Desk.files) 3 true Toy.msg "out" true [] []
  = Some (None, [], ["link"; "pipe"]).
Proof.
  apply (UnpackFiles_skips_other_types (F := Desk.files) true Toy.msg "out" [] []
           ([], Desk.links) (fst <$> Desk.links) true 3
           eq_refl Desk_yields_links).
  - repeat constructor.
  - vm_compute. lia.
Defined.

(** The same unpacker on the first archive: the directory is made, the file
    created, filled and given its mode, and the link is passed over. *)
Example Desk_unpack_members :
  UnpackFiles (F := Desk.files) 4 false Desk.tgz "out" true [] []
  = Some (None,
          [Desk.MkdirAll "out/docs" 493; Desk.Create "out/docs/a.txt";
           Desk.Copy "out/docs/a.txt" ["h"%byte; "i"%byte];
           Desk.Chmod "out/docs/a.txt" 420],
          []).
Proof. vm_compute. reflexivity. Qed.

(** Witness of X18: two random bytes do not make a salt. *)
Lemma main_pack_without_entropy_witness :
  ∃ s',
    main (I := Toy.imports) (W := Desk.host) Desk.no_flags ["docs"] Desk.starved
    = Stop (Exited 1)
        (Process s' []
           [EvPrompt "Archive password: "; EvPrompt "Confirm: ";
            EvPrint "Packing files..."; EvPackFiles ["docs"];
            EvPrint "Encrypting archive..."; EvDie ErrEncrypt]).
Proof.
  destruct (main_pack_without_entropy (I := Toy.imports) (W := Desk.host)
              Desk.no_flags ["docs"] [] Toy.pw_a []
              (Toy.start [] Toy.msg IterationsHigh) [] Desk.tgz
              Toy_seal_length eq_refl) as (s' & Hm).
  - discriminate.
  - reflexivity.
  - reflexivity.
  - reflexivity.
  - constructor.
  - reflexivity.
  - left. reflexivity.
  - exists s'. exact Hm.
Defined.

(** Witness of X19: two arguments to an unpacking run. *)
Lemma main_decode_argument_count_witness :
  ∃ s',
    main (I := Toy.imports) (W := Desk.host) Desk.flags_u
      ["files.enc"; "short.enc"] Desk.decoding
    = Stop (Exited 1)
        (Process s' []
           [EvPrompt "Archive password: ";
            EvDieWith "only one file may unpacked at a time."])
    ∧ heap s' = heap Toy.s1 ++ [Cell CallerOwned Toy.pw_a].
Proof.
  apply (main_decode_argument_count (I := Toy.imports) (W := Desk.host)
           Desk.flags_u ["files.enc"; "short.enc"] Toy.pw_a [] Toy.s1 []
           eq_refl eq_refl eq_refl).
  vm_compute. lia.
Defined.

(** Witness of X20: a listing run with the terminal closed. *)
Lemma main_without_passphrase_witness :
  main (I := Toy.imports) (W := Desk.host) Desk.flags_t ["files.enc"]
    (Process Toy.s1 [] [])
  = Stop (Exited 1)
      (Process Toy.s1 [] [EvPrompt "Archive password: "; EvDie ErrExternal]).
Proof.
  apply (main_without_passphrase (I := Toy.imports) (W := Desk.host)
           Desk.flags_t ["files.enc"] Toy.s1 [] eq_refl).
  - discriminate.
  - reflexivity.
Defined.
